(** * An ingestion pipeline: retry executor, idempotent store, policies, report

    Shallow embedding of the TypeScript sources
    [src/infra/retry.ts], [src/infra/repo.memory.ts], [src/domain/policies.ts],
    [src/app/report.ts], [src/app/errors.ts], [src/app/pipeline.ts],
    [src/infra/csv.ts], [src/utils/result.ts] and the exit classification of
    [src/index.ts].

    Conventions of the embedding.
    - A [ResultAsync<T, AppError>] is a [Result T AppError] where the code
      awaits it before anything else runs.
    - JavaScript integers (attempt numbers, millisecond time stamps, counts)
      are [Z].  The delay of the back-off is computed in floating-point
      arithmetic from a draw of [Math.random()]; it is not computed here, a
      sleep is recorded with the attempt it follows.
    - The two promise chains of [bulkUpsert] run interleaved: a schedule
      says whose turn it is, and what is proved holds for every schedule.
    - [Map<string, V>] is [gmap string V] where only lookups matter, and an
      association list where the insertion order is observed (the report).
    - [Set<string>] is [gset string].
    - Code that mutates an object threads that object explicitly. *)

From Stdlib Require Import ZArith QArith String Ascii List Lia Bool.
From stdpp Require Import gmap strings list sorting.

Local Open Scope Z_scope.

(** ** [neverthrow]'s [Result] *)

Inductive Result (T E : Type) : Type :=
| Ok (value : T)
| Err (error : E).

Arguments Ok {T E} value.
Arguments Err {T E} error.

Definition isOk {T E} (r : Result T E) : bool :=
  match r with Ok _ => true | Err _ => false end.

Definition isErr {T E} (r : Result T E) : bool := negb (isOk r).

(** ** [String.prototype] operations the code relies on

    [toLowerCase] is Unicode aware in JavaScript; the development is generic in
    it.  [AsciiStrings] is the instance used to evaluate examples: it agrees
    with JavaScript on ASCII text. *)

Class StringOps := { toLowerCase : string -> string }.

Definition lower_ascii (c : ascii) : ascii :=
  let n := N_of_ascii c in
  if ((65 <=? n) && (n <=? 90))%N then ascii_of_N (n + 32) else c.

Fixpoint lower_string (s : string) : string :=
  match s with
  | EmptyString => EmptyString
  | String c rest => String (lower_ascii c) (lower_string rest)
  end.

Definition AsciiStrings : StringOps := {| toLowerCase := lower_string |}.

(** [s.split(sep)] for a one-character separator: never the empty list. *)
Fixpoint split (sep : ascii) (s : string) : list string :=
  match s with
  | EmptyString => [EmptyString]
  | String c rest =>
      if Ascii.eqb c sep then EmptyString :: split sep rest
      else match split sep rest with
           | piece :: pieces => String c piece :: pieces
           | [] => [String c EmptyString]
           end
  end.

(** ** src/app/errors.ts *)

Module Errors.

Inductive AppErrorType :=
| ParseError | ValidationError | PolicyError | RepoError | ConfigError | UnknownError.

Inductive ErrorCode :=
| CSV_READ_ERROR | CSV_PARSE_ERROR | VALIDATION_FAILED
| POLICY_DISPOSABLE_EMAIL | POLICY_DUPLICATE | POLICY_STALE_UPDATE
| REPO_NOT_FOUND | REPO_CONFLICT | REPO_WRITE_FAILED
| CONFIG_INVALID | CONFIG_MISSING | UNKNOWN.

(** The [unknown] values that travel in [cause] and [details]. *)
Inductive JsValue :=
| JString (s : string)
| JNumber (n : Z)
| JDate (ms : Z)
| JError (name message : string)
| JRecord (fields : list (string * string)).

Record AppError := mkAppError {
  type : AppErrorType;
  code : ErrorCode;
  message : string;
  cause : option JsValue;
  details : option (list (string * JsValue))
}.

Record ErrorFactoryArgs := mkArgs {
  arg_code : ErrorCode;
  arg_message : string;
  arg_cause : option JsValue;
  arg_details : option (list (string * JsValue))
}.

Definition createFactory (ty : AppErrorType) (args : ErrorFactoryArgs) : AppError :=
  {| type := ty; code := arg_code args; message := arg_message args;
     cause := arg_cause args; details := arg_details args |}.

Definition createParseError := createFactory ParseError.
Definition createValidationError := createFactory ValidationError.
Definition createPolicyError := createFactory PolicyError.
Definition createRepoError := createFactory RepoError.
Definition createConfigError := createFactory ConfigError.
Definition createUnknownError := createFactory UnknownError.

Definition wrapUnknown (error : JsValue) : AppError :=
  createUnknownError
    {| arg_code := UNKNOWN;
       arg_message := "An unexpected error occurred";
       arg_cause := Some match error with
                         | JError name message =>
                             JRecord [("name"%string, name);
                                      ("message"%string, message)]
                         | other => other
                         end;
       arg_details := None |}.

End Errors.

(** ** src/infra/retry.ts *)

Module Retry.
Import Errors.

(** [maxAttempts] counts attempts and is an integer.  The three others
    are read by [computeDelay] only, which is not part of this development:
    it multiplies a draw of [Math.random()] by the capped exponential in
    floating-point arithmetic. *)
Record RetryOptions := mkRetryOptions {
  maxAttempts : Z;
  baseDelayMs : Q;
  maxDelayMs : Q;
  factor : Q
}.

Record RetryContext := mkRetryContext {
  operationName : option string;
  spanId : option string
}.

(** What an execution does besides computing its result, in the order in
    which it happens. *)
Inductive Effect :=
| Invoked (attempt : Z)
| LogWarn (context : option RetryContext) (attempt : Z)
          (code : ErrorCode) (type : AppErrorType)
| LogInfo (context : option RetryContext) (attempt : Z)
| Slept (attempt : Z).

Definition invocations (effects : list Effect) : list Z :=
  omap (fun ev => match ev with Invoked n => Some n | _ => None end) effects.

Definition exceeded : AppError :=
  wrapUnknown (JError "Error" "Retry exceeded attempts").

Section Executor.
Context {S T : Type}.
Variable options : RetryOptions.
Variable operation : Z -> S -> Result T AppError * S.
Variable context : option RetryContext.

Definition Run : Type := Result T AppError * S * list Effect.

(** [sleep] without an abort signal always resolves, so [awaitDelay] is
    always [Ok null]; what remains of it is the sleep, of
    [computeDelay(currentAttempt, options)] milliseconds. *)
Definition awaitDelay (currentAttempt : Z) : Effect :=
  Slept currentAttempt.

Definition succeed (attempt : Z) (value : T) : Result T AppError * list Effect :=
  (Ok value, if attempt >? 1 then [LogInfo context attempt] else []).

Definition after (effects : list Effect) (run : option Run) : option Run :=
  match run with
  | Some (r, s, rest) => Some (r, s, effects ++ rest)
  | None => None
  end.

(** [fail] of the source; [retryFrom] is [execute], which [fail] calls for
    the next attempt. *)
Definition fail (retryFrom : Z -> option AppError -> S -> option Run)
    (attempt : Z) (error : AppError) (s : S) : option Run :=
  let warned := [LogWarn context attempt (code error) (type error)] in
  if attempt >=? maxAttempts options then Some (Err error, s, warned)
  else after (warned ++ [awaitDelay attempt])
             (retryFrom (attempt + 1) (Some error) s).

(** [execute] of the source.  [fuel] bounds the number of invocations and
    [None] says that it ran out. *)
Fixpoint execute (fuel : nat) (attempt : Z) (lastError : option AppError)
    (s : S) : option Run :=
  if attempt >? maxAttempts options then
    Some (Err (default exceeded lastError), s, [])
  else
    match fuel with
    | O => None
    | Datatypes.S fuel' =>
        match operation attempt s with
        | (Ok value, s') =>
            let '(r, logged) := succeed attempt value in
            Some (r, s', Invoked attempt :: logged)
        | (Err error, s') =>
            after [Invoked attempt] (fail (execute fuel') attempt error s')
        end
    end.

(** [createRetryExecutor(options, logger)(operation, context)] starts with
    [execute(1, null)]. *)
Definition createRetryExecutor (s : S) : option Run :=
  execute (Z.to_nat (maxAttempts options)) 1 None s.

(** The state in which attempt [n + 1] starts when none of the attempts
    [1 .. n] made the executor stop. *)
Definition stateAfter (n : Z) (s : S) : S :=
  foldl (fun st k => snd (operation k st)) s (seqZ 1 n).

End Executor.

(** *** An executor, call by call

    What a [RetryExecutor] does with the operation it was given, seen from
    the caller: its [ResultAsync] resolves, or it calls the operation with
    an attempt number and goes on by what the call returns, or it stays
    pending.  Other tasks of the event loop run between two calls. *)
Inductive Attempting (T : Type) : Type :=
| resolved (r : Result T AppError)
| invoking (attempt : Z) (next : Result T AppError -> Attempting T)
| pending.

Arguments resolved {T} r.
Arguments invoking {T} attempt next.
Arguments pending {T}.

Section Stepwise.
Context {T : Type}.
Variable options : RetryOptions.

(** [execute], [succeed] and [fail] again, with the calls of the operation
    left to the caller; the log entries and the sleeps are left out.
    [pending] stands where the fuel runs out. *)
Fixpoint executing (fuel : nat) (attempt : Z) (lastError : option AppError)
  : Attempting T :=
  if attempt >? maxAttempts options then
    resolved (Err (default exceeded lastError))
  else
    match fuel with
    | O => pending
    | Datatypes.S fuel' =>
        invoking attempt (fun r =>
          match r with
          | Ok value => resolved (Ok value)
          | Err error =>
              if attempt >=? maxAttempts options then resolved (Err error)
              else executing fuel' (attempt + 1) (Some error)
          end)
    end.

Definition attempting : Attempting T :=
  executing (Z.to_nat (maxAttempts options)) 1 None.

(** The calls made one after the other on an operation that threads a
    state. *)
Fixpoint perform {S : Type} (run : Attempting T)
    (operation : Z -> S -> Result T AppError * S) (s : S)
  : option (Result T AppError * S) :=
  match run with
  | resolved r => Some (r, s)
  | invoking attempt next =>
      let '(r, s') := operation attempt s in
      perform (next r) operation s'
  | pending => None
  end.

End Stepwise.

End Retry.

(** *** Reading the effects of a run *)

Module RetryTrace.
Import Retry.

Definition isSlept (effect : Effect) : bool :=
  match effect with Slept _ => true | _ => false end.

Definition isLogWarn (effect : Effect) : bool :=
  match effect with LogWarn _ _ _ _ => true | _ => false end.

Definition isLogInfo (effect : Effect) : bool :=
  match effect with LogInfo _ _ => true | _ => false end.

(** How often the run slept, warned, and reported a success after a
    retry. *)
Definition sleeps (effects : list Effect) : Z :=
  Z.of_nat (length (List.filter isSlept effects)).

Definition warnings (effects : list Effect) : Z :=
  Z.of_nat (length (List.filter isLogWarn effects)).

Definition successLogs (effects : list Effect) : Z :=
  Z.of_nat (length (List.filter isLogInfo effects)).

End RetryTrace.

(** ** src/domain/models.ts *)

Module Models.

(** [updatedAt] is the time value of the [Date], in milliseconds. *)
Record User := mkUser {
  id : string;
  name : string;
  email : string;
  age : Z;
  updatedAt : Z
}.

End Models.

(** ** src/infra/repo.memory.ts *)

Module Repo.
Import Errors Models.

Record IdempotencyEntry := mkEntry {
  expiresAt : Z;
  userIds : gset string
}.

Record UpsertOptions := mkUpsertOptions {
  idempotencyKey : option string
}.

(** The fields of the class; the logger is left out, it only receives
    messages. *)
Record MemoryUserRepository := mkRepo {
  byId : gmap string User;
  byEmail : gmap string string;
  idempotency : gmap string IdempotencyEntry;
  idempotencyTtlMs : Z
}.

(** A string is truthy unless it is empty, a number unless it is 0. *)
Definition truthyString (s : string) : bool := negb (String.eqb s "").
Definition truthyNumber (n : Z) : bool := negb (n =? 0).

Definition cloneUser (user : User) : User :=
  {| id := id user; name := name user; email := email user; age := age user;
     updatedAt := updatedAt user |}.

Section Repository.
Context {ops : StringOps}.

Definition findById (repo : MemoryUserRepository) (i : string)
  : Result (option User) AppError :=
  let user := byId repo !! i in
  Ok (cloneUser <$> user).

Definition findByEmail (repo : MemoryUserRepository) (e : string)
  : Result (option User) AppError :=
  let key := toLowerCase e in
  let user :=
    match byEmail repo !! key with
    | Some i => if truthyString i then byId repo !! i else None
    | None => None
    end in
  Ok (cloneUser <$> user).

(** [existing?.expiresAt ? existing.expiresAt > now : false] *)
Definition active (existing : option IdempotencyEntry) (now : Z) : bool :=
  match existing with
  | Some e => if truthyNumber (expiresAt e) then expiresAt e >? now else false
  | None => false
  end.

Definition persistIdempotency (key userId : string) (now : Z)
    (repo : MemoryUserRepository) : MemoryUserRepository :=
  let existing := idempotency repo !! key in
  let expires := now + idempotencyTtlMs repo in
  if active existing now then
    match existing with
    | Some e =>
        {| byId := byId repo; byEmail := byEmail repo;
           idempotency :=
             <[key := {| expiresAt := expiresAt e;
                         userIds := userIds e ∪ {[userId]} |}]> (idempotency repo);
           idempotencyTtlMs := idempotencyTtlMs repo |}
    | None => repo
    end
  else
    {| byId := byId repo; byEmail := byEmail repo;
       idempotency :=
         <[key := {| expiresAt := expires; userIds := {[userId]} |}]> (idempotency repo);
       idempotencyTtlMs := idempotencyTtlMs repo |}.

(** [options?.idempotencyKey], kept only when it is truthy: every use of the
    key in [upsert] is guarded by [idempotencyKey ? ... : undefined]. *)
Definition presentKey (options : option UpsertOptions) : option string :=
  match options ≫= idempotencyKey with
  | Some key => if truthyString key then Some key else None
  | None => None
  end.

(** The constant [cached] of [upsert]: the stored user when the call is a
    replay, [None] otherwise. *)
Definition cached (now : Z) (user : User) (options : option UpsertOptions)
    (repo : MemoryUserRepository) : option User :=
  let entry := presentKey options ≫= (fun key => idempotency repo !! key) in
  let replayEligible :=
    match entry with
    | Some e =>
        if truthyNumber (expiresAt e)
        then (expiresAt e >? now) && bool_decide (id user ∈ userIds e)
        else false
    | None => false
    end in
  if replayEligible then byId repo !! id user else None.

Definition persistFresh (now : Z) (user : User) (options : option UpsertOptions)
    (repo : MemoryUserRepository) : User * MemoryUserRepository :=
  let stored :=
    cloneUser {| id := id user; name := name user;
                 email := toLowerCase (email user); age := age user;
                 updatedAt := updatedAt user |} in
  let written :=
    {| byId := <[id stored := stored]> (byId repo);
       byEmail := <[email stored := id stored]> (byEmail repo);
       idempotency := idempotency repo;
       idempotencyTtlMs := idempotencyTtlMs repo |} in
  let registered :=
    match presentKey options with
    | Some key => persistIdempotency key (id stored) now written
    | None => written
    end in
  (cloneUser stored, registered).

(** [now] is the value of [Date.now()] in the call.  Nothing in the body
    throws on a [User], so the promise never rejects and the result is
    always [Ok]. *)
Definition upsert (now : Z) (user : User) (options : option UpsertOptions)
    (repo : MemoryUserRepository) : Result User AppError * MemoryUserRepository :=
  match cached now user options repo with
  | Some c => (Ok (cloneUser c), repo)
  | None =>
      let '(stored, repo') := persistFresh now user options repo in
      (Ok stored, repo')
  end.

Definition withKey (key : string) : option UpsertOptions :=
  Some {| idempotencyKey := Some key |}.


End Repository.

(** *** [bulkUpsert]

    The repository and the clock are what the calls of a batch share.
    [reads] counts the calls of [Date.now()] made so far. *)
Record World := mkWorld {
  store : MemoryUserRepository;
  reads : nat
}.

(** A [RetryExecutor] (src/infra/retry.ts), as what it does with the
    operation call by call.  It reaches the repository through these calls
    only. *)
Definition RetryExecutor : Type :=
  forall T : Type, option Retry.RetryContext -> Retry.Attempting T.

(** src/infra/repo.ts.  The [rateLimiter] of the options decides when the
    tasks of the concurrent chain run; see [Turn]. *)
Record BulkUpsertOptions := mkBulkOptions {
  bulkIdempotencyKey : option string;
  retry : RetryExecutor;
  failFast : bool
}.

Record BulkUpsertFailure := mkFailure {
  failedUser : User;
  failedWith : AppError
}.

Record BulkUpsertResult := mkBulkResult {
  successes : list User;
  failures : list BulkUpsertFailure
}.

(** The executor [createRetryExecutor] builds. *)
Definition retryExecutor (options : Retry.RetryOptions) : RetryExecutor :=
  fun T context => Retry.attempting options.

(** The retried upsert of a user: the user and what the executor has still
    to do. *)
Record Task := mkTask {
  taskUser : User;
  taskRun : Retry.Attempting User
}.

(** The chain of [sequential]: it waits for the retried upsert of a user,
    with the users and the accumulator of the call of [sequential] that
    comes next, or it has resolved. *)
Inductive Sequential :=
| awaiting (task : Task) (rest acc : list User)
| finished (r : Result (list User) AppError).

(** Which chain called [upsert]. *)
Inductive Origin := bySequential | byConcurrent.

(** [bulkUpsert] builds [sequentialResult] and [concurrentResult] both
    before it chooses one, so both chains are started and both run, whatever
    [failFast] is.  The state of a call: the two chains, the world they
    share, and the calls of [upsert] made so far, oldest first. *)
Record Chains := mkChains {
  sequentialChain : Sequential;
  concurrentTasks : list Task;
  world : World;
  upserts : list (Origin * User)
}.

(** The body of [upsert] runs without interruption, and between two calls
    any chain may be the next to call: a turn is one call of [upsert], by
    the sequential chain or by the task of the given index.  A schedule is
    the list of the turns; the event loop, the executor and the rate
    limiter decide which schedules occur. *)
Inductive Turn :=
| turnSequential
| turnTask (index : nat).

Section Bulk.
Context {ops : StringOps}.
(** [clock k] is what the call number [k] of [Date.now()] returns. *)
Variable clock : nat -> Z.

(** The ids under which the repository of a world stores a user. *)
Definition ids (w : World) : gset string := dom (byId (store w)).

(** [this.upsert(user, options)] in a world: it reads the clock once. *)
Definition upsertIn (user : User) (options : BulkUpsertOptions) (w : World)
  : Result User AppError * World :=
  let '(r, repo') :=
    upsert (clock (reads w)) user
           (Some {| idempotencyKey := bulkIdempotencyKey options |}) (store w) in
  (r, {| store := repo'; reads := Datatypes.S (reads w) |}).

Definition repoUpsert : option Retry.RetryContext :=
  Some {| Retry.operationName := Some "repo.upsert"%string; Retry.spanId := None |}.

(** [options.retry(() => this.upsert(user, options), {...})] *)
Definition retried (options : BulkUpsertOptions) (user : User) : Task :=
  {| taskUser := user; taskRun := retry options User repoUpsert |}.

(** [sequential(remaining, acc)], as far as it gets without a call of
    [upsert]. *)
Fixpoint sequential (options : BulkUpsertOptions) (remaining acc : list User)
  : Sequential :=
  match remaining with
  | [] => finished (Ok acc)
  | user :: rest =>
      match retry options User repoUpsert with
      | Retry.resolved (Ok stored) => sequential options rest (acc ++ [stored])
      | Retry.resolved (Err error) => finished (Err error)
      | run => awaiting {| taskUser := user; taskRun := run |} rest acc
      end
  end.

(** The chain when the executor has got the result of a call and has gone
    on to [run]: [andThen] calls [sequential] on the rest when the retried
    upsert resolves to a stored user. *)
Definition proceed (options : BulkUpsertOptions) (user : User)
    (run : Retry.Attempting User) (rest acc : list User) : Sequential :=
  match run with
  | Retry.resolved (Ok stored) => sequential options rest (acc ++ [stored])
  | Retry.resolved (Err error) => finished (Err error)
  | _ => awaiting {| taskUser := user; taskRun := run |} rest acc
  end.

(** The call of [upsert] a task is about to make, when it is about to make
    one. *)
Definition call (options : BulkUpsertOptions) (task : Task) (w : World)
  : option (Task * World) :=
  match taskRun task with
  | Retry.invoking attempt next =>
      let '(r, w') := upsertIn (taskUser task) options w in
      Some ({| taskUser := taskUser task; taskRun := next r |}, w')
  | _ => None
  end.

(** A turn of a chain that has no call to make changes nothing. *)
Definition turn (options : BulkUpsertOptions) (t : Turn) (chains : Chains)
  : Chains :=
  match t with
  | turnSequential =>
      match sequentialChain chains with
      | awaiting task rest acc =>
          match call options task (world chains) with
          | Some (task', w') =>
              {| sequentialChain :=
                   proceed options (taskUser task') (taskRun task') rest acc;
                 concurrentTasks := concurrentTasks chains;
                 world := w';
                 upserts := upserts chains ++ [(bySequential, taskUser task)] |}
          | None => chains
          end
      | finished _ => chains
      end
  | turnTask index =>
      match concurrentTasks chains !! index with
      | Some task =>
          match call options task (world chains) with
          | Some (task', w') =>
              {| sequentialChain := sequentialChain chains;
                 concurrentTasks := <[index := task']> (concurrentTasks chains);
                 world := w';
                 upserts := upserts chains ++ [(byConcurrent, taskUser task)] |}
          | None => chains
          end
      | None => chains
      end
  end.

(** [sequential(users, []).map(...)], once the chain has resolved. *)
Definition sequentialResult (chain : Sequential)
  : option (Result BulkUpsertResult AppError) :=
  match chain with
  | finished (Ok done) => Some (Ok {| successes := done; failures := [] |})
  | finished (Err error) => Some (Err error)
  | awaiting _ _ _ => None
  end.

(** What a task resolves to: [{ user, result }]. *)
Definition settled (task : Task) : option (User * Result User AppError) :=
  match taskRun task with
  | Retry.resolved r => Some (taskUser task, r)
  | _ => None
  end.

(** The reducer of [concurrentResult]. *)
Definition aggregate (items : list (User * Result User AppError))
  : BulkUpsertResult :=
  fold_left
    (fun acc item =>
       match snd item with
       | Ok value =>
           {| successes := successes acc ++ [value]; failures := failures acc |}
       | Err error =>
           {| successes := successes acc;
              failures := failures acc
                          ++ [{| failedUser := fst item; failedWith := error |}] |}
       end)
    items {| successes := []; failures := [] |}.

(** [Promise.all] resolves when every task has, to the results in the
    order of the users; no task rejects, so the error mapper of
    [fromPromise] is never called. *)
Definition concurrentResult (tasks : list Task)
  : option (Result BulkUpsertResult AppError) :=
  match mapM settled tasks with
  | Some items => Some (Ok (aggregate items))
  | None => None
  end.

(** The two chains as [bulkUpsert] starts them, and after the turns of a
    schedule. *)
Definition started (users : list User) (options : BulkUpsertOptions) (w : World)
  : Chains :=
  {| sequentialChain := sequential options users [];
     concurrentTasks := map (retried options) users;
     world := w;
     upserts := [] |}.

Definition bulkRun (users : list User) (options : BulkUpsertOptions)
    (schedule : list Turn) (w : World) : Chains :=
  foldl (fun chains t => turn options t chains) (started users options w) schedule.

(** [options.failFast ? sequentialResult : concurrentResult]: the result
    the call has resolved to after the turns of the schedule, with the
    world at that time, or [None] while the chosen chain has not
    resolved. *)
Definition bulkUpsert (users : list User) (options : BulkUpsertOptions)
    (schedule : list Turn) (w : World)
  : option (Result BulkUpsertResult AppError * World) :=
  let chains := bulkRun users options schedule w in
  match (if failFast options then sequentialResult (sequentialChain chains)
         else concurrentResult (concurrentTasks chains)) with
  | Some r => Some (r, world chains)
  | None => None
  end.

(** The calls of [upsert] a chain has made, in their order. *)
Definition upsertsOf (origin : Origin) (chains : Chains) : list User :=
  omap (fun entry => match fst entry, origin with
                     | bySequential, bySequential => Some (snd entry)
                     | byConcurrent, byConcurrent => Some (snd entry)
                     | _, _ => None
                     end) (upserts chains).

(** A schedule gives the sequential chain [n] turns at least, and every
    task of [n] tasks a turn. *)
Definition sequentialTurns (schedule : list Turn) : nat :=
  length (List.filter (fun t => match t with turnSequential => true | _ => false end)
                      schedule).

Definition servesTasks (n : nat) (schedule : list Turn) : Prop :=
  forall index, (index < n)%nat -> turnTask index ∈ schedule.

End Bulk.

End Repo.

(** *** Repositories that the code can reach *)

Module RepoStates.
Import Errors Models Repo.



(** The three maps refer to stored users only: every user is stored under
    its own id, every email of the index and every member of an idempotency
    entry is the id of a stored user. *)
Definition consistent (repo : MemoryUserRepository) : Prop :=
  (forall i user, byId repo !! i = Some user -> id user = i)
  /\ (forall e i, byEmail repo !! e = Some i -> is_Some (byId repo !! i))
  /\ (forall key entry i,
         idempotency repo !! key = Some entry ->
         i ∈ userIds entry -> is_Some (byId repo !! i)).

Section Calls.
Context {ops : StringOps}.


End Calls.

End RepoStates.

(** *** What holds of the two chains during a call *)

Module BulkStates.
Import Errors Models Repo.

Section Chains.
Context {ops : StringOps}.

(** The sequential chain has a stored user for every user it is done
    with. *)
Definition accounted (users : list User) (chain : Sequential) : Prop :=
  match chain with
  | awaiting task rest acc =>
      exists pre, users = pre ++ taskUser task :: rest /\ length acc = length pre
  | finished (Ok acc) => length acc = length users
  | finished (Err _) => True
  end.

(** A task that has not called [upsert] yet, and the users of the tasks
    that have resolved. *)
Definition untried (options : BulkUpsertOptions) (task : Task) : Prop :=
  taskRun task = retry options User repoUpsert.

Definition resolvedUsers (tasks : list Task) : list User :=
  omap (fun task => match taskRun task with
                    | Retry.resolved _ => Some (taskUser task)
                    | _ => None
                    end) tasks.

(** With the executor of [createRetryExecutor], one attempt at least and
    the [upsert] of the in-memory repository, a retried upsert is one call
    that succeeds: the sequential chain has called [upsert] once for each
    user before the one it waits for, and every task has either not called
    yet or has resolved to a stored user after its one call. *)
Definition oneCallEach (users : list User) (options : BulkUpsertOptions)
    (chains : Chains) : Prop :=
  match sequentialChain chains with
  | awaiting task rest acc =>
      untried options task
      /\ users = upsertsOf bySequential chains ++ taskUser task :: rest
      /\ length acc = length (upsertsOf bySequential chains)
  | finished (Ok acc) =>
      upsertsOf bySequential chains = users /\ length acc = length users
  | finished (Err _) => False
  end
  /\ Forall2 (fun user task =>
                taskUser task = user
                /\ (untried options task
                    \/ exists stored, taskRun task = Retry.resolved (Ok stored)))
             users (concurrentTasks chains)
  /\ upsertsOf byConcurrent chains ≡ₚ resolvedUsers (concurrentTasks chains).

(** How many users the sequential chain has still to upsert. *)
Definition outstanding (chain : Sequential) : nat :=
  match chain with
  | awaiting _ rest _ => Datatypes.S (length rest)
  | finished _ => 0
  end.

End Chains.

End BulkStates.

(** ** src/domain/policies.ts *)

Module Policies.
Import Errors Models.

Definition DEFAULT_DISPOSABLE_DOMAINS : gset string :=
  {[ "mailinator.com"%string; "trashmail.com"%string;
     "10minutemail.com"%string; "tempmail.com"%string ]}.

(** [PolicyOutcomeAccept | PolicyOutcomeSkip], told apart by [type]. *)
Inductive PolicyOutcome :=
| accept (user : User)
| skip (user : User) (error : AppError).

(** [Pick<UserRepository, "findById" | "findByEmail">] *)
Record RepoReads := mkReads {
  findById : string -> Result (option User) AppError;
  findByEmail : string -> Result (option User) AppError
}.

Record PolicyDependencies := mkDeps {
  repo : RepoReads;
  isDisposableDomain : option (string -> bool)
}.

(** The calls a policy evaluation makes on the repository, in order. *)
Inductive Lookup :=
| LookupById (i : string)
| LookupByEmail (e : string).

Section Evaluation.
Context {ops : StringOps}.

Definition isDisposable (domain : string) (custom : option (string -> bool)) : bool :=
  match custom with
  | Some check => check domain
  | None => bool_decide (toLowerCase domain ∈ DEFAULT_DISPOSABLE_DOMAINS)
  end.

Definition toSkip (user : User) (error : AppError) : PolicyOutcome :=
  skip user error.

(** [user.email.split("@")[1] ?? ""] *)
Definition domainOf (user : User) : string :=
  nth 1 (split "@" (email user)) ""%string.

Definition disposableError (domain : string) : AppError :=
  createPolicyError
    {| arg_code := POLICY_DISPOSABLE_EMAIL;
       arg_message := "Disposable email domain is not allowed";
       arg_cause := None;
       arg_details := Some [("domain"%string, JString domain)] |}.

Definition duplicateError (matched : User) : AppError :=
  createPolicyError
    {| arg_code := POLICY_DUPLICATE;
       arg_message := "Duplicate user detected by email and name";
       arg_cause := None;
       arg_details := Some [("id"%string, JString (id matched));
                            ("email"%string, JString (email matched))] |}.

(** The two time stamps are rendered by [toISOString] in the source. *)
Definition staleError (matched user : User) : AppError :=
  createPolicyError
    {| arg_code := POLICY_STALE_UPDATE;
       arg_message := "Incoming record is older than the stored version";
       arg_cause := None;
       arg_details := Some [("storedAt"%string, JDate (updatedAt matched));
                            ("incomingAt"%string, JDate (updatedAt user))] |}.

Definition resolveByEmail (user : User) (deps : PolicyDependencies)
  : Result PolicyOutcome AppError * list Lookup :=
  (match findByEmail (repo deps) (email user) with
   | Ok (Some matched) =>
       if String.eqb (toLowerCase (name matched)) (toLowerCase (name user))
       then Ok (toSkip matched (duplicateError matched))
       else Ok (accept user)
   | Ok None => Ok (accept user)
   | Err error => Err error
   end,
   [LookupByEmail (email user)]).

Definition resolveById (user : User) (deps : PolicyDependencies)
  : Result PolicyOutcome AppError * list Lookup :=
  match findById (repo deps) (id user) with
  | Ok (Some matched) =>
      (if updatedAt matched >=? updatedAt user
       then Ok (toSkip user (staleError matched user))
       else Ok (accept user),
       [LookupById (id user)])
  | Ok None =>
      let '(outcome, lookups) := resolveByEmail user deps in
      (outcome, LookupById (id user) :: lookups)
  | Err error => (Err error, [LookupById (id user)])
  end.

Definition evaluatePolicies (user : User) (deps : PolicyDependencies)
  : Result PolicyOutcome AppError * list Lookup :=
  let domain := domainOf user in
  let disposableOutcome :=
    if isDisposable domain (isDisposableDomain deps)
    then Some (Ok (toSkip user (disposableError domain)))
    else None in
  match disposableOutcome with
  | Some outcome => (outcome, [])
  | None => resolveById user deps
  end.

(** The reads of a [MemoryUserRepository], as the pipeline passes them. *)
Definition readsOf (r : Repo.MemoryUserRepository) : RepoReads :=
  {| findById := Repo.findById r; findByEmail := Repo.findByEmail r |}.

End Evaluation.

End Policies.

(** ** src/app/report.ts *)

Module Report.
Import Models.

Record DomainCount := mkDomainCount {
  domain : string;
  count : Z
}.

(** [const [, domain = "unknown"] = user.email.split("@")] *)
Definition domainOf (user : User) : string :=
  match split "@" (email user) with
  | _ :: domain :: _ => domain
  | _ => "unknown"%string
  end.

(** A [Map<string, number>] whose entries are read back in insertion order:
    a list of entries, oldest first.  [mapSet] on a key that is present
    replaces the value where the entry is. *)
Fixpoint mapGet (key : string) (m : list (string * Z)) : option Z :=
  match m with
  | [] => None
  | (k, v) :: rest => if String.eqb k key then Some v else mapGet key rest
  end.

Fixpoint mapSet (key : string) (value : Z) (m : list (string * Z))
  : list (string * Z) :=
  match m with
  | [] => [(key, value)]
  | (k, v) :: rest =>
      if String.eqb k key then (k, value) :: rest
      else (k, v) :: mapSet key value rest
  end.

(** The reducer of [topDomains]. *)
Definition countDomain (acc : list (string * Z)) (user : User) : list (string * Z) :=
  let domain := domainOf user in
  let nextCount := default 0 (mapGet domain acc) + 1 in
  mapSet domain nextCount acc.

(** [Array.prototype.sort(compare)]: the sort is stable (ECMAScript 2019),
    so with a consistent comparator the result is the one of the stable
    insertion sort below. *)
Fixpoint place {A : Type} (compare : A -> A -> Z) (x : A) (sorted : list A)
  : list A :=
  match sorted with
  | [] => [x]
  | y :: rest =>
      if compare x y <=? 0 then x :: y :: rest
      else y :: place compare x rest
  end.

Fixpoint sortStable {A : Type} (compare : A -> A -> Z) (l : list A) : list A :=
  match l with
  | [] => []
  | x :: rest => place compare x (sortStable compare rest)
  end.

Definition topDomains (users : list User) (limit : nat) : list DomainCount :=
  map (fun entry => {| domain := fst entry; count := snd entry |})
      (take limit
         (sortStable (fun a b => snd b - snd a)
            (fold_left countDomain users []))).

(** [limit = 5] *)
Definition defaultLimit : nat := 5.

(** How many of the users have the domain, and the position of the first
    user that has it (the number of users when none has). *)
Definition occurrences (d : string) (users : list User) : Z :=
  Z.of_nat (count_occ string_dec (map domainOf users) d).

Fixpoint firstSeen (d : string) (users : list User) : nat :=
  match users with
  | [] => 0
  | user :: rest =>
      if String.eqb (domainOf user) d then 0 else Datatypes.S (firstSeen d rest)
  end.

(** [a] is listed before [b]: it has the larger count, or the same count
    and a domain that was seen first. *)
Definition ranksBefore (users : list User) (a b : DomainCount) : Prop :=
  count b < count a
  \/ (count a = count b
      /\ (firstSeen (domain a) users < firstSeen (domain b) users)%nat).

(** The comparator [(a, b) => score(b) - score(a)], and the order a stable
    sort with it produces from a list in which [pos] increases. *)
Definition descending {A : Type} (score : A -> Z) (a b : A) : Z :=
  score b - score a.

Definition inOrder {A : Type} (score : A -> Z) (pos : A -> nat) (a b : A) : Prop :=
  score b < score a \/ (score a = score b /\ (pos a < pos b)%nat).

Definition seenBefore (seen : list User) (d1 d2 : string) : Prop :=
  (firstSeen d1 seen < firstSeen d2 seen)%nat.

(** The entries after the users [seen]: one entry for each domain that
    occurs, with its number of occurrences, in the order in which the
    domains were first seen. *)
Definition tallied (seen : list User) (m : list (string * Z)) : Prop :=
  StronglySorted (seenBefore seen) (map fst m)
  /\ forall d, mapGet d m
              = if occurrences d seen =? 0 then None else Some (occurrences d seen).

End Report.

(** ** src/app/pipeline.ts *)

Module Pipeline.
Import Errors Models.

(** A CSV row before validation: the fields that are present. *)
Record RawUser := mkRaw {
  raw_id : option string;
  raw_name : option string;
  raw_email : option string;
  raw_age : option string;
  raw_updatedAt : option string
}.

(** What [iterator.next()] is rejected with. *)
Inductive Rejection :=
| RejectedWith (error : AppError)
| RejectedOther (value : JsValue).

Record PipelineInput := mkInput {
  source : Result (list (Result RawUser Rejection)) AppError;
  idempotencyKey : option string;
  failFast : option bool
}.

(** The part of [Config] the pipeline reads. *)
Record Config := mkConfig {
  configFailFast : bool;
  bulkFailFast : bool
}.

Record PipelineDeps := mkPipelineDeps {
  config : Config;
  retry : Repo.RetryExecutor
}.

Record PipelineStats := mkStats {
  total : Z;
  validated : Z;
  persisted : Z;
  skippedCount : Z;
  failed : Z
}.

Inductive Stage := validation | persistence.

Record PipelineErrorRecord := mkErrorRecord {
  stage : Stage;
  error : AppError;
  context : list (string * JsValue)
}.

Record PipelineOutput := mkOutput {
  report : string;
  stats : PipelineStats;
  errors : list PipelineErrorRecord;
  skipped : list (User * AppError);
  successes : list User
}.

Record PipelineAccumulator := mkAcc {
  acc_total : Z;
  validUsers : list User;
  validationErrors : list PipelineErrorRecord;
  acc_skipped : list (User * AppError)
}.

(** src/app/report.ts *)
Record ReportInput := mkReportInput {
  report_total : Z;
  report_persisted : list User;
  report_skipped : list (User * AppError);
  report_failures : list (Stage * AppError)
}.

Definition toErrorRecord (stage : Stage) (error : AppError)
    (context : list (string * JsValue)) : PipelineErrorRecord :=
  {| stage := stage; error := error; context := context |}.

Definition mapPersistenceFailure (failure : Repo.BulkUpsertFailure)
  : PipelineErrorRecord :=
  toErrorRecord persistence (Repo.failedWith failure)
    [("id"%string, JString (id (Repo.failedUser failure)))].

Section Run.
Context {ops : StringOps}.
(** The validator (src/domain/validation.ts) and the formatter of the
    report (src/app/report.ts) are taken as they are: a function each. *)
Variable validateRawUser : RawUser -> Result User AppError.
Variable buildReport : ReportInput -> string.
Variable clock : nat -> Z.

(** The fields of the record that are present, for the context of a
    validation error. *)
Definition rawFields (raw : RawUser) : list (string * string) :=
  omap (fun field => match snd field with
                     | Some value => Some (fst field, value)
                     | None => None
                     end)
       [("id"%string, raw_id raw); ("name"%string, raw_name raw);
        ("email"%string, raw_email raw); ("age"%string, raw_age raw);
        ("updatedAt"%string, raw_updatedAt raw)].

(** [requeue] is [accumulateRecords] on the rest of the source.  The log
    calls are left out. *)
Definition handleRecord
    (requeue : PipelineAccumulator -> Result PipelineAccumulator AppError)
    (failFast : bool) (repo : Repo.MemoryUserRepository)
    (raw : RawUser) (acc : PipelineAccumulator)
  : Result PipelineAccumulator AppError :=
  let total := acc_total acc + 1 in
  match validateRawUser raw with
  | Ok user =>
      match fst (Policies.evaluatePolicies user
                   {| Policies.repo := Policies.readsOf repo;
                      Policies.isDisposableDomain := None |}) with
      | Ok (Policies.accept accepted) =>
          requeue {| acc_total := total;
                     validUsers := validUsers acc ++ [accepted];
                     validationErrors := validationErrors acc;
                     acc_skipped := acc_skipped acc |}
      | Ok (Policies.skip skippedUser reason) =>
          requeue {| acc_total := total;
                     validUsers := validUsers acc;
                     validationErrors := validationErrors acc;
                     acc_skipped := acc_skipped acc ++ [(skippedUser, reason)] |}
      | Err error => Err error
      end
  | Err validationError =>
      if failFast then Err validationError
      else requeue {| acc_total := total;
                      validUsers := validUsers acc;
                      validationErrors :=
                        validationErrors acc
                        ++ [toErrorRecord validation validationError
                              [("raw"%string, JRecord (rawFields raw))]];
                      acc_skipped := acc_skipped acc |}
  end.

Fixpoint accumulateRecords (records : list (Result RawUser Rejection))
    (failFast : bool) (repo : Repo.MemoryUserRepository)
    (acc : PipelineAccumulator) : Result PipelineAccumulator AppError :=
  match records with
  | [] => Ok acc
  | Err (RejectedWith error) :: _ => Err error
  | Err (RejectedOther value) :: _ => Err (wrapUnknown value)
  | Ok raw :: rest =>
      handleRecord (accumulateRecords rest failFast repo) failFast repo raw acc
  end.

Definition initial : PipelineAccumulator :=
  {| acc_total := 0; validUsers := []; validationErrors := [];
     acc_skipped := [] |}.

(** [schedule] is the order in which the two chains of [bulkUpsert] take
    their turns; the result is [None] while [bulkUpsert] has not resolved. *)
Definition runPipeline (input : PipelineInput) (deps : PipelineDeps)
    (schedule : list Repo.Turn) (w : Repo.World)
  : option (Result PipelineOutput AppError * Repo.World) :=
  let failFast := default (configFailFast (config deps)) (failFast input) in
  match source input with
  | Err error => Some (Err error, w)
  | Ok records =>
      match accumulateRecords records failFast (Repo.store w) initial with
      | Err error => Some (Err error, w)
      | Ok accumulator =>
          match Repo.bulkUpsert clock (validUsers accumulator)
                  {| Repo.bulkIdempotencyKey := idempotencyKey input;
                     Repo.retry := retry deps;
                     Repo.failFast := bulkFailFast (config deps) |} schedule w with
          | None => None
          | Some (Err error, w') => Some (Err error, w')
          | Some (Ok bulk, w') =>
              let persistenceErrors :=
                map mapPersistenceFailure (Repo.failures bulk) in
              let errors := validationErrors accumulator ++ persistenceErrors in
              let stats :=
                {| total := acc_total accumulator;
                   validated := acc_total accumulator
                                - Z.of_nat (length (validationErrors accumulator));
                   persisted := Z.of_nat (length (Repo.successes bulk));
                   skippedCount := Z.of_nat (length (acc_skipped accumulator));
                   failed := Z.of_nat (length errors) |} in
              let report :=
                buildReport
                  {| report_total := acc_total accumulator;
                     report_persisted := Repo.successes bulk;
                     report_skipped := acc_skipped accumulator;
                     report_failures :=
                       map (fun failure => (stage failure, error failure)) errors |} in
              Some (Ok {| report := report; stats := stats; errors := errors;
                          skipped := acc_skipped accumulator;
                          successes := Repo.successes bulk |}, w')
          end
      end
  end.

End Run.

End Pipeline.

(** ** src/index.ts: the exit code *)

Module Cli.
Import Errors Models Pipeline.

Inductive ExitKind := success | partial.

Definition exitKinds : list ExitKind := [success; partial].

(** What the process writes: to the logger and to the console. *)
Inductive Output :=
| LogSucceeded (persisted : Z)
| LogPartial (errors skipped : Z)
| LogFailed (code : ErrorCode) (type : AppErrorType)
| ConsoleLog (text : string)
| ConsoleError (text : string).

(** [exitKinds[Math.min(1, Math.max(0, Number(errorsCount > 0)))]]; [None]
    stands for [undefined]. *)
Definition classifyExit (errorsCount : Z) : option ExitKind :=
  exitKinds !! Z.to_nat (Z.min 1 (Z.max 0 (if errorsCount >? 0 then 1 else 0))).

Definition exitHandlers (output : PipelineOutput) (kind : ExitKind)
  : list Output * Z :=
  match kind with
  | success => ([LogSucceeded (persisted (stats output))], 0)
  | partial =>
      ([LogPartial (Z.of_nat (length (errors output)))
                   (Z.of_nat (length (skipped output)))], 2)
  end.

(** [created] is what [createContainer()] returned and [ran] what
    [runPipeline] returned on its container.  The code is [None] when the
    handler table has no entry for the kind and the call throws. *)
Definition executePipeline {Container : Type}
    (created : Result Container AppError)
    (ran : Container -> Result PipelineOutput AppError)
  : list Output * option Z :=
  match created with
  | Ok container =>
      match ran container with
      | Ok output =>
          match classifyExit (Z.of_nat (length (errors output))) with
          | Some kind =>
              let '(logged, code) := exitHandlers output kind in
              (ConsoleLog (report output) :: logged, Some code)
          | None => ([ConsoleLog (report output)], None)
          end
      | Err error =>
          ([LogFailed (code error) (type error); ConsoleError (message error)],
           Some 1)
      end
  | Err error => ([ConsoleError (message error)], Some 1)
  end.

(** [parsed] is what [parseArgs] returned on the arguments; the process
    exits with the code [main] resolves to. *)
Definition main {Options Container : Type}
    (parsed : Result Options AppError)
    (created : Result Container AppError)
    (ran : Options -> Container -> Result PipelineOutput AppError)
  : list Output * option Z :=
  match parsed with
  | Ok options => executePipeline created (ran options)
  | Err error => ([ConsoleError (message error)], Some 1)
  end.

End Cli.

(** ** src/infra/csv.ts: the fields of a line *)

Module Csv.
Import Errors.

(** [String.prototype.trim]: the development is generic in it. *)
Class Trimming := { trim : string -> string }.

(** The double quote character. *)
Definition quote : ascii := "034"%char.

Record ParserState := mkParserState {
  values : list string;
  current : string;
  inQuotes : bool;
  skipNext : bool
}.

(** The writer's side of the format, for the round trip: a field between
    quotes, with every quote of the field doubled, and a line of such
    fields. *)
Fixpoint escape (field : string) : string :=
  match field with
  | EmptyString => EmptyString
  | String char rest =>
      if Ascii.eqb char quote then String quote (String quote (escape rest))
      else String char (escape rest)
  end.

Definition quoted (field : string) : string :=
  String quote (escape field ++ String quote EmptyString).

Section Parser.
Context {trimming : Trimming}.

Definition appendValue (state : ParserState) : ParserState :=
  {| values := values state ++ [trim (current state)];
     current := "";
     inQuotes := inQuotes state;
     skipNext := false |}.

(** The reducer of [parseCsvLine]; [next] is [array[index + 1]]. *)
Definition step (state : ParserState) (char : ascii) (next : option ascii)
  : ParserState :=
  if skipNext state then
    {| values := values state; current := current state;
       inQuotes := inQuotes state; skipNext := false |}
  else if Ascii.eqb char quote then
    if inQuotes state
       && match next with
          | Some following => Ascii.eqb following quote
          | None => false
          end
    then {| values := values state;
            current := current state ++ String quote EmptyString;
            inQuotes := inQuotes state; skipNext := true |}
    else {| values := values state; current := current state;
            inQuotes := negb (inQuotes state); skipNext := skipNext state |}
  else if Ascii.eqb char "," && negb (inQuotes state) then appendValue state
  else {| values := values state;
          current := current state ++ String char EmptyString;
          inQuotes := inQuotes state; skipNext := skipNext state |}.

(** [array.reduce(reducer, state)] on what is left of the array. *)
Fixpoint reduce (array : list ascii) (state : ParserState) : ParserState :=
  match array with
  | [] => state
  | char :: rest => reduce rest (step state char (head rest))
  end.

Definition initial : ParserState :=
  {| values := []; current := ""; inQuotes := false; skipNext := false |}.

(** [Array.from(line)] is the list of the characters of the line. *)
Definition parseCsvLine (line : string) : list string :=
  let finalState := reduce (list_ascii_of_string line) initial in
  values (appendValue finalState).

End Parser.

(** *** The records of a file *)

Inductive IteratorResult :=
| finished
| record (value : gmap string string)
| rejected (error : AppError).

Section Iterator.
Context {trimming : Trimming}.
(** [line.replace(/^\uFEFF/, "")] *)
Variable stripBom : string -> string.

Definition rowError (headers values : list string) (line : string) : AppError :=
  createParseError
    {| arg_code := CSV_PARSE_ERROR;
       arg_message := "Row length does not match header length";
       arg_cause := None;
       arg_details :=
         Some [("headers"%string, JNumber (Z.of_nat (length headers)));
               ("values"%string, JNumber (Z.of_nat (length values)));
               ("line"%string, JString line)] |}.

(** [headers.reduce((acc, header, index) => ..., {})]: a header whose name
    is empty is left out and a name that comes again overwrites.  The
    lengths are equal where this is called, so [values[index]] is there. *)
Definition toRecord (headers values : list string) : gmap string string :=
  fold_left
    (fun acc item =>
       let key := trim (snd item) in
       if (String.length key =? 0)%nat then acc
       else match values !! fst item with
            | Some value => <[key := value]> acc
            | None => acc
            end)
    (imap (fun index header => (index, header)) headers) ∅.

(** [nextRecord] and [processLine] on the lines that [readline] still has
    to deliver; [headers] is the variable of that name.  The result comes
    with the lines and the headers the call leaves. *)
Fixpoint nextRecord (lines : list string) (headers : option (list string))
  : IteratorResult * list string * option (list string) :=
  match lines with
  | [] => (finished, [], headers)
  | value :: rest =>
      let line := trim value in
      if (String.length line =? 0)%nat then nextRecord rest headers
      else match headers with
           | None => nextRecord rest (Some (parseCsvLine (stripBom line)))
           | Some names =>
               let values := parseCsvLine line in
               if negb (length values =? length names)%nat
               then (rejected (rowError names values line), rest, headers)
               else (record (toRecord names values), rest, headers)
           end
  end.

(** What a consumer gets that calls [next] until the iterator is done;
    [fuel] bounds the calls. *)
Fixpoint readAll (fuel : nat) (lines : list string)
    (headers : option (list string))
  : list (Result (gmap string string) AppError) :=
  match fuel with
  | O => []
  | S fuel' =>
      match nextRecord lines headers with
      | (finished, _, _) => []
      | (record value, rest, names) => Ok value :: readAll fuel' rest names
      | (rejected error, rest, names) => Err error :: readAll fuel' rest names
      end
  end.

(** Every call consumes a line, so the lines bound the calls. *)
Definition records (lines : list string)
  : list (Result (gmap string string) AppError) :=
  readAll (length lines) lines None.

End Iterator.

(** [String.prototype.trim] on ASCII text: of the characters below 128 it
    removes the space, the tab (9), the line feed (10), the vertical tab
    (11), the form feed (12) and the carriage return (13). *)
Definition blank (char : ascii) : bool :=
  Ascii.eqb char " " || Ascii.eqb char "009" || Ascii.eqb char "010"
  || Ascii.eqb char "011" || Ascii.eqb char "012" || Ascii.eqb char "013".

Fixpoint trimStart (s : string) : string :=
  match s with
  | String char rest => if blank char then trimStart rest else s
  | EmptyString => EmptyString
  end.

Fixpoint trimEnd (s : string) : string :=
  match s with
  | String char rest =>
      match trimEnd rest with
      | EmptyString => if blank char then EmptyString else String char EmptyString
      | kept => String char kept
      end
  | EmptyString => EmptyString
  end.

Definition AsciiTrimming : Trimming := {| trim := fun s => trimEnd (trimStart s) |}.

End Csv.

(** ** src/utils/result.ts *)

Module ResultUtils.

Record PartitionedResults (T E : Type) := mkPartitioned {
  successes : list T;
  failures : list E
}.

Arguments mkPartitioned {T E} successes failures.
Arguments successes {T E} p.
Arguments failures {T E} p.

Definition partitionResults {T E : Type} (results : list (Result T E))
  : PartitionedResults T E :=
  fold_left
    (fun acc current =>
       match current with
       | Ok value =>
           {| successes := successes acc ++ [value]; failures := failures acc |}
       | Err error =>
           {| successes := successes acc; failures := failures acc ++ [error] |}
       end)
    results {| successes := []; failures := [] |}.

End ResultUtils.

(** ** Concrete inputs for the examples *)

Module Fixtures.
Import Errors Retry Models Repo Pipeline.

(** A repository write that always fails, tried three times; the state
    counts the invocations. *)
Definition alwaysFailing (attempt : Z) (calls : nat) : Result unit AppError * nat :=
  (Err (createRepoError
          {| arg_code := REPO_WRITE_FAILED; arg_message := "still failing";
             arg_cause := None; arg_details := Some [("attempt"%string, JNumber attempt)] |}),
   Datatypes.S calls).

Definition threeAttempts : RetryOptions :=
  {| maxAttempts := 3; baseDelayMs := 1; maxDelayMs := 2; factor := 2 |}.

Definition noAttempts : RetryOptions :=
  {| maxAttempts := 0; baseDelayMs := 1; maxDelayMs := 2; factor := 2 |}.

Definition grace : User :=
  {| id := "user-123"; name := "Grace Hopper"; email := "Grace@Example.com";
     age := 50; updatedAt := 1704067200000 |}.

Definition ada : User :=
  {| id := "1"; name := "Ada Lovelace"; email := "ada@example.com";
     age := 36; updatedAt := 1704067200000 |}.

Definition alan : User :=
  {| id := "2"; name := "Alan Turing"; email := "alan@example.com";
     age := 41; updatedAt := 1704153600000 |}.

Definition emptyRepo (ttl : Z) : MemoryUserRepository :=
  {| byId := ∅; byEmail := ∅; idempotency := ∅; idempotencyTtlMs := ttl |}.

(** A repository in which the key ["k"] has an entry that expires at 100 and
    has the member ["a"]; the TTL is 1000. *)
Definition liveRepo : MemoryUserRepository :=
  {| byId := ∅; byEmail := ∅;
     idempotency := {[ "k"%string := {| expiresAt := 100; userIds := {[ "a"%string ]} |} ]};
     idempotencyTtlMs := 1000 |}.

(** The options of a batch with the executor of the container; the key is
    ["batch-1"]. *)
Definition batchOptions (stopAtFailure : bool) : BulkUpsertOptions :=
  {| Repo.bulkIdempotencyKey := Some "batch-1"%string;
     Repo.retry := retryExecutor threeAttempts;
     Repo.failFast := stopAtFailure |}.

(** The sequential chain calls [upsert] for its first user while
    [bulkUpsert] runs; the tasks of [n] users follow in their order, and
    then the sequential chain goes on. *)
Definition firstThenTasks (n : nat) : list Turn :=
  turnSequential :: map turnTask (seq 0 n) ++ replicate n turnSequential.

Definition startOfDay : World :=
  {| store := emptyRepo 60000; reads := 0 |}.

Definition everySecond (k : nat) : Z := 1000 * Z.of_nat k.

(** A repository that stores [ada], the incoming version of her record with
    a given time stamp, and a user with a disposable address. *)
Definition storedAda : MemoryUserRepository :=
  {| byId := {[ "1"%string := ada ]};
     byEmail := {[ "ada@example.com"%string := "1"%string ]};
     idempotency := ∅; idempotencyTtlMs := 60000 |}.

Definition adaAt (ms : Z) : User :=
  {| id := "1"; name := "Ada Lovelace"; email := "ada@example.com";
     age := 36; updatedAt := ms |}.

Definition throwaway : User :=
  {| id := "1"; name := "Ada Lovelace"; email := "ada@Mailinator.com";
     age := 36; updatedAt := 1 |}.

Definition overAda : Policies.PolicyDependencies :=
  {| Policies.repo := Policies.readsOf (ops := AsciiStrings) storedAda;
     Policies.isDisposableDomain := None |}.

Definition withEmail (i e : string) : User :=
  {| id := i; name := "n"; email := e; age := 30; updatedAt := 0 |}.

Definition threeMails : list User :=
  [withEmail "1" "a@x.com"; withEmail "2" "b@x.com"; withEmail "3" "c@y.com"].

(** Three rows of a CSV file and what the validator makes of them: the
    first is valid and has a disposable address, the second has no valid
    address, the third is the row of [ada].  [validateRows] is the validator
    on these rows. *)
Definition disposableRow : RawUser :=
  {| raw_id := Some "7"%string; raw_name := Some "Tim"%string;
     raw_email := Some "tim@mailinator.com"%string; raw_age := Some "36"%string;
     raw_updatedAt := Some "2024-01-01T00:00:00.000Z"%string |}.

Definition brokenRow : RawUser :=
  {| raw_id := Some "8"%string; raw_name := Some "Ann"%string;
     raw_email := Some "not-an-email"%string; raw_age := Some "36"%string;
     raw_updatedAt := Some "2024-01-01T00:00:00.000Z"%string |}.

Definition adaRow : RawUser :=
  {| raw_id := Some "1"%string; raw_name := Some "Ada Lovelace"%string;
     raw_email := Some "ada@example.com"%string; raw_age := Some "36"%string;
     raw_updatedAt := Some "2024-01-01T00:00:00.000Z"%string |}.

Definition tim : User :=
  {| id := "7"; name := "Tim"; email := "tim@mailinator.com"; age := 36;
     updatedAt := 1704067200000 |}.

Definition validationFailed : AppError :=
  createValidationError
    {| arg_code := VALIDATION_FAILED; arg_message := "User validation failed";
       arg_cause := None;
       arg_details := Some [("issues"%string,
                             JRecord [("email"%string, "invalid email format"%string)])] |}.

Definition validateRows (raw : RawUser) : Result User AppError :=
  match raw_email raw with
  | Some "tim@mailinator.com"%string => Ok tim
  | Some "ada@example.com"%string => Ok ada
  | _ => Err validationFailed
  end.

(** A formatter that writes the title only. *)
Definition plainReport (input : ReportInput) : string := "Import Summary".

Definition bestEffort : PipelineDeps :=
  {| config := {| configFailFast := false; bulkFailFast := true |};
     Pipeline.retry := retryExecutor threeAttempts |}.

Definition rows (records : list RawUser) (stopEarly : option bool) : PipelineInput :=
  {| source := Ok (map Ok records);
     Pipeline.idempotencyKey := Some "batch-1"%string;
     Pipeline.failFast := stopEarly |}.

Definition runRows (records : list RawUser) (stopEarly : option bool)
  : option (Result PipelineOutput AppError * World) :=
  runPipeline (ops := AsciiStrings) validateRows plainReport everySecond
    (rows records stopEarly) bestEffort (firstThenTasks (length records))
    startOfDay.

(** The operation of the retry test: it fails at its first invocation and
    succeeds from the second on; the state counts the invocations. *)
Definition failsOnce (attempt : Z) (calls : nat) : Result string AppError * nat :=
  (match calls with
   | O => Err (createRepoError
                 {| arg_code := REPO_WRITE_FAILED; arg_message := "boom";
                    arg_cause := None; arg_details := None |})
   | _ => Ok "ok"%string
   end,
   Datatypes.S calls).

(** [ada] again under another id, with the name and the address in other
    letter cases. *)
Definition adaTwin : User :=
  {| id := "9"; name := "ADA LOVELACE"; email := "Ada@Example.com";
     age := 36; updatedAt := 1704067200000 |}.


End Fixtures.

(** * Properties *)

(** ** The retry executor *)

Module RetryFacts.
Import Errors Retry Fixtures.

Section ExecutorFacts.
Context {S T : Type}.
Variable options : RetryOptions.
Variable operation : Z -> S -> Result T AppError * S.
Variable context : option RetryContext.

Lemma invocations_app (l1 l2 : list Effect) :
  invocations (l1 ++ l2) = invocations l1 ++ invocations l2.
Proof. unfold invocations. apply omap_app. Qed.

(** Enough fuel: the executor returns, whatever the operation does. *)
Lemma execute_total (fuel : nat) :
  forall attempt lastError s,
    (Z.to_nat (maxAttempts options + 1 - attempt) <= fuel)%nat ->
    exists run, execute options operation context fuel attempt lastError s = Some run.
Proof.
  induction fuel as [|fuel IH]; intros attempt lastError s Hfuel; simpl.
  - rewrite Z.gtb_ltb; destruct (Z.ltb_spec (maxAttempts options) attempt); [eauto | lia].
  - rewrite Z.gtb_ltb; destruct (Z.ltb_spec (maxAttempts options) attempt); [eauto |].
    destruct (operation attempt s) as [[value|error] s']; [eauto |].
    unfold fail.
    rewrite Z.geb_leb; destruct (Z.leb_spec (maxAttempts options) attempt);
      [simpl; eauto |].
    destruct (IH (attempt + 1) (Some error) s') as [[[r s''] rest] ->]; [lia |].
    simpl. eauto.
Qed.

(** An attempt within the bound invokes the operation first. *)
Lemma execute_invokes_first (fuel : nat) attempt lastError s r s' effects :
  attempt <= maxAttempts options ->
  execute options operation context fuel attempt lastError s = Some (r, s', effects) ->
  exists rest, effects = Invoked attempt :: rest.
Proof.
  intros Hle. destruct fuel as [|fuel]; simpl.
  - rewrite Z.gtb_ltb; destruct (Z.ltb_spec (maxAttempts options) attempt); [lia | discriminate].
  - rewrite Z.gtb_ltb; destruct (Z.ltb_spec (maxAttempts options) attempt); [lia |].
    destruct (operation attempt s) as [[value|error] s0].
    + intros [= <- <- <-]. eauto.
    + unfold fail. destruct (attempt >=? maxAttempts options); simpl.
      * intros [= <- <- <-]. eauto.
      * destruct (execute options operation context fuel (attempt + 1)
                    (Some error) s0) as [[[r0 s1] rest]|]; simpl;
          [intros [= <- <- <-]; eauto | discriminate].
Qed.

(** When every attempt fails, the attempts [attempt .. maxAttempts] are all
    made, and the run ends with what the last of them returned. *)
Lemma execute_all_fail (k : nat) :
  forall fuel attempt lastError s,
    (forall n st, isErr (fst (operation n st)) = true) ->
    attempt + Z.of_nat k = maxAttempts options ->
    (k < fuel)%nat ->
    exists effects,
      execute options operation context fuel attempt lastError s
      = Some (operation (maxAttempts options)
                (foldl (fun st n => snd (operation n st)) s
                       (seqZ attempt (Z.of_nat k))),
              effects)
      /\ invocations effects = seqZ attempt (Z.of_nat k + 1).
Proof.
  induction k as [|k IH]; intros fuel attempt lastError s Hfail Hk Hfuel;
    (destruct fuel as [|fuel]; [lia |]); simpl; unfold fail.
  - replace (maxAttempts options) with attempt by lia.
    rewrite Z.gtb_ltb, Z.ltb_irrefl. specialize (Hfail attempt s).
    destruct (operation attempt s) as [[value|error] s']; [discriminate |].
    rewrite Z.geb_leb, Z.leb_refl. eexists. split; [reflexivity |].
    reflexivity.
  - rewrite Z.gtb_ltb; destruct (Z.ltb_spec (maxAttempts options) attempt); [lia |].
    pose proof (Hfail attempt s) as Hnow.
    rewrite (seqZ_cons attempt (Z.of_nat (Datatypes.S k))) by lia. simpl.
    destruct (operation attempt s) as [[value|error] s']; [discriminate |].
    unfold fail.
    rewrite Z.geb_leb; destruct (Z.leb_spec (maxAttempts options) attempt); [lia |].
    destruct (IH fuel (attempt + 1) (Some error) s' Hfail) as (rest & -> & Hrest);
      [lia | lia |].
    simpl. eexists. split.
    + replace (Z.pred (Z.of_nat (Datatypes.S k))) with (Z.of_nat k) by lia.
      replace (Z.succ attempt) with (attempt + 1) by lia.
      destruct (operation (maxAttempts options) _); reflexivity.
    + simpl. rewrite Hrest.
      rewrite (seqZ_cons attempt (Z.of_nat (Datatypes.S k) + 1)) by lia.
      f_equal. f_equal; lia.
Qed.

(** The state a run leaves is the one its invocations leave, one after the
    other; a value it returns is the value its last invocation returned. *)
Lemma execute_trace (fuel : nat) :
  forall attempt lastError s r s' effects,
    execute options operation context fuel attempt lastError s
    = Some (r, s', effects) ->
    s' = foldl (fun st n => snd (operation n st)) s (invocations effects)
    /\ (forall value, r = Ok value ->
        exists before n,
          invocations effects = before ++ [n]
          /\ fst (operation n (foldl (fun st k => snd (operation k st)) s before))
             = Ok value).
Proof.
  induction fuel as [|fuel IH]; intros attempt lastError s r s' effects; simpl.
  - destruct (attempt >? maxAttempts options); [| discriminate].
    intros [= <- <- <-]. split; [reflexivity | discriminate].
  - destruct (attempt >? maxAttempts options).
    { intros [= <- <- <-]. split; [reflexivity | discriminate]. }
    destruct (operation attempt s) as [[value|error] s0] eqn:Hop.
    + intros [= <- <- <-].
      assert (Hinv : invocations (Invoked attempt
                        :: (if attempt >? 1 then [LogInfo context attempt] else []))
                     = [attempt]) by (destruct (attempt >? 1); reflexivity).
      rewrite Hinv. simpl. rewrite Hop. split; [reflexivity |].
      intros v [= <-]. exists [], attempt. simpl. rewrite Hop. auto.
    + unfold fail. destruct (attempt >=? maxAttempts options); simpl.
      * intros [= <- <- <-]. simpl. rewrite Hop. split; [reflexivity | discriminate].
      * destruct (execute options operation context fuel (attempt + 1)
                    (Some error) s0) as [[[r0 s1] rest]|] eqn:Hrest; simpl;
          [| discriminate].
        intros [= <- <- <-].
        destruct (IH _ _ _ _ _ _ Hrest) as (Hstate & Hvalue).
        change (invocations (Invoked attempt
                  :: LogWarn context attempt (code error) (type error)
                  :: awaitDelay attempt :: rest))
          with (attempt :: invocations rest).
        simpl. rewrite Hop. split; [exact Hstate |].
        intros v Hv. destruct (Hvalue v Hv) as (before & n & Hsplit & Hres).
        exists (attempt :: before), n. rewrite Hsplit. simpl. rewrite Hop. auto.
Qed.

End ExecutorFacts.

(** C2. With [maxAttempts >= 1] and an operation that fails at every attempt,
    the executor invokes the operation for the attempts [1 .. maxAttempts],
    each once and in this order, and returns exactly what the last of these
    invocations returned: its error and the state it left. *)
Theorem retry_exhausts_with_last_error {S T : Type}
    (options : RetryOptions)
    (operation : Z -> S -> Result T AppError * S)
    (context : option RetryContext) (s : S) :
  1 <= maxAttempts options ->
  (forall n st, isErr (fst (operation n st)) = true) ->
  exists error effects,
    createRetryExecutor options operation context s
    = Some (Err error,
            snd (operation (maxAttempts options)
                   (stateAfter operation (maxAttempts options - 1) s)),
            effects)
    /\ fst (operation (maxAttempts options)
              (stateAfter operation (maxAttempts options - 1) s)) = Err error
    /\ invocations effects = seqZ 1 (maxAttempts options)
    /\ Z.of_nat (length (invocations effects)) = maxAttempts options.
Proof.
  intros Hmax Hfail.
  destruct (execute_all_fail options operation context
              (Z.to_nat (maxAttempts options - 1))
              (Z.to_nat (maxAttempts options)) 1 None s Hfail)
    as (effects & Hrun & Hinv); [lia | lia |].
  rewrite Z2Nat.id in Hrun, Hinv by lia.
  replace (maxAttempts options - 1 + 1) with (maxAttempts options) in Hinv by lia.
  unfold createRetryExecutor, stateAfter. rewrite Hrun.
  pose proof (Hfail (maxAttempts options)
                (foldl (fun st n => snd (operation n st)) s
                   (seqZ 1 (maxAttempts options - 1)))) as Hlast.
  destruct (operation (maxAttempts options) _) as [[value|error] s']; [discriminate |].
  exists error, effects. repeat split; [exact Hinv |].
  rewrite Hinv, length_seqZ. lia.
Qed.

Lemma retry_exhausts_witness :
  exists error effects,
    createRetryExecutor threeAttempts alwaysFailing None 0%nat
    = Some (Err error,
            snd (alwaysFailing 3 (stateAfter alwaysFailing (3 - 1) 0%nat)),
            effects)
    /\ fst (alwaysFailing 3 (stateAfter alwaysFailing (3 - 1) 0%nat)) = Err error
    /\ invocations effects = seqZ 1 3
    /\ Z.of_nat (length (invocations effects)) = 3.
Proof.
  apply (retry_exhausts_with_last_error threeAttempts alwaysFailing None 0%nat).
  - simpl. lia.
  - intros n st. reflexivity.
Defined.

(** The run of the witness, computed: three invocations, the error of the
    third attempt, two sleeps. *)
Example retry_exhausts_run :
  createRetryExecutor threeAttempts alwaysFailing None 0%nat
  = Some (fst (alwaysFailing 3 2%nat), 3%nat,
          [Invoked 1; LogWarn None 1 REPO_WRITE_FAILED RepoError;
           Slept 1;
           Invoked 2; LogWarn None 2 REPO_WRITE_FAILED RepoError;
           Slept 2;
           Invoked 3; LogWarn None 3 REPO_WRITE_FAILED RepoError]).
Proof. reflexivity. Qed.

(** C10. The executor always returns.  It makes no invocation exactly when
    [maxAttempts <= 0]; in that case it leaves the state alone and returns
    the [UnknownError] that wraps [Error("Retry exceeded attempts")].  With
    [maxAttempts >= 1] the first thing it does is attempt 1. *)
Theorem retry_without_attempts {S T : Type}
    (options : RetryOptions)
    (operation : Z -> S -> Result T AppError * S)
    (context : option RetryContext) (s : S) :
  exists r s' effects,
    createRetryExecutor options operation context s = Some (r, s', effects)
    /\ (invocations effects = [] <-> maxAttempts options <= 0)
    /\ (maxAttempts options <= 0 ->
        r = Err exceeded /\ s' = s /\ effects = []
        /\ type exceeded = UnknownError
        /\ cause exceeded
           = Some (JRecord [("name"%string, "Error"%string);
                            ("message"%string, "Retry exceeded attempts"%string)]))
    /\ (1 <= maxAttempts options -> exists rest, effects = Invoked 1 :: rest).
Proof.
  destruct (execute_total options operation context
              (Z.to_nat (maxAttempts options)) 1 None s) as [[[r s'] effects] Hrun];
    [lia |].
  exists r, s', effects. unfold createRetryExecutor. split; [exact Hrun |].
  destruct (Z.le_gt_cases (maxAttempts options) 0) as [Hle|Hgt].
  - assert (Hnone : r = Err exceeded /\ s' = s /\ effects = []).
    { destruct (Z.to_nat (maxAttempts options)); simpl in Hrun;
        (rewrite Z.gtb_ltb in Hrun; destruct (Z.ltb_spec (maxAttempts options) 1); [| lia]);
        injection Hrun as <- <- <-; auto. }
    destruct Hnone as (-> & -> & ->).
    split; [split; [intros _; exact Hle | reflexivity] |].
    split; [intros _; repeat split; reflexivity | intros; lia].
  - destruct (execute_invokes_first options operation context
                (Z.to_nat (maxAttempts options)) 1 None s r s' effects)
      as [rest ->]; [lia | exact Hrun |].
    split; [split; [discriminate | lia] |].
    split; [lia | eauto].
Qed.

Lemma retry_without_attempts_witness :
  createRetryExecutor noAttempts alwaysFailing None 5%nat
  = Some (Err exceeded, 5%nat, []).
Proof.
  destruct (retry_without_attempts noAttempts alwaysFailing None 5%nat)
    as (r & s' & effects & Hrun & _ & Hzero & _).
  destruct Hzero as (-> & -> & -> & _); [simpl; lia |].
  exact Hrun.
Defined.

End RetryFacts.

(** ** The repository *)

Module RepoFacts.
Import Errors Models Repo Fixtures.

Section Repository.
Context {ops : StringOps}.

Lemma cloneUser_eq (user : User) : cloneUser user = user.
Proof. destruct user; reflexivity. Qed.

Lemma truthyString_true (key : string) : truthyString key = true <-> key <> ""%string.
Proof.
  unfold truthyString. destruct (String.eqb_spec key ""); simpl; split; congruence.
Qed.

Lemma presentKey_withKey (key : string) :
  presentKey (withKey key) = if truthyString key then Some key else None.
Proof. reflexivity. Qed.

Lemma active_live (e : IdempotencyEntry) (now : Z) :
  0 <= now -> active (Some e) now = (expiresAt e >? now).
Proof.
  intros Hnow. unfold active, truthyNumber.
  destruct (Z.eqb_spec (expiresAt e) 0) as [Hz|]; simpl; [| reflexivity].
  rewrite Hz, Z.gtb_ltb. symmetry. apply Z.ltb_ge. exact Hnow.
Qed.

Lemma persistIdempotency_maps (key userId : string) (now : Z)
    (repo : MemoryUserRepository) :
  byId (persistIdempotency key userId now repo) = byId repo
  /\ byEmail (persistIdempotency key userId now repo) = byEmail repo
  /\ idempotencyTtlMs (persistIdempotency key userId now repo) = idempotencyTtlMs repo.
Proof.
  unfold persistIdempotency.
  destruct (active _ now); [destruct (idempotency repo !! key) |]; auto.
Qed.

Lemma persistIdempotency_member (key userId : string) (now : Z)
    (repo : MemoryUserRepository) :
  exists e, idempotency (persistIdempotency key userId now repo) !! key = Some e
            /\ userId ∈ userIds e.
Proof.
  unfold persistIdempotency.
  destruct (active (idempotency repo !! key) now) eqn:Hactive.
  - destruct (idempotency repo !! key) as [e|] eqn:He; [| discriminate].
    eexists. simpl. rewrite lookup_insert_eq. split; [reflexivity |].
    simpl. set_solver.
  - eexists. simpl. rewrite lookup_insert_eq. split; [reflexivity |].
    simpl. set_solver.
Qed.

(** [persistIdempotency] leaves the two maps of users alone: rewrite them
    away wherever they are read behind it. *)
Ltac behind_registration :=
  match goal with
  | |- context [persistIdempotency ?key ?userId ?now ?repo] =>
      let Hid := fresh "Hid" in
      let Hmail := fresh "Hmail" in
      destruct (persistIdempotency_maps key userId now repo) as (Hid & Hmail & _);
      rewrite ?Hid, ?Hmail; clear Hid Hmail
  end.

(** A replay returns the stored user and does not touch the repository. *)
Lemma cached_stored (now : Z) (user : User) (options : option UpsertOptions)
    (repo : MemoryUserRepository) (c : User) :
  cached now user options repo = Some c -> byId repo !! id user = Some c.
Proof.
  unfold cached.
  destruct (presentKey options ≫= _) as [e|]; [| discriminate].
  destruct (truthyNumber (expiresAt e)); [| discriminate].
  destruct (_ && _); [auto | discriminate].
Qed.

Lemma cached_member (now : Z) (user : User) (key : string)
    (repo : MemoryUserRepository) (c : User) :
  cached now user (withKey key) repo = Some c ->
  exists e, idempotency repo !! key = Some e /\ id user ∈ userIds e.
Proof.
  unfold cached. rewrite presentKey_withKey.
  destruct (truthyString key); simpl; [| discriminate].
  destruct (idempotency repo !! key) as [e|]; [| discriminate].
  destruct (truthyNumber (expiresAt e)); [| discriminate].
  destruct (expiresAt e >? now); simpl; [| discriminate].
  case_bool_decide; [eauto | discriminate].
Qed.

Lemma cached_live (now : Z) (user : User) (key : string)
    (repo : MemoryUserRepository) (e : IdempotencyEntry) :
  truthyString key = true ->
  idempotency repo !! key = Some e ->
  0 <= now -> now < expiresAt e ->
  id user ∈ userIds e ->
  cached now user (withKey key) repo = byId repo !! id user.
Proof.
  intros Hkey He Hnow Hlive Hmember.
  unfold cached. rewrite presentKey_withKey, Hkey. simpl. rewrite He.
  unfold truthyNumber.
  destruct (Z.eqb_spec (expiresAt e) 0); [lia |]. simpl.
  rewrite Z.gtb_ltb. destruct (Z.ltb_spec now (expiresAt e)); [| lia]. simpl.
  rewrite bool_decide_eq_true_2 by exact Hmember. reflexivity.
Qed.

(** Whichever path it takes, [upsert] returns the user that is stored under
    the id when it is done. *)
Lemma upsert_returns_stored (now : Z) (user : User)
    (options : option UpsertOptions) (repo : MemoryUserRepository) :
  exists stored,
    fst (upsert now user options repo) = Ok stored
    /\ byId (snd (upsert now user options repo)) !! id user = Some stored.
Proof.
  unfold upsert.
  destruct (cached now user options repo) as [c|] eqn:Hc.
  - exists c. simpl. rewrite cloneUser_eq. split; [reflexivity |].
    eapply cached_stored; eauto.
  - unfold persistFresh. simpl. eexists. split; [reflexivity |].
    destruct (presentKey options) as [key|].
    + behind_registration. simpl. rewrite lookup_insert_eq. reflexivity.
    + simpl. rewrite lookup_insert_eq. reflexivity.
Qed.

(** The ids of the repository only grow. *)
Lemma upsert_dom (now : Z) (user : User)
    (options : option UpsertOptions) (repo : MemoryUserRepository) :
  dom (byId (snd (upsert now user options repo))) = dom (byId repo) ∪ {[id user]}.
Proof.
  unfold upsert.
  destruct (cached now user options repo) as [c|] eqn:Hc.
  - simpl. apply cached_stored in Hc.
    rewrite (comm_L (∪)). symmetry. apply subseteq_union_1_L.
    apply singleton_subseteq_l, elem_of_dom. eauto.
  - unfold persistFresh. simpl.
    destruct (presentKey options) as [key|].
    + behind_registration. simpl. rewrite dom_insert_L. apply (comm_L (∪)).
    + simpl. rewrite dom_insert_L. apply (comm_L (∪)).
Qed.

(** After an upsert under a non-empty key the id is a member of the key's
    entry. *)
Lemma upsert_member (now : Z) (user : User) (key : string)
    (repo : MemoryUserRepository) :
  truthyString key = true ->
  exists e, idempotency (snd (upsert now user (withKey key) repo)) !! key = Some e
            /\ id user ∈ userIds e.
Proof.
  intros Hkey. unfold upsert.
  destruct (cached now user (withKey key) repo) as [c|] eqn:Hc.
  - simpl. eapply cached_member; eauto.
  - unfold persistFresh. rewrite presentKey_withKey, Hkey. simpl.
    apply persistIdempotency_member.
Qed.

(** Without a (truthy) key an upsert writes, and writing the same user again
    writes the same values. *)
Lemma upsert_without_key_twice (now1 now2 : Z) (user : User) (key : string)
    (repo : MemoryUserRepository) :
  truthyString key = false ->
  snd (upsert now2 user (withKey key) (snd (upsert now1 user (withKey key) repo)))
  = snd (upsert now1 user (withKey key) repo).
Proof.
  intros Hkey.
  assert (Hnone : forall now r, cached now user (withKey key) r = None).
  { intros now r. unfold cached. rewrite presentKey_withKey, Hkey. reflexivity. }
  unfold upsert. rewrite !Hnone.
  unfold persistFresh. rewrite presentKey_withKey, Hkey. simpl.
  rewrite !insert_insert_eq. reflexivity.
Qed.

(** C1. Upsert a user twice under the same key, the second time while the
    key's entry is still live (its [expiresAt] lies after the time of the
    second call).  The second call leaves the whole repository as the first
    left it, returns the user stored under the id, and [findById] gives that
    same user before and after it; the two calls together add at most the
    one id. *)
Theorem upsert_replay_is_noop (now1 now2 : Z) (user : User) (key : string)
    (repo : MemoryUserRepository) :
  let first := upsert now1 user (withKey key) repo in
  let second := upsert now2 user (withKey key) (snd first) in
  0 <= now2 ->
  (exists e, idempotency (snd first) !! key = Some e /\ now2 < expiresAt e) ->
  snd second = snd first
  /\ (exists stored,
        byId (snd first) !! id user = Some stored
        /\ fst second = Ok stored
        /\ findById (snd first) (id user) = Ok (Some stored)
        /\ findById (snd second) (id user) = Ok (Some stored))
  /\ dom (byId (snd second)) = dom (byId repo) ∪ {[id user]}.
Proof.
  intros first second Hnow (e & He & Hlive).
  destruct (upsert_returns_stored now1 user (withKey key) repo)
    as (stored & _ & Hstored). fold first in Hstored.
  assert (Hsame : snd second = snd first /\ fst second = Ok stored).
  { destruct (truthyString key) eqn:Hkey.
    - destruct (upsert_member now1 user key repo Hkey) as (e' & He' & Hmember).
      fold first in He'. rewrite He in He'. injection He' as <-.
      subst second. unfold upsert at 1 2.
      rewrite (cached_live now2 user key (snd first) e Hkey He Hnow Hlive Hmember).
      rewrite Hstored. simpl. rewrite cloneUser_eq. auto.
    - pose proof (upsert_without_key_twice now1 now2 user key repo Hkey) as Htwice.
      fold first in Htwice. fold second in Htwice.
      split; [exact Htwice |].
      destruct (upsert_returns_stored now2 user (withKey key) (snd first))
        as (again & Hres & Hagain). fold second in Hres, Hagain.
      rewrite Htwice in Hagain. congruence. }
  destruct Hsame as (Hrepo & Hres). rewrite Hrepo.
  split; [reflexivity |]. split.
  - exists stored. unfold findById. rewrite Hstored. simpl. rewrite cloneUser_eq.
    auto.
  - apply upsert_dom.
Qed.

(** What a write stores does not depend on the repository or the time. *)
Lemma persistFresh_maps (now : Z) (user : User) (options : option UpsertOptions)
    (repo : MemoryUserRepository) :
  fst (persistFresh now user options repo)
  = {| id := id user; name := name user; email := toLowerCase (email user);
       age := age user; updatedAt := updatedAt user |}
  /\ byId (snd (persistFresh now user options repo))
     = <[id user := fst (persistFresh now user options repo)]> (byId repo)
  /\ byEmail (snd (persistFresh now user options repo))
     = <[toLowerCase (email user) := id user]> (byEmail repo).
Proof.
  unfold persistFresh. simpl. split; [reflexivity |].
  destruct (presentKey options) as [key|]; [| split; reflexivity].
  behind_registration. split; reflexivity.
Qed.

(** When the first call wrote, the second never changes the two maps, live
    entry or not: it replays or it writes the same values again. *)
Lemma upsert_again_same_maps (now1 now2 : Z) (user : User) (key : string)
    (repo : MemoryUserRepository) :
  cached now1 user (withKey key) repo = None ->
  byId (snd (upsert now2 user (withKey key) (snd (upsert now1 user (withKey key) repo))))
  = byId (snd (upsert now1 user (withKey key) repo))
  /\ byEmail (snd (upsert now2 user (withKey key)
                    (snd (upsert now1 user (withKey key) repo))))
     = byEmail (snd (upsert now1 user (withKey key) repo)).
Proof.
  intros Hfresh.
  assert (Hfirst : snd (upsert now1 user (withKey key) repo)
                   = snd (persistFresh now1 user (withKey key) repo)).
  { unfold upsert. rewrite Hfresh.
    destruct (persistFresh now1 user (withKey key) repo). reflexivity. }
  rewrite Hfirst.
  destruct (persistFresh_maps now1 user (withKey key) repo) as (Hv1 & Hid1 & Hmail1).
  set (s1 := snd (persistFresh now1 user (withKey key) repo)) in *.
  unfold upsert. destruct (cached now2 user (withKey key) s1); [auto |].
  destruct (persistFresh_maps now2 user (withKey key) s1) as (Hv2 & Hid2 & Hmail2).
  destruct (persistFresh now2 user (withKey key) s1) as [stored s2]. simpl in *.
  rewrite Hid2, Hmail2, Hid1, Hmail1, Hv1, Hv2, !insert_insert_eq. auto.
Qed.

(** When the key had no live entry at the first call, the entry the first
    call creates expires [idempotencyTtlMs] after it: the second call is
    within the window exactly when less than the TTL has passed. *)
Lemma fresh_key_window (now1 now2 : Z) (user : User) (key : string)
    (repo : MemoryUserRepository) :
  truthyString key = true ->
  active (idempotency repo !! key) now1 = false ->
  exists e,
    idempotency (snd (upsert now1 user (withKey key) repo)) !! key = Some e
    /\ expiresAt e = now1 + idempotencyTtlMs repo
    /\ userIds e = {[id user]}.
Proof.
  intros Hkey Hdead.
  assert (Hnone : cached now1 user (withKey key) repo = None).
  { unfold cached. rewrite presentKey_withKey, Hkey. simpl.
    unfold active in Hdead. destruct (idempotency repo !! key) as [e|]; [| reflexivity].
    destruct (truthyNumber (expiresAt e)); [| reflexivity].
    rewrite Hdead. reflexivity. }
  unfold upsert. rewrite Hnone. unfold persistFresh.
  rewrite presentKey_withKey, Hkey. simpl.
  unfold persistIdempotency. simpl. rewrite Hdead. simpl.
  rewrite lookup_insert_eq. eauto.
Qed.

(** C6, as the code has it.  A non-replay upsert under a non-empty key at a
    time [now >= 0] registers the id under the key: when the key has no
    entry, or one that has expired ([expiresAt <= now]), the entry becomes a
    fresh one with [expiresAt = now + ttl] and this id alone; when the key
    has a live entry, the id joins its members and its [expiresAt] stays as
    it was. *)
Theorem upsert_registers_id (now : Z) (user : User) (key : string)
    (repo : MemoryUserRepository) :
  key <> ""%string ->
  0 <= now ->
  cached now user (withKey key) repo = None ->
  idempotency (snd (upsert now user (withKey key) repo)) !! key
  = Some match idempotency repo !! key with
         | Some e =>
             if expiresAt e >? now
             then {| expiresAt := expiresAt e; userIds := userIds e ∪ {[id user]} |}
             else {| expiresAt := now + idempotencyTtlMs repo;
                     userIds := {[id user]} |}
         | None => {| expiresAt := now + idempotencyTtlMs repo;
                      userIds := {[id user]} |}
         end.
Proof.
  intros Hkey Hnow Hfresh. apply truthyString_true in Hkey.
  unfold upsert. rewrite Hfresh. unfold persistFresh.
  rewrite presentKey_withKey, Hkey. simpl.
  unfold persistIdempotency. simpl.
  destruct (idempotency repo !! key) as [e|] eqn:He.
  - rewrite (active_live e now Hnow).
    destruct (expiresAt e >? now); simpl; rewrite lookup_insert_eq; reflexivity.
  - simpl. rewrite lookup_insert_eq. reflexivity.
Qed.

End Repository.

(** *** [upsert] on concrete repositories *)

Lemma upsert_replay_witness :
  snd (upsert (ops := AsciiStrings) 2000 grace (withKey "batch-1")
         (snd (upsert (ops := AsciiStrings) 1000 grace (withKey "batch-1")
                 (emptyRepo 60000))))
  = snd (upsert (ops := AsciiStrings) 1000 grace (withKey "batch-1") (emptyRepo 60000))
  /\ fst (upsert (ops := AsciiStrings) 2000 grace (withKey "batch-1")
            (snd (upsert (ops := AsciiStrings) 1000 grace (withKey "batch-1")
                    (emptyRepo 60000))))
     = Ok {| id := "user-123"; name := "Grace Hopper"; email := "grace@example.com";
             age := 50; updatedAt := 1704067200000 |}.
Proof.
  destruct (upsert_replay_is_noop (ops := AsciiStrings) 1000 2000 grace "batch-1"
              (emptyRepo 60000)) as (Hsame & (stored & Hstored & Hres & _) & _).
  - lia.
  - eexists. split; [vm_compute; reflexivity | simpl; lia].
  - split; [exact Hsame |]. rewrite Hres. f_equal.
    vm_compute in Hstored. congruence.
Defined.

(** The claim C6 fails where the key has a live entry: the entry keeps its
    [expiresAt] of 100 although [now + ttl] is 1050. *)
Lemma live_entry_keeps_expiry :
  cached 50 ada (withKey "k") liveRepo = None
  /\ expiresAt <$> (idempotency
                      (snd (upsert (ops := AsciiStrings) 50 ada (withKey "k") liveRepo))
                    !! "k"%string) = Some 100
  /\ 50 + idempotencyTtlMs liveRepo = 1050
  /\ 100 <> 50 + idempotencyTtlMs liveRepo.
Proof.
  split; [vm_compute; reflexivity |].
  split; [vm_compute; reflexivity |].
  split; [reflexivity | simpl; lia].
Qed.

Lemma upsert_registers_witness :
  idempotency (snd (upsert (ops := AsciiStrings) 50 ada (withKey "k") liveRepo))
  !! "k"%string
  = Some {| expiresAt := 100; userIds := {[ "a"%string ]} ∪ {[ "1"%string ]} |}.
Proof.
  rewrite (upsert_registers_id (ops := AsciiStrings) 50 ada "k" liveRepo).
  - reflexivity.
  - discriminate.
  - lia.
  - vm_compute; reflexivity.
Defined.


End RepoFacts.

(** ** The policies *)

Module PolicyFacts.
Import Errors Models Policies Fixtures.

Section Evaluation.
Context {ops : StringOps}.

(** C4. For a user whose domain is not disposable and whose id the
    repository finds: an incoming [updatedAt] that is not after the stored
    one is skipped as a stale update, a strictly later one is accepted. *)
Theorem stale_update_tie_break (user matched : User) (deps : PolicyDependencies) :
  isDisposable (domainOf user) (isDisposableDomain deps) = false ->
  findById (repo deps) (id user) = Ok (Some matched) ->
  (updatedAt user <= updatedAt matched ->
   fst (evaluatePolicies user deps) = Ok (skip user (staleError matched user))
   /\ code (staleError matched user) = POLICY_STALE_UPDATE)
  /\ (updatedAt matched < updatedAt user ->
      fst (evaluatePolicies user deps) = Ok (accept user)).
Proof.
  intros Hkeep Hfound. unfold evaluatePolicies. rewrite Hkeep.
  unfold resolveById. rewrite Hfound. simpl. split.
  - intros Hold. rewrite Z.geb_leb.
    destruct (Z.leb_spec (updatedAt user) (updatedAt matched)); [| lia].
    split; reflexivity.
  - intros Hnew. rewrite Z.geb_leb.
    destruct (Z.leb_spec (updatedAt user) (updatedAt matched)); [lia |].
    reflexivity.
Qed.

(** C5. A user with a disposable domain is skipped for that reason whatever
    the repository holds, and the evaluation makes no lookup. *)
Theorem disposable_checked_first (user : User) (deps : PolicyDependencies) :
  isDisposable (domainOf user) (isDisposableDomain deps) = true ->
  evaluatePolicies user deps
  = (Ok (skip user (disposableError (domainOf user))), [])
  /\ code (disposableError (domainOf user)) = POLICY_DISPOSABLE_EMAIL
  /\ forall reads : RepoReads,
       evaluatePolicies user {| repo := reads;
                                isDisposableDomain := isDisposableDomain deps |}
       = evaluatePolicies user deps.
Proof.
  intros Hdrop.
  assert (Hany : forall reads,
             evaluatePolicies user {| repo := reads;
                                      isDisposableDomain := isDisposableDomain deps |}
             = (Ok (skip user (disposableError (domainOf user))), [])).
  { intros reads. unfold evaluatePolicies. simpl. rewrite Hdrop. reflexivity. }
  split; [| split; [reflexivity |]].
  - destruct deps as [reads custom]. apply Hany.
  - intros reads. rewrite Hany. destruct deps as [reads' custom]. symmetry. apply Hany.
Qed.

End Evaluation.

Lemma stale_update_witness :
  fst (evaluatePolicies (ops := AsciiStrings) (adaAt 1704067200000) overAda)
  = Ok (skip (adaAt 1704067200000) (staleError ada (adaAt 1704067200000)))
  /\ fst (evaluatePolicies (ops := AsciiStrings) (adaAt 1704067200001) overAda)
     = Ok (accept (adaAt 1704067200001)).
Proof.
  split.
  - apply (stale_update_tie_break (ops := AsciiStrings) (adaAt 1704067200000) ada overAda).
    + vm_compute; reflexivity.
    + vm_compute; reflexivity.
    + simpl; lia.
  - apply (stale_update_tie_break (ops := AsciiStrings) (adaAt 1704067200001) ada overAda).
    + vm_compute; reflexivity.
    + vm_compute; reflexivity.
    + simpl; lia.
Defined.

(** The stored record is newer than [throwaway], yet the reason is the
    disposable domain; the domain is compared in lower case. *)
Lemma disposable_witness :
  evaluatePolicies (ops := AsciiStrings) throwaway overAda
  = (Ok (skip throwaway (disposableError "Mailinator.com")), [])
  /\ updatedAt throwaway <= updatedAt ada
  /\ Repo.byId storedAda !! id throwaway = Some ada.
Proof.
  split; [| split; [simpl; lia | vm_compute; reflexivity]].
  apply (disposable_checked_first (ops := AsciiStrings) throwaway overAda).
  vm_compute; reflexivity.
Defined.

End PolicyFacts.

(** ** The report *)

Module ReportFacts.
Import Models Report Fixtures.

Example topDomains_sample :
  topDomains threeMails defaultLimit
  = [ {| domain := "x.com"; count := 2 |}; {| domain := "y.com"; count := 1 |} ].
Proof. reflexivity. Qed.

Example topDomains_tie :
  topDomains [withEmail "1" "a@y.com"; withEmail "2" "b@x.com";
              withEmail "3" "c@z.com"; withEmail "4" "d@z.com";
              withEmail "5" "nodomain"] defaultLimit
  = [ {| domain := "z.com"; count := 2 |}; {| domain := "y.com"; count := 1 |};
      {| domain := "x.com"; count := 1 |}; {| domain := "unknown"; count := 1 |} ].
Proof. reflexivity. Qed.

(** *** The stable sort *)

Section StableSort.
Context {A : Type}.
Variable score : A -> Z.
Variable pos : A -> nat.

Lemma place_Forall (P : A -> Prop) (compare : A -> A -> Z) (x : A) (l : list A) :
  P x -> Forall P l -> Forall P (place compare x l).
Proof.
  intros Hx Hl. induction Hl as [|y rest Hy Hrest IH]; simpl.
  - constructor; [exact Hx | constructor].
  - destruct (compare x y <=? 0); repeat constructor; assumption.
Qed.

Lemma sortStable_Forall (P : A -> Prop) (compare : A -> A -> Z) (l : list A) :
  Forall P l -> Forall P (sortStable compare l).
Proof.
  induction 1 as [|x rest Hx Hrest IH]; simpl; [constructor |].
  apply place_Forall; assumption.
Qed.

(** Placing an element that came before all the others keeps the order:
    it stays in front of the elements of the same score. *)
Lemma place_inOrder (x : A) (l : list A) :
  StronglySorted (inOrder score pos) l ->
  Forall (fun b => (pos x < pos b)%nat) l ->
  StronglySorted (inOrder score pos) (place (descending score) x l).
Proof.
  induction 1 as [|y rest Hrest IH Hy]; intros Hpos; simpl.
  - repeat constructor.
  - apply Forall_cons in Hpos as (Hxy & Hpos). unfold descending at 1.
    destruct (Z.leb_spec (score y - score x) 0) as [Hle|Hgt].
    + constructor; [constructor; assumption |].
      constructor.
      * unfold inOrder. destruct (Z.eq_dec (score x) (score y)); [right | left]; lia.
      * rewrite Forall_forall in Hy, Hpos |- *. intros z Hz.
        specialize (Hy z Hz). specialize (Hpos z Hz).
        unfold inOrder in *.
        destruct (Z.eq_dec (score x) (score z)); [right; lia | left; lia].
    + constructor; [auto |].
      apply place_Forall; [left; lia | exact Hy].
Qed.

Lemma sortStable_inOrder (l : list A) :
  StronglySorted (fun a b => (pos a < pos b)%nat) l ->
  StronglySorted (inOrder score pos) (sortStable (descending score) l).
Proof.
  induction 1 as [|x rest Hrest IH Hx]; simpl; [constructor |].
  apply place_inOrder; [exact IH |].
  apply sortStable_Forall. exact Hx.
Qed.

End StableSort.

Lemma StronglySorted_take {A : Type} (R : relation A) (n : nat) (l : list A) :
  StronglySorted R l -> StronglySorted R (take n l).
Proof.
  intros Hl. rewrite <- (take_drop n l) in Hl.
  eapply StronglySorted_app_1_l; exact Hl.
Qed.

Lemma StronglySorted_keys {A B : Type} (f : A -> B) (R : relation B) (l : list A) :
  StronglySorted R (map f l) -> StronglySorted (fun a b => R (f a) (f b)) l.
Proof.
  induction l as [|x l IH]; simpl; intros Hl; [constructor |].
  apply StronglySorted_inv in Hl as (Hrest & Hx).
  constructor; [auto |]. exact (proj1 (List.Forall_map f (R (f x)) l) Hx).
Qed.

Lemma StronglySorted_map {A B : Type} (f : A -> B) (R1 : relation A)
    (R2 : relation B) (l : list A) :
  (forall x y, R1 x y -> R2 (f x) (f y)) ->
  StronglySorted R1 l -> StronglySorted R2 (map f l).
Proof.
  intros Hf. induction 1 as [|x rest Hrest IH Hx]; simpl; constructor; [exact IH |].
  apply List.Forall_map. eapply Forall_impl; [exact Hx |]. intros y. apply Hf.
Qed.

(** *** The map of counts *)

Lemma mapGet_mapSet (key' key : string) (value : Z) (m : list (string * Z)) :
  mapGet key' (mapSet key value m)
  = if String.eqb key key' then Some value else mapGet key' m.
Proof.
  induction m as [|[k v] rest IH]; simpl.
  - destruct (String.eqb key key'); reflexivity.
  - destruct (String.eqb_spec k key) as [->|Hk]; simpl.
    + destruct (String.eqb key key'); reflexivity.
    + rewrite IH. destruct (String.eqb_spec k key') as [->|Hk'];
        [| reflexivity].
      destruct (String.eqb_spec key key'); [congruence | reflexivity].
Qed.

Lemma mapSet_keys (key : string) (value : Z) (m : list (string * Z)) :
  map fst (mapSet key value m)
  = match mapGet key m with
    | Some _ => map fst m
    | None => map fst m ++ [key]
    end.
Proof.
  induction m as [|[k v] rest IH]; simpl; [reflexivity |].
  destruct (String.eqb k key); simpl; [reflexivity |].
  rewrite IH. destruct (mapGet key rest); reflexivity.
Qed.

Lemma mapGet_key (key : string) (m : list (string * Z)) :
  In key (map fst m) -> exists value, mapGet key m = Some value.
Proof.
  induction m as [|[k v] rest IH]; simpl; [contradiction |].
  intros [-> | Hin].
  - rewrite String.eqb_refl. eauto.
  - destruct (String.eqb k key); eauto.
Qed.

(** With keys that are pairwise distinct, every entry is the one [mapGet]
    finds. *)
Lemma mapGet_entry (R : relation string) (m : list (string * Z)) :
  Irreflexive R ->
  StronglySorted R (map fst m) ->
  forall entry, In entry m -> mapGet (fst entry) m = Some (snd entry).
Proof.
  intros Hirr. induction m as [|[k v] rest IH]; simpl; [contradiction |].
  intros Hsorted entry. apply StronglySorted_inv in Hsorted as (Hrest & Hk).
  intros [<- | Hin]; simpl.
  - rewrite String.eqb_refl. reflexivity.
  - destruct (String.eqb_spec k (fst entry)) as [->|Hne]; [| auto].
    exfalso. rewrite List.Forall_forall in Hk.
    apply (Hirr (fst entry)), Hk, in_map, Hin.
Qed.

(** *** Counting and first positions *)

Lemma occurrences_nonneg (d : string) (users : list User) : 0 <= occurrences d users.
Proof. unfold occurrences. lia. Qed.

Lemma occurrences_snoc (d : string) (seen : list User) (user : User) :
  occurrences d (seen ++ [user])
  = occurrences d seen + (if String.eqb (domainOf user) d then 1 else 0).
Proof.
  unfold occurrences. rewrite map_app, count_occ_app. simpl.
  destruct (string_dec (domainOf user) d) as [->|Hne].
  - rewrite String.eqb_refl. lia.
  - destruct (String.eqb_spec (domainOf user) d); [contradiction | lia].
Qed.

Lemma firstSeen_bound (d : string) (seen : list User) :
  (firstSeen d seen <= length seen)%nat
  /\ (0 < occurrences d seen -> (firstSeen d seen < length seen)%nat)
  /\ (occurrences d seen = 0 -> firstSeen d seen = length seen).
Proof.
  unfold occurrences. induction seen as [|user rest (IHle & IHlt & IHeq)]; simpl.
  - repeat split; lia.
  - destruct (string_dec (domainOf user) d) as [->|Hne].
    + rewrite String.eqb_refl. repeat split; lia.
    + destruct (String.eqb_spec (domainOf user) d); [contradiction |].
      repeat split; [lia | intros; apply IHlt in H; lia | intros; rewrite IHeq; lia].
Qed.

Lemma firstSeen_snoc (d : string) (seen : list User) (user : User) :
  0 < occurrences d seen ->
  firstSeen d (seen ++ [user]) = firstSeen d seen.
Proof.
  unfold occurrences. induction seen as [|first rest IH]; simpl; [lia |].
  destruct (string_dec (domainOf first) d) as [->|Hne].
  - rewrite String.eqb_refl. reflexivity.
  - destruct (String.eqb_spec (domainOf first) d); [contradiction |].
    intros Hpos. rewrite IH by exact Hpos. reflexivity.
Qed.

Lemma firstSeen_new (seen : list User) (user : User) :
  occurrences (domainOf user) seen = 0 ->
  firstSeen (domainOf user) (seen ++ [user]) = length seen.
Proof.
  unfold occurrences. induction seen as [|first rest IH]; simpl.
  - rewrite String.eqb_refl. reflexivity.
  - destruct (string_dec (domainOf first) (domainOf user)) as [Heq|Hne]; [lia |].
    destruct (String.eqb_spec (domainOf first) (domainOf user)); [contradiction |].
    intros Hzero. rewrite IH by exact Hzero. reflexivity.
Qed.

(** *** The entries the reducer builds *)

Lemma tallied_step (seen : list User) (m : list (string * Z)) (user : User) :
  tallied seen m -> tallied (seen ++ [user]) (countDomain m user).
Proof.
  intros (Hsorted & Hget). unfold countDomain.
  assert (Hold : Forall (fun d => 0 < occurrences d seen) (map fst m)).
  { apply List.Forall_forall. intros d Hd.
    destruct (mapGet_key d m Hd) as (c & Hc). rewrite Hget in Hc.
    pose proof (occurrences_nonneg d seen).
    destruct (Z.eqb_spec (occurrences d seen) 0); [discriminate | lia]. }
  assert (Hkeep : StronglySorted (seenBefore (seen ++ [user])) (map fst m)).
  { clear Hget. induction Hsorted as [|d rest Hrest IH Hd]; [constructor |].
    apply Forall_cons in Hold as (Hd0 & Hold).
    constructor; [auto |].
    rewrite List.Forall_forall in Hd, Hold |- *. intros d' Hd'.
    unfold seenBefore. rewrite !firstSeen_snoc by auto. apply Hd, Hd'. }
  split.
  - rewrite mapSet_keys, Hget.
    destruct (Z.eqb_spec (occurrences (domainOf user) seen) 0) as [Hnew|_];
      [| exact Hkeep].
    apply StronglySorted_app_2; [| exact Hkeep | repeat constructor].
    intros d1 d2 Hd1 Hd2. apply list_elem_of_singleton in Hd2 as ->.
    unfold seenBefore. rewrite firstSeen_new by exact Hnew.
    rewrite List.Forall_forall in Hold. apply list_elem_of_In in Hd1.
    rewrite firstSeen_snoc by auto.
    apply (firstSeen_bound d1 seen). auto.
  - intros d. rewrite mapGet_mapSet, occurrences_snoc, Hget.
    pose proof (occurrences_nonneg d seen) as Hd.
    destruct (String.eqb_spec (domainOf user) d) as [->|Hne].
    + destruct (Z.eqb_spec (occurrences d seen) 0) as [Hz|Hz]; simpl.
      * rewrite Hz. reflexivity.
      * destruct (Z.eqb_spec (occurrences d seen + 1) 0); [lia | reflexivity].
    + rewrite Z.add_0_r. apply Hget.
Qed.

Lemma tallied_users (users : list User) :
  tallied users (fold_left countDomain users []).
Proof.
  induction users as [|user users IH] using rev_ind.
  - split; [constructor | reflexivity].
  - rewrite fold_left_app. simpl. apply tallied_step, IH.
Qed.

Lemma seenBefore_irreflexive (seen : list User) : Irreflexive (seenBefore seen).
Proof. intros d. unfold complement, seenBefore. lia. Qed.

(** The sample of the three mails, in whatever order the users come. *)
Lemma topDomains_threeMails (users : list User) :
  users ≡ₚ threeMails ->
  topDomains users defaultLimit
  = [ {| domain := "x.com"; count := 2 |}; {| domain := "y.com"; count := 1 |} ].
Proof.
  intros Hperm. symmetry in Hperm. apply permutations_Permutation in Hperm.
  vm_compute in Hperm.
  repeat (apply elem_of_cons in Hperm as [-> | Hperm]; [reflexivity |]).
  apply elem_of_nil in Hperm. contradiction.
Qed.

(** C9. The entries of the domain distribution are in descending order of
    their counts, and entries of the same count are in the order in which
    their domains first occur among the users; every entry carries the
    number of users of its domain.  For users with the mails [a@x.com],
    [b@x.com], [c@y.com] the distribution is [x.com: 2], [y.com: 1]. *)
Theorem topDomains_order (users : list User) (limit : nat) :
  StronglySorted (ranksBefore users) (topDomains users limit)
  /\ Forall (fun entry => count entry = occurrences (domain entry) users
                          /\ 0 < count entry)
            (topDomains users limit)
  /\ forall batch,
       batch ≡ₚ threeMails ->
       topDomains batch defaultLimit
       = [ {| domain := "x.com"; count := 2 |}; {| domain := "y.com"; count := 1 |} ].
Proof.
  destruct (tallied_users users) as (Hsorted & Hget).
  unfold topDomains at 1 2. split; [| split; [| exact topDomains_threeMails]].
  - apply (StronglySorted_map _
             (inOrder snd (fun entry => firstSeen (fst entry) users)));
      [intros a b Hab; exact Hab |].
    apply StronglySorted_take.
    apply (sortStable_inOrder snd (fun entry => firstSeen (fst entry) users)).
    apply (StronglySorted_keys fst (seenBefore users)). exact Hsorted.
  - apply List.Forall_map, Forall_take, sortStable_Forall.
    apply List.Forall_forall. intros entry Hin. simpl.
    pose proof (mapGet_entry (seenBefore users) _
                  (seenBefore_irreflexive users) Hsorted entry Hin) as Hentry.
    rewrite Hget in Hentry.
    pose proof (occurrences_nonneg (fst entry) users).
    destruct (Z.eqb_spec (occurrences (fst entry) users) 0); [discriminate |].
    injection Hentry as Hentry. lia.
Qed.

End ReportFacts.

(** ** The exit code *)

Module CliFacts.
Import Errors Models Pipeline Cli Fixtures.

Lemma classifyExit_kind (errorsCount : Z) :
  classifyExit errorsCount = Some (if errorsCount >? 0 then partial else success).
Proof.
  unfold classifyExit. destruct (errorsCount >? 0); reflexivity.
Qed.

(** C8, as the code has it.  A run that completes exits with 0 when it
    gathered no error, whatever it skipped, and with 2 when it gathered at
    least one error; a run that fails (the arguments, the container or the
    pipeline returned an error) exits with 1. *)
Theorem exit_code_contract {Options Container : Type}
    (parsed : Result Options AppError)
    (created : Result Container AppError)
    (ran : Options -> Container -> Result PipelineOutput AppError) :
  (forall options container output,
      parsed = Ok options -> created = Ok container ->
      ran options container = Ok output ->
      (errors output = [] -> snd (main parsed created ran) = Some 0)
      /\ (errors output <> [] -> snd (main parsed created ran) = Some 2))
  /\ (forall options container error,
         parsed = Ok options -> created = Ok container ->
         ran options container = Err error ->
         snd (main parsed created ran) = Some 1)
  /\ (isErr parsed = true \/ isErr created = true ->
      snd (main parsed created ran) = Some 1).
Proof.
  split; [| split].
  - intros options container output -> -> Hran. unfold main, executePipeline.
    rewrite Hran, classifyExit_kind.
    destruct (errors output) as [|failure rest]; simpl.
    + split; [reflexivity | congruence].
    + split; [discriminate | intros _].
      destruct (Z.gtb_spec (Z.pos (Pos.of_succ_nat (length rest))) 0); [reflexivity | lia].
  - intros options container error -> -> Hran. unfold main, executePipeline.
    rewrite Hran. reflexivity.
  - destruct parsed as [options|error]; [| reflexivity].
    destruct created as [container|error]; [| reflexivity].
    intros [Hp | Hc]; discriminate.
Qed.

(** A row with a disposable address: the run completes, has skipped the
    row and gathered no error. *)
Example skipped_row_run :
  runRows [disposableRow] None
  = Some (Ok {| report := "Import Summary";
                stats := {| total := 1; validated := 1; persisted := 0;
                            skippedCount := 1; failed := 0 |};
                errors := [];
                skipped := [(tim, Policies.disposableError "mailinator.com")];
                successes := [] |},
          startOfDay).
Proof. vm_compute. reflexivity. Qed.

(** The claim C8 fails on that run: it has aggregated a policy skip, and the
    exit code is 0, not 2. *)
Lemma skipped_row_exits_zero :
  exists output,
    fst <$> runRows [disposableRow] None = Some (Ok output)
    /\ errors output = []
    /\ length (skipped output) = 1%nat
    /\ snd (main (Ok tt) (Ok tt) (fun _ _ => Ok output)) = Some 0.
Proof.
  eexists. rewrite skipped_row_run. simpl. repeat split.
Qed.

(** A broken row, in best-effort mode and in fail-fast mode. *)
Example broken_row_best_effort :
  exists output,
    fst <$> runRows [disposableRow; brokenRow] None = Some (Ok output)
    /\ length (errors output) = 1%nat
    /\ snd (main (Ok tt) (Ok tt) (fun _ _ => Ok output)) = Some 2.
Proof.
  eexists. split; [vm_compute; reflexivity |]. split; reflexivity.
Qed.

Example broken_row_fail_fast :
  fst <$> runRows [disposableRow; brokenRow] (Some true)
  = Some (Err validationFailed)
  /\ snd (main (Ok tt) (Ok tt)
            (fun _ _ => @Err PipelineOutput _ validationFailed)) = Some 1.
Proof. split; [vm_compute; reflexivity | reflexivity]. Qed.

End CliFacts.

(** ** More on the retry executor *)

Module RetryMore.
Import Errors Retry RetryTrace Fixtures.

Section Runs.
Context {S T : Type}.
Variable options : RetryOptions.
Variable operation : Z -> S -> Result T AppError * S.
Variable context : option RetryContext.

(** The shape of every run from [attempt] on: [n] invocations with
    consecutive attempt numbers, [n - 1] sleeps between them, a warning for
    every failed attempt. *)
Lemma execute_shape (fuel : nat) :
  forall attempt lastError s r s' effects,
    execute options operation context fuel attempt lastError s
    = Some (r, s', effects) ->
    exists n,
      0 <= n
      /\ (n = 0 <-> maxAttempts options < attempt)
      /\ attempt + n <= Z.max attempt (maxAttempts options + 1)
      /\ invocations effects = seqZ attempt n
      /\ sleeps effects = Z.max 0 (n - 1)
      /\ warnings effects = (if isOk r then n - 1 else n)
      /\ successLogs effects = (if isOk r && (attempt + n - 1 >? 1) then 1 else 0)
      /\ (isOk r = false -> attempt + n = Z.max attempt (maxAttempts options + 1)).
Proof.
  induction fuel as [|fuel IH]; intros attempt lastError s r s' effects; simpl.
  - rewrite Z.gtb_ltb. destruct (Z.ltb_spec (maxAttempts options) attempt);
      [| discriminate].
    intros [= <- <- <-]. exists 0. repeat split; try reflexivity; lia.
  - rewrite Z.gtb_ltb. destruct (Z.ltb_spec (maxAttempts options) attempt).
    { intros [= <- <- <-]. exists 0. repeat split; try reflexivity; lia. }
    destruct (operation attempt s) as [[value|error] s0].
    + intros [= <- <- <-]. exists 1.
      replace (attempt + 1 - 1) with attempt by lia.
      destruct (attempt >? 1); repeat split; try reflexivity; try lia;
        discriminate.
    + unfold fail. rewrite Z.geb_leb.
      destruct (Z.leb_spec (maxAttempts options) attempt); simpl.
      * intros [= <- <- <-]. exists 1. repeat split; try reflexivity; lia.
      * destruct (execute options operation context fuel (attempt + 1)
                    (Some error) s0) as [[[r0 s1] rest]|] eqn:Hrest; simpl;
          [| discriminate].
        intros [= <- <- <-].
        destruct (IH _ _ _ _ _ _ Hrest)
          as (n & Hn & Hzero & Hbound & Hinv & Hsleeps & Hwarn & Hinfo & Hlast).
        assert (0 < n) by (destruct (Z.eq_dec n 0); [apply Hzero in e; lia | lia]).
        exists (n + 1). split; [lia |]. split; [lia |]. split; [lia |].
        split; [| split; [| split; [| split]]].
        -- change (invocations (Invoked attempt
                    :: LogWarn context attempt (code error) (type error)
                    :: awaitDelay attempt :: rest))
            with (attempt :: invocations rest).
          rewrite Hinv, (seqZ_cons attempt (n + 1)) by lia.
          f_equal. f_equal; lia.
        -- change (sleeps (Invoked attempt
                    :: LogWarn context attempt (code error) (type error)
                    :: awaitDelay attempt :: rest))
            with (Z.of_nat (Datatypes.S (length (List.filter isSlept rest)))).
          unfold sleeps in Hsleeps. lia.
        -- change (warnings (Invoked attempt
                    :: LogWarn context attempt (code error) (type error)
                    :: awaitDelay attempt :: rest))
            with (Z.of_nat (Datatypes.S (length (List.filter isLogWarn rest)))).
          unfold warnings in Hwarn. destruct (isOk r0); lia.
        -- change (successLogs (Invoked attempt
                    :: LogWarn context attempt (code error) (type error)
                    :: awaitDelay attempt :: rest))
            with (successLogs rest).
          rewrite Hinfo. replace (attempt + (n + 1) - 1) with (attempt + 1 + n - 1) by lia.
          reflexivity.
        -- intros Hfailed. specialize (Hlast Hfailed). lia.
Qed.

(** The attempts before [k] fail, each in the state its predecessors left,
    and attempt [k] succeeds: the run from [attempt] makes the attempts up
    to [k] and returns what attempt [k] returned. *)
Lemma execute_until_success (k : Z) (value : T) (j : nat) :
  forall fuel attempt lastError s,
    attempt + Z.of_nat j = k ->
    k <= maxAttempts options ->
    (j < fuel)%nat ->
    (forall i : nat,
        (i < j)%nat ->
        isErr (fst (operation (attempt + Z.of_nat i)
                      (foldl (fun st n => snd (operation n st)) s
                             (seqZ attempt (Z.of_nat i))))) = true) ->
    fst (operation k (foldl (fun st n => snd (operation n st)) s
                        (seqZ attempt (Z.of_nat j)))) = Ok value ->
    exists effects,
      execute options operation context fuel attempt lastError s
      = Some (Ok value,
              snd (operation k (foldl (fun st n => snd (operation n st)) s
                                  (seqZ attempt (Z.of_nat j)))),
              effects)
      /\ invocations effects = seqZ attempt (Z.of_nat j + 1).
Proof.
  induction j as [|j IH]; intros fuel attempt lastError s Hk Hmax Hfuel Hfail;
    (destruct fuel as [|fuel]; [lia |]); simpl; unfold fail.
  - replace k with attempt by lia. intros Hok.
    rewrite Z.gtb_ltb. destruct (Z.ltb_spec (maxAttempts options) attempt); [lia |].
    destruct (operation attempt s) as [[v|error] s0]; simpl in Hok;
      [| discriminate].
    injection Hok as ->. eexists. split; [reflexivity |].
    destruct (attempt >? 1); reflexivity.
  - rewrite Z.gtb_ltb. destruct (Z.ltb_spec (maxAttempts options) attempt); [lia |].
    rewrite (seqZ_cons attempt (Z.of_nat (Datatypes.S j))) by lia. simpl.
    pose proof (Hfail O ltac:(lia)) as Hnow. simpl in Hnow.
    rewrite Z.add_0_r in Hnow.
    assert (Hlater : forall i : nat,
               (i < j)%nat ->
               isErr (fst (operation (attempt + 1 + Z.of_nat i)
                             (foldl (fun st n => snd (operation n st))
                                    (snd (operation attempt s))
                                    (seqZ (attempt + 1) (Z.of_nat i))))) = true).
    { intros i Hi. pose proof (Hfail (Datatypes.S i) ltac:(lia)) as Hnext.
      rewrite (seqZ_cons attempt (Z.of_nat (Datatypes.S i))) in Hnext by lia.
      simpl in Hnext.
      replace (Z.pred (Z.of_nat (Datatypes.S i))) with (Z.of_nat i) in Hnext by lia.
      replace (Z.succ attempt) with (attempt + 1) in Hnext by lia.
      replace (attempt + Z.of_nat (Datatypes.S i)) with (attempt + 1 + Z.of_nat i)
        in Hnext by lia.
      exact Hnext. }
    destruct (operation attempt s) as [[v|error] s0]; [discriminate |].
    rewrite Z.geb_leb.
    destruct (Z.leb_spec (maxAttempts options) attempt); [lia |].
    replace (Z.pred (Z.of_nat (Datatypes.S j))) with (Z.of_nat j) by lia.
    replace (Z.succ attempt) with (attempt + 1) by lia.
    intros Hok.
    destruct (IH fuel (attempt + 1) (Some error) s0) as (rest & -> & Hrest);
      [lia | lia | lia | exact Hlater | exact Hok |].
    simpl. eexists. split; [reflexivity |].
    change (invocations (Invoked attempt
              :: LogWarn context attempt (code error) (type error)
              :: awaitDelay attempt :: rest))
      with (attempt :: invocations rest).
    rewrite Hrest, (seqZ_cons attempt (Z.of_nat (Datatypes.S j) + 1)) by lia.
    f_equal. f_equal; lia.
Qed.

End Runs.

(** X1. When the attempts before [k] fail, each in the state its
    predecessors left, and attempt [k <= maxAttempts] succeeds, the executor
    returns the value and the state of attempt [k] after exactly the
    attempts [1 .. k]: it has slept and warned [k - 1] times and logs the
    success only when [k > 1]. *)
Theorem retry_first_success {S T : Type}
    (options : RetryOptions)
    (operation : Z -> S -> Result T AppError * S)
    (context : option RetryContext) (s : S) (k : Z) (value : T) :
  1 <= k <= maxAttempts options ->
  (forall n, 1 <= n < k ->
             isErr (fst (operation n (stateAfter operation (n - 1) s))) = true) ->
  fst (operation k (stateAfter operation (k - 1) s)) = Ok value ->
  exists effects,
    createRetryExecutor options operation context s
    = Some (Ok value, snd (operation k (stateAfter operation (k - 1) s)), effects)
    /\ invocations effects = seqZ 1 k
    /\ sleeps effects = k - 1
    /\ warnings effects = k - 1
    /\ successLogs effects = (if k >? 1 then 1 else 0).
Proof.
  intros Hk Hfail Hok. unfold stateAfter in *.
  destruct (execute_until_success options operation context k value
              (Z.to_nat (k - 1)) (Z.to_nat (maxAttempts options)) 1 None s)
    as (effects & Hrun & Hinv); try lia.
  - intros i Hi. specialize (Hfail (1 + Z.of_nat i) ltac:(lia)).
    replace (1 + Z.of_nat i - 1) with (Z.of_nat i) in Hfail by lia. exact Hfail.
  - rewrite Z2Nat.id by lia. exact Hok.
  - rewrite Z2Nat.id in Hrun, Hinv by lia.
    replace (k - 1 + 1) with k in Hinv by lia.
    exists effects. unfold createRetryExecutor. split; [exact Hrun |].
    split; [exact Hinv |].
    destruct (execute_shape options operation context _ _ _ _ _ _ _ Hrun)
      as (n & Hn & _ & _ & Hinv' & Hsleeps & Hwarn & Hinfo & _).
    assert (n = k).
    { rewrite Hinv in Hinv'. apply (f_equal length) in Hinv'.
      rewrite !length_seqZ in Hinv'. lia. }
    subst n. simpl in Hwarn, Hinfo.
    replace (1 + k - 1) with k in Hinfo by lia.
    repeat split; [lia | exact Hwarn | exact Hinfo].
Qed.

(** The operation of the unit test: it fails once and then succeeds; the
    state counts the invocations. *)
Lemma retry_first_success_witness :
  exists effects,
    createRetryExecutor threeAttempts failsOnce None 0%nat
    = Some (Ok "ok"%string, 2%nat, effects)
    /\ invocations effects = [1; 2]
    /\ sleeps effects = 1
    /\ warnings effects = 1
    /\ successLogs effects = 1.
Proof.
  apply (retry_first_success threeAttempts failsOnce None 0%nat 2
           "ok"%string).
  - simpl. lia.
  - intros n Hn. assert (n = 1) as -> by lia. reflexivity.
  - reflexivity.
Defined.

(** X2. Whatever the operation does, the executor returns after the
    attempts [1 .. n] for some [n <= max(0, maxAttempts)], each made once
    and in order.  It sleeps between two attempts and never after the
    last one, warns once for every failed attempt, and returns an error
    only when all [maxAttempts] attempts are used up. *)
Theorem retry_run_shape {S T : Type}
    (options : RetryOptions)
    (operation : Z -> S -> Result T AppError * S)
    (context : option RetryContext) (s : S) :
  exists r s' effects n,
    createRetryExecutor options operation context s = Some (r, s', effects)
    /\ 0 <= n <= Z.max 0 (maxAttempts options)
    /\ invocations effects = seqZ 1 n
    /\ sleeps effects = Z.max 0 (n - 1)
    /\ warnings effects = (if isOk r then n - 1 else n)
    /\ (isOk r = false -> n = Z.max 0 (maxAttempts options)).
Proof.
  destruct (RetryFacts.execute_total options operation context
              (Z.to_nat (maxAttempts options)) 1 None s) as [[[r s'] effects] Hrun];
    [lia |].
  destruct (execute_shape options operation context _ _ _ _ _ _ _ Hrun)
    as (n & Hn & Hzero & Hbound & Hinv & Hsleeps & Hwarn & _ & Hlast).
  exists r, s', effects, n. unfold createRetryExecutor.
  split; [exact Hrun |]. split; [lia |].
  split; [exact Hinv |]. split; [exact Hsleeps |]. split; [exact Hwarn |].
  intros Hfailed. specialize (Hlast Hfailed). lia.
Qed.

(** X27. The executor taken call by call is [execute] with the calls left
    to the caller: run on an operation that threads a state, it ends with
    the result and in the state of [execute], and it is pending where
    [execute] runs out of fuel. *)
Theorem executing_performs {S T : Type} (options : RetryOptions)
    (operation : Z -> S -> Result T AppError * S)
    (context : option RetryContext) (fuel : nat) :
  forall (attempt : Z) (lastError : option AppError) (s : S),
    perform (executing options fuel attempt lastError) operation s
    = match execute options operation context fuel attempt lastError s with
      | Some (r, s', _) => Some (r, s')
      | None => None
      end.
Proof.
  induction fuel as [|fuel IH]; intros attempt lastError s; simpl;
    destruct (attempt >? maxAttempts options); try reflexivity.
  destruct (operation attempt s) as [[value|error] s'] eqn:Hcall; simpl;
    rewrite ?Hcall; [reflexivity |].
  unfold fail. destruct (attempt >=? maxAttempts options); simpl;
    [reflexivity |].
  rewrite IH.
  destruct (execute options operation context fuel (attempt + 1) (Some error) s')
    as [[[r s''] effects]|]; reflexivity.
Qed.

End RetryMore.

(** ** More on the repository *)

Module RepoMore.
Import Errors Models Repo RepoStates Fixtures.

Section Repository.
Context {ops : StringOps}.

(** What a write leaves in the three maps. *)
Lemma upsert_written (now : Z) (user : User) (options : option UpsertOptions)
    (repo : MemoryUserRepository) :
  cached now user options repo = None ->
  let stored := {| id := id user; name := name user;
                   email := toLowerCase (email user); age := age user;
                   updatedAt := updatedAt user |} in
  fst (upsert now user options repo) = Ok stored
  /\ byId (snd (upsert now user options repo)) = <[id user := stored]> (byId repo)
  /\ byEmail (snd (upsert now user options repo))
     = <[toLowerCase (email user) := id user]> (byEmail repo)
  /\ idempotency (snd (upsert now user options repo))
     = match presentKey options with
       | Some key =>
           idempotency (persistIdempotency key (id user) now repo)
       | None => idempotency repo
       end
  /\ idempotencyTtlMs (snd (upsert now user options repo)) = idempotencyTtlMs repo.
Proof.
  intros Hfresh stored. unfold upsert. rewrite Hfresh. unfold persistFresh. simpl.
  destruct (presentKey options) as [key|]; simpl; [| repeat split].
  unfold persistIdempotency. simpl.
  destruct (active (idempotency repo !! key) now);
    [destruct (idempotency repo !! key) |]; repeat split.
Qed.

(** X4. After an upsert that writes, [findById] returns the user with the
    email in lower case, which is also what the call returned;
    [findByEmail] on the email as it was given returns the same user,
    unless the id is the empty string: such a user is stored and yet never
    found by email. *)
Theorem upsert_then_find (now : Z) (user : User) (options : option UpsertOptions)
    (repo : MemoryUserRepository) :
  cached now user options repo = None ->
  let stored := {| id := id user; name := name user;
                   email := toLowerCase (email user); age := age user;
                   updatedAt := updatedAt user |} in
  fst (upsert now user options repo) = Ok stored
  /\ findById (snd (upsert now user options repo)) (id user) = Ok (Some stored)
  /\ findByEmail (snd (upsert now user options repo)) (email user)
     = Ok (if truthyString (id user) then Some stored else None).
Proof.
  intros Hfresh stored.
  destruct (upsert_written now user options repo Hfresh)
    as (Hres & Hid & Hmail & _).
  fold stored in Hres, Hid. split; [exact Hres |].
  unfold findById, findByEmail. rewrite Hid, Hmail, !lookup_insert_eq.
  split; [reflexivity |].
  destruct (truthyString (id user)); reflexivity.
Qed.

(** X5. An upsert touches one id, one email and one key at most: every
    other id, every other email of the index and every other idempotency
    key reads as before, and the TTL is never changed. *)
Theorem upsert_frame (now : Z) (user : User) (options : option UpsertOptions)
    (repo : MemoryUserRepository) :
  (forall i, i <> id user ->
             byId (snd (upsert now user options repo)) !! i = byId repo !! i)
  /\ (forall e, e <> toLowerCase (email user) ->
                byEmail (snd (upsert now user options repo)) !! e
                = byEmail repo !! e)
  /\ (forall key, presentKey options <> Some key ->
                  idempotency (snd (upsert now user options repo)) !! key
                  = idempotency repo !! key)
  /\ idempotencyTtlMs (snd (upsert now user options repo)) = idempotencyTtlMs repo.
Proof.
  destruct (cached now user options repo) as [c|] eqn:Hcached.
  - unfold upsert. rewrite Hcached. simpl. auto.
  - destruct (upsert_written now user options repo Hcached)
      as (_ & -> & -> & -> & ->).
    repeat split.
    + intros i Hi. apply lookup_insert_ne. congruence.
    + intros e He. apply lookup_insert_ne. congruence.
    + intros key Hkey. destruct (presentKey options) as [k|]; [| reflexivity].
      unfold persistIdempotency.
      destruct (active (idempotency repo !! k) now);
        [destruct (idempotency repo !! k) |]; simpl;
        try reflexivity; apply lookup_insert_ne; congruence.
Qed.

(** An upsert keeps the maps consistent. *)
Lemma upsert_consistent (now : Z) (user : User) (options : option UpsertOptions)
    (repo : MemoryUserRepository) :
  consistent repo -> consistent (snd (upsert now user options repo)).
Proof.
  intros (Hown & Hmail & Hmember).
  destruct (cached now user options repo) as [c|] eqn:Hcached.
  { unfold upsert. rewrite Hcached. repeat split; assumption. }
  destruct (upsert_written now user options repo Hcached)
    as (_ & Hid & Hindex & Hkeys & _).
  assert (Hkept : forall i, is_Some (byId repo !! i) ->
                            is_Some (byId (snd (upsert now user options repo)) !! i)).
  { intros i Hi. rewrite Hid. destruct (decide (id user = i)) as [<-|Hne].
    - rewrite lookup_insert_eq. eauto.
    - rewrite lookup_insert_ne by exact Hne. exact Hi. }
  assert (Hself : is_Some (byId (snd (upsert now user options repo)) !! id user)).
  { rewrite Hid, lookup_insert_eq. eauto. }
  split; [| split].
  - intros i stored. rewrite Hid. destruct (decide (id user = i)) as [<-|Hne].
    + rewrite lookup_insert_eq. intros [= <-]. reflexivity.
    + rewrite lookup_insert_ne by exact Hne. apply Hown.
  - intros e i. rewrite Hindex.
    destruct (decide (toLowerCase (email user) = e)) as [<-|Hne].
    + rewrite lookup_insert_eq. intros [= <-]. exact Hself.
    + rewrite lookup_insert_ne by exact Hne. intros He. eapply Hkept, Hmail, He.
  - intros key entry i. rewrite Hkeys.
    destruct (presentKey options) as [k|];
      [| intros He Hi; eapply Hkept, Hmember; eassumption].
    unfold persistIdempotency.
    destruct (active (idempotency repo !! k) now) eqn:Hactive;
      [destruct (idempotency repo !! k) as [old|] eqn:Hold |]; simpl.
    + destruct (decide (k = key)) as [<-|Hne].
      * rewrite lookup_insert_eq. intros [= <-]. simpl. intros Hi.
        apply elem_of_union in Hi as [Hi | Hi].
        -- eapply Hkept, Hmember; eassumption.
        -- apply elem_of_singleton in Hi as ->. exact Hself.
      * rewrite lookup_insert_ne by exact Hne.
        intros He Hi. eapply Hkept, Hmember; eassumption.
    + intros He Hi. eapply Hkept, Hmember; eassumption.
    + destruct (decide (k = key)) as [<-|Hne].
      * rewrite lookup_insert_eq. intros [= <-]. simpl. intros Hi.
        apply elem_of_singleton in Hi as ->. exact Hself.
      * rewrite lookup_insert_ne by exact Hne.
        intros He Hi. eapply Hkept, Hmember; eassumption.
Qed.

(** On a consistent repository [upsert] returns a user with the id it was
    given, also when it replays. *)
Lemma upsert_returns_own_id (now : Z) (user stored : User)
    (options : option UpsertOptions) (repo : MemoryUserRepository) :
  consistent repo ->
  fst (upsert now user options repo) = Ok stored ->
  id stored = id user.
Proof.
  intros Hok Hres.
  destruct (RepoFacts.upsert_returns_stored now user options repo)
    as (stored' & Hres' & Hstored).
  rewrite Hres in Hres'. injection Hres' as <-.
  destruct (upsert_consistent now user options repo Hok) as (Hown & _).
  apply Hown. exact Hstored.
Qed.


End Repository.

Lemma upsert_then_find_witness :
  findById (snd (upsert (ops := AsciiStrings) 1000 grace None (emptyRepo 60000)))
    "user-123"
  = Ok (Some {| id := "user-123"; name := "Grace Hopper";
                email := "grace@example.com"; age := 50;
                updatedAt := 1704067200000 |})
  /\ findByEmail (ops := AsciiStrings)
       (snd (upsert (ops := AsciiStrings) 1000 grace None (emptyRepo 60000)))
       "Grace@Example.com"
     = Ok (Some {| id := "user-123"; name := "Grace Hopper";
                   email := "grace@example.com"; age := 50;
                   updatedAt := 1704067200000 |}).
Proof.
  destruct (upsert_then_find (ops := AsciiStrings) 1000 grace None (emptyRepo 60000))
    as (_ & Hid & Hmail).
  - reflexivity.
  - split; [exact Hid | exact Hmail].
Defined.

End RepoMore.

(** ** [bulkUpsert]: two chains in one world *)

Module BulkMore.
Import Errors Models Repo BulkStates Fixtures.

(** [reduce] takes the settled tasks from the left and appends: the result
    of a list is the result of its head before the result of its tail. *)
Lemma aggregate_cons (item : User * Result User AppError)
    (items : list (User * Result User AppError)) :
  aggregate (item :: items)
  = match snd item with
    | Ok value =>
        {| successes := value :: successes (aggregate items);
           failures := failures (aggregate items) |}
    | Err error =>
        {| successes := successes (aggregate items);
           failures := {| failedUser := fst item; failedWith := error |}
                       :: failures (aggregate items) |}
    end.
Proof.
  unfold aggregate. simpl.
  match goal with |- context [fold_left ?f items _] => set (step := f) end.
  assert (Hfrom : forall l acc,
             fold_left step l acc
             = {| successes := successes acc
                               ++ successes (fold_left step l
                                               {| successes := []; failures := [] |});
                  failures := failures acc
                              ++ failures (fold_left step l
                                             {| successes := []; failures := [] |}) |}).
  { induction l as [|x l IH]; intros acc; simpl.
    - rewrite !app_nil_r. destruct acc; reflexivity.
    - rewrite (IH (step acc x)), (IH (step _ x)). unfold step.
      destruct (snd x); simpl; rewrite <- ?app_assoc; reflexivity. }
  rewrite Hfrom. destruct (snd item); reflexivity.
Qed.

Lemma aggregate_partition (items : list (User * Result User AppError)) :
  (length (successes (aggregate items)) + length (failures (aggregate items))
   = length items)%nat
  /\ map failedUser (failures (aggregate items)) `sublist_of` map fst items.
Proof.
  induction items as [|item items [IHn IHs]].
  - split; [reflexivity | constructor].
  - rewrite aggregate_cons. destruct item as [user [value|error]]; simpl.
    + split; [lia |]. apply sublist_cons, IHs.
    + split; [lia |]. apply sublist_skip, IHs.
Qed.

(** The tasks that have settled are those of the users, in their order. *)
Lemma settled_users (tasks : list Task) :
  forall items, mapM settled tasks = Some items ->
                map fst items = map taskUser tasks.
Proof.
  intros items Hitems. apply mapM_Some in Hitems.
  induction Hitems as [|task item tasks items Hitem _ IH]; [reflexivity |].
  simpl. rewrite IH. f_equal.
  unfold settled in Hitem. destruct (taskRun task); [| discriminate..].
  injection Hitem as <-. reflexivity.
Qed.

Lemma insert_same_image {A B : Type} (f : A -> B) (l : list A) :
  forall i x y, l !! i = Some y -> f x = f y -> map f (<[i := x]> l) = map f l.
Proof.
  induction l as [|z l IH]; intros [|i] x y; simpl; try discriminate.
  - intros [= ->] ->. reflexivity.
  - intros Hy Hf. f_equal. eapply IH; eassumption.
Qed.

Lemma aggregate_all_failed (users : list User) (error : AppError) :
  aggregate (map (fun user => (user, Err error)) users)
  = {| successes := [];
       failures := map (fun user => {| failedUser := user; failedWith := error |})
                       users |}.
Proof.
  induction users as [|user users IH]; [reflexivity |].
  simpl map. rewrite aggregate_cons, IH. reflexivity.
Qed.

Section Bulk.
Context {ops : StringOps}.
Variable clock : nat -> Z.
Variable options : BulkUpsertOptions.

Lemma upsertIn_ids (user : User) (w : World) :
  ids (snd (upsertIn clock user options w)) = ids w ∪ {[id user]}.
Proof.
  unfold upsertIn, ids.
  pose proof (RepoFacts.upsert_dom (clock (reads w)) user
                (Some {| idempotencyKey := bulkIdempotencyKey options |}) (store w))
    as Hdom.
  destruct (upsert _ _ _ _) as [r repo']. exact Hdom.
Qed.

Lemma upsertIn_reads (user : User) (w : World) :
  reads (snd (upsertIn clock user options w)) = Datatypes.S (reads w).
Proof. unfold upsertIn. destruct (upsert _ _ _ _). reflexivity. Qed.

(** The [upsert] of the in-memory repository always succeeds. *)
Lemma upsertIn_ok (user : User) (w : World) :
  exists stored, fst (upsertIn clock user options w) = Ok stored.
Proof.
  unfold upsertIn.
  destruct (RepoFacts.upsert_returns_stored (clock (reads w)) user
              (Some {| idempotencyKey := bulkIdempotencyKey options |}) (store w))
    as (stored & Hres & _).
  destruct (upsert _ _ _ _) as [r repo']. eauto.
Qed.

(** A call is the call of [upsert] for the user of the task. *)
Lemma call_made (task task' : Task) (w w' : World) :
  call clock options task w = Some (task', w') ->
  taskUser task' = taskUser task
  /\ w' = snd (upsertIn clock (taskUser task) options w)
  /\ exists attempt next,
       taskRun task = Retry.invoking attempt next
       /\ taskRun task' = next (fst (upsertIn clock (taskUser task) options w)).
Proof.
  unfold call. destruct (taskRun task) as [r|attempt next|]; try discriminate.
  destruct (upsertIn clock (taskUser task) options w) as [r w1].
  intros [= <- <-]. simpl. repeat split. eauto.
Qed.

Lemma call_resolved (task : Task) (w : World) (r : Result User AppError) :
  taskRun task = Retry.resolved r -> call clock options task w = None.
Proof. unfold call. intros ->. reflexivity. Qed.

(** A property of the chains that the start establishes and every turn
    keeps holds after every schedule. *)
Lemma bulkRun_invariant (P : Chains -> Prop) (users : list User) (w : World) :
  P (started users options w) ->
  (forall t chains, P chains -> P (turn clock options t chains)) ->
  forall schedule, P (bulkRun clock users options schedule w).
Proof.
  intros Hstart Hturn schedule. unfold bulkRun.
  induction schedule as [|t schedule IH] using rev_ind; [exact Hstart |].
  rewrite foldl_app. simpl. apply Hturn, IH.
Qed.

(** What a turn changes: nothing, or the world and the log by one call of
    [upsert]. *)
Lemma turn_effect (t : Turn) (chains : Chains) :
  turn clock options t chains = chains
  \/ exists origin user,
       world (turn clock options t chains)
       = snd (upsertIn clock user options (world chains))
       /\ upserts (turn clock options t chains)
          = upserts chains ++ [(origin, user)].
Proof.
  destruct t as [|index]; simpl.
  - destruct (sequentialChain chains) as [task rest acc|r]; [| auto].
    destruct (call clock options task (world chains)) as [[task' w']|] eqn:Hcall;
      [| auto].
    apply call_made in Hcall as (_ & -> & _). right. simpl. eauto.
  - destruct (concurrentTasks chains !! index) as [task|]; [| auto].
    destruct (call clock options task (world chains)) as [[task' w']|] eqn:Hcall;
      [| auto].
    apply call_made in Hcall as (_ & -> & _). right. simpl. eauto.
Qed.

(** The tasks stay those of the users. *)
Lemma turn_tasks (t : Turn) (chains : Chains) :
  map taskUser (concurrentTasks (turn clock options t chains))
  = map taskUser (concurrentTasks chains).
Proof.
  destruct t as [|index]; simpl.
  - destruct (sequentialChain chains) as [task rest acc|r]; [| reflexivity].
    destruct (call clock options task (world chains)) as [[task' w']|];
      reflexivity.
  - destruct (concurrentTasks chains !! index) as [task|] eqn:Htask;
      [| reflexivity].
    destruct (call clock options task (world chains)) as [[task' w']|] eqn:Hcall;
      [| reflexivity].
    apply call_made in Hcall as (Huser & _). simpl.
    eapply insert_same_image; eassumption.
Qed.

Lemma bulkRun_tasks (users : list User) (schedule : list Turn) (w : World) :
  map taskUser (concurrentTasks (bulkRun clock users options schedule w)) = users.
Proof.
  apply (bulkRun_invariant
           (fun chains => map taskUser (concurrentTasks chains) = users)).
  - simpl. rewrite map_map. simpl. apply map_id.
  - intros t chains <-. apply turn_tasks.
Qed.

(** Every read of the clock is a call of [upsert], and the stored ids only
    grow, by ids of users that were upserted. *)
Lemma bulkRun_world (users : list User) (schedule : list Turn) (w : World) :
  reads (world (bulkRun clock users options schedule w))
  = (reads w + length (upserts (bulkRun clock users options schedule w)))%nat
  /\ ids (world (bulkRun clock users options schedule w))
     = ids w ∪ list_to_set
                 (map (fun entry => id (snd entry))
                      (upserts (bulkRun clock users options schedule w))).
Proof.
  apply (bulkRun_invariant
           (fun chains =>
              reads (world chains) = (reads w + length (upserts chains))%nat
              /\ ids (world chains)
                 = ids w ∪ list_to_set (map (fun entry => id (snd entry))
                                            (upserts chains)))).
  - simpl. split; [lia |]. rewrite right_id_L; [reflexivity | apply _].
  - intros t chains (Hreads & Hids).
    destruct (turn_effect t chains) as [-> | (origin & user & -> & ->)];
      [auto |].
    rewrite upsertIn_reads, upsertIn_ids, Hreads, Hids, length_app, map_app,
      list_to_set_app_L. simpl. split; [lia |].
    rewrite (right_id_L ∅ (∪)), (assoc_L (∪)). reflexivity.
Qed.

(** The calls of the log, chain by chain. *)
Lemma upsertsOf_turn (origin : Origin) (t : Turn) (chains : Chains) :
  upsertsOf origin (turn clock options t chains) = upsertsOf origin chains
  \/ exists user,
       upsertsOf origin (turn clock options t chains)
       = upsertsOf origin chains ++ [user].
Proof.
  unfold upsertsOf.
  destruct (turn_effect t chains) as [-> | (from & user & _ & ->)]; [auto |].
  rewrite omap_app. simpl.
  destruct from, origin; simpl; rewrite ?app_nil_r; eauto.
Qed.

Lemma upsertsOf_lengths (chains : Chains) :
  length (upserts chains)
  = (length (upsertsOf bySequential chains)
     + length (upsertsOf byConcurrent chains))%nat.
Proof.
  unfold upsertsOf. induction (upserts chains) as [|[[|] user] log IH]; simpl.
  - reflexivity.
  - exact (f_equal Datatypes.S IH).
  - rewrite Nat.add_succ_r. exact (f_equal Datatypes.S IH).
Qed.

(** *** The counts of a result *)

Lemma sequential_accounted (users : list User) (remaining : list User) :
  forall pre acc,
    users = pre ++ remaining -> length acc = length pre ->
    accounted users (sequential options remaining acc).
Proof.
  induction remaining as [|user rest IH]; intros pre acc Husers Hlen; simpl.
  - subst users. rewrite app_nil_r. exact Hlen.
  - destruct (retry options User repoUpsert) as [[stored|error]|attempt next|];
      simpl; eauto.
    apply (IH (pre ++ [user])).
    + rewrite <- app_assoc. exact Husers.
    + rewrite !length_app, Hlen. reflexivity.
Qed.

Lemma turn_accounted (users : list User) (t : Turn) (chains : Chains) :
  accounted users (sequentialChain chains) ->
  accounted users (sequentialChain (turn clock options t chains)).
Proof.
  intros Hacc. destruct t as [|index]; simpl.
  - destruct (sequentialChain chains) as [task rest acc|r] eqn:Hchain;
      [| rewrite Hchain; exact Hacc].
    destruct (call clock options task (world chains)) as [[task' w']|] eqn:Hcall;
      [| rewrite Hchain; exact Hacc].
    apply call_made in Hcall as (Huser & _). simpl.
    destruct Hacc as (pre & Husers & Hlen). rewrite Huser.
    unfold proceed.
    destruct (taskRun task') as [[stored|error]|attempt next|]; simpl; eauto.
    apply (sequential_accounted users rest (pre ++ [taskUser task])).
    + rewrite <- app_assoc. exact Husers.
    + rewrite !length_app, Hlen. reflexivity.
  - destruct (concurrentTasks chains !! index) as [task|]; [| exact Hacc].
    destruct (call clock options task (world chains)) as [[task' w']|];
      exact Hacc.
Qed.

Lemma bulkRun_accounted (users : list User) (schedule : list Turn) (w : World) :
  accounted users (sequentialChain (bulkRun clock users options schedule w)).
Proof.
  apply (bulkRun_invariant (fun chains => accounted users (sequentialChain chains))).
  - simpl. apply (sequential_accounted users users []); reflexivity.
  - intros t chains. apply turn_accounted.
Qed.

(** Every call of [upsert] is for a user of the batch. *)
Lemma bulkRun_logged (users : list User) (schedule : list Turn) (w : World) :
  Forall (fun entry => snd entry ∈ users)
         (upserts (bulkRun clock users options schedule w)).
Proof.
  apply (bulkRun_invariant
           (fun chains =>
              Forall (fun entry => snd entry ∈ users) (upserts chains)
              /\ accounted users (sequentialChain chains)
              /\ map taskUser (concurrentTasks chains) = users)).
  - split; [constructor |]. split.
    + simpl. apply (sequential_accounted users users []); reflexivity.
    + simpl. rewrite <- list_fmap_compose. apply list_fmap_id.
  - intros t chains (Hlog & Hacc & Htasks).
    split; [| split].
    + destruct t as [|index]; simpl.
      * destruct (sequentialChain chains) as [task rest acc|r]; [| exact Hlog].
        destruct (call clock options task (world chains)) as [[task' w']|];
          [| exact Hlog].
        simpl. apply Forall_app. split; [exact Hlog |].
        constructor; [| constructor]. simpl.
        destruct Hacc as (pre & -> & _). apply elem_of_app. right.
        apply list_elem_of_here.
      * destruct (concurrentTasks chains !! index) as [task|] eqn:Htask;
          [| exact Hlog].
        destruct (call clock options task (world chains)) as [[task' w']|];
          [| exact Hlog].
        simpl. apply Forall_app. split; [exact Hlog |].
        constructor; [| constructor]. simpl. rewrite <- Htasks.
        apply list_elem_of_fmap_2. eapply list_elem_of_lookup_2, Htask.
    + apply turn_accounted, Hacc.
    + rewrite turn_tasks. exact Htasks.
Qed.

(** Whatever the mode, the executor and the schedule, a result accounts
    for every user. *)
Lemma bulkUpsert_counts (users : list User) (schedule : list Turn)
    (w w' : World) (bulk : BulkUpsertResult) :
  bulkUpsert clock users options schedule w = Some (Ok bulk, w') ->
  (length (successes bulk) + length (failures bulk) = length users)%nat.
Proof.
  unfold bulkUpsert. destruct (failFast options).
  - pose proof (bulkRun_accounted users schedule w) as Hacc.
    destruct (sequentialChain _) as [task rest acc|[done|error]];
      simpl; [discriminate | | discriminate].
    intros [= <- <-]. simpl in *. lia.
  - unfold concurrentResult.
    destruct (mapM settled _) as [items|] eqn:Hitems; [| discriminate].
    intros [= <- <-]. destruct (aggregate_partition items) as (Hn & _).
    apply settled_users in Hitems. rewrite bulkRun_tasks in Hitems.
    rewrite Hn, <- Hitems, length_map. reflexivity.
Qed.

End Bulk.

(** Resolving a task puts its user among the resolved ones. *)
Lemma resolvedUsers_insert (tasks : list Task) :
  forall index task r,
    tasks !! index = Some task ->
    (forall r', taskRun task <> Retry.resolved r') ->
    resolvedUsers (<[index := {| taskUser := taskUser task;
                                taskRun := Retry.resolved r |}]> tasks)
    ≡ₚ taskUser task :: resolvedUsers tasks.
Proof.
  unfold resolvedUsers.
  induction tasks as [|first tasks IH]; intros [|index] task r; simpl;
    try discriminate.
  - intros [= ->] Hopen.
    destruct (taskRun task) as [r'| |]; [destruct (Hopen r'); reflexivity | |];
      reflexivity.
  - intros Htask Hopen. specialize (IH _ _ r Htask Hopen).
    destruct (taskRun first); simpl; rewrite IH; [apply perm_swap | |];
      reflexivity.
Qed.

Lemma resolvedUsers_cons (task : Task) (tasks : list Task) :
  resolvedUsers (task :: tasks)
  = match taskRun task with
    | Retry.resolved _ => taskUser task :: resolvedUsers tasks
    | _ => resolvedUsers tasks
    end.
Proof.
  unfold resolvedUsers. simpl. destruct (taskRun task); reflexivity.
Qed.

Lemma resolvedUsers_length (tasks : list Task) :
  (length (resolvedUsers tasks) <= length tasks)%nat.
Proof.
  unfold resolvedUsers. induction tasks as [|task tasks IH]; simpl; [lia |].
  destruct (taskRun task); simpl;
    [apply le_n_S | apply Nat.le_le_succ_r ..]; exact IH.
Qed.

(** The ids of the users of a log, chain by chain. *)
Lemma logged_ids (chains : Chains) :
  list_to_set (map (fun entry => id (snd entry)) (upserts chains))
  = (list_to_set (map id (upsertsOf bySequential chains))
     ∪ list_to_set (map id (upsertsOf byConcurrent chains)) : gset string).
Proof.
  unfold upsertsOf. generalize (upserts chains) as log.
  induction log as [|[[|] user] log IH]; simpl.
  - symmetry. apply (left_id_L ∅ (∪)).
  - rewrite IH. apply (assoc_L (∪)).
  - rewrite IH, (assoc_L (∪)), (comm_L (∪) {[id user]}), <- (assoc_L (∪)).
    reflexivity.
Qed.

Lemma ids_within (known : gset string) (all some : list User) :
  some ⊆ all -> known ∪ list_to_set (map id all) ∪ list_to_set (map id some)
                = known ∪ list_to_set (map id all).
Proof.
  intros Hsub.
  assert (list_to_set (map id some) ⊆ (list_to_set (map id all) : gset string)).
  { intros i. rewrite !elem_of_list_to_set, !list_elem_of_In, !in_map_iff.
    intros (user & <- & Hin). exists user. split; [reflexivity |].
    apply list_elem_of_In, Hsub, list_elem_of_In, Hin. }
  rewrite <- (assoc_L (∪)). f_equal.
  rewrite (comm_L (∪)). apply subseteq_union_1_L. assumption.
Qed.

Section Memory.
Context {ops : StringOps}.
Variable clock : nat -> Z.
Variable retryOptions : Retry.RetryOptions.
Variable options : BulkUpsertOptions.
Hypothesis retries : retry options = retryExecutor retryOptions.

(** With no attempt allowed the executor resolves at once, to the error
    "Retry exceeded attempts", and calls nothing. *)
Lemma attempting_never :
  Retry.maxAttempts retryOptions <= 0 ->
  retry options User repoUpsert = Retry.resolved (Err Retry.exceeded).
Proof.
  intros Hmax. rewrite retries. unfold retryExecutor, Retry.attempting.
  assert (Hover : (1 >? Retry.maxAttempts retryOptions) = true)
    by (rewrite Z.gtb_ltb; apply Z.ltb_lt; lia).
  destruct (Z.to_nat (Retry.maxAttempts retryOptions)); simpl; rewrite Hover;
    reflexivity.
Qed.

(** With one attempt at least it calls the operation, and resolves to the
    value when the call succeeds. *)
Lemma attempting_first :
  1 <= Retry.maxAttempts retryOptions ->
  exists next,
    retry options User repoUpsert = Retry.invoking 1 next
    /\ forall value, next (Ok value) = Retry.resolved (Ok value).
Proof.
  intros Hmax. rewrite retries. unfold retryExecutor, Retry.attempting.
  destruct (Z.to_nat (Retry.maxAttempts retryOptions)) as [|fuel] eqn:Hfuel;
    [lia |].
  simpl. rewrite Z.gtb_ltb.
  destruct (Z.ltb_spec (Retry.maxAttempts retryOptions) 1); [lia |].
  eexists. split; reflexivity.
Qed.

(** *** No attempt allowed *)

Lemma started_never (users : list User) (w : World) :
  Retry.maxAttempts retryOptions <= 0 ->
  started users options w
  = {| sequentialChain :=
         match users with
         | [] => finished (Ok [])
         | _ => finished (Err Retry.exceeded)
         end;
       concurrentTasks :=
         map (fun user => {| taskUser := user;
                             taskRun := Retry.resolved (Err Retry.exceeded) |})
             users;
       world := w;
       upserts := [] |}.
Proof.
  intros Hmax. unfold started, retried. rewrite (attempting_never Hmax).
  destruct users as [|user users]; simpl; [reflexivity |].
  rewrite (attempting_never Hmax). reflexivity.
Qed.

Lemma bulkRun_never (users : list User) (schedule : list Turn) (w : World) :
  Retry.maxAttempts retryOptions <= 0 ->
  bulkRun clock users options schedule w = started users options w.
Proof.
  intros Hmax. unfold bulkRun. rewrite (started_never users w Hmax).
  induction schedule as [|t schedule IH] using rev_ind; [reflexivity |].
  rewrite foldl_app, IH. simpl. destruct t as [|index]; simpl.
  - destruct users; reflexivity.
  - destruct (map _ users !! index) as [task|] eqn:Htask; [| reflexivity].
    apply list_elem_of_lookup_2, list_elem_of_In, in_map_iff in Htask
      as (user & <- & _).
    reflexivity.
Qed.

Lemma settled_never (users : list User) :
  mapM settled
    (map (fun user => {| taskUser := user;
                         taskRun := Retry.resolved (Err Retry.exceeded) |}) users)
  = Some (map (fun user => (user, Err Retry.exceeded)) users).
Proof.
  apply mapM_Some. induction users as [|user users IH]; simpl; constructor;
    [reflexivity | exact IH].
Qed.

(** *** One attempt at least *)

Lemma untried_calls (task : Task) (w : World) :
  1 <= Retry.maxAttempts retryOptions ->
  untried options task ->
  exists stored,
    call clock options task w
    = Some ({| taskUser := taskUser task; taskRun := Retry.resolved (Ok stored) |},
            snd (upsertIn clock (taskUser task) options w)).
Proof.
  intros Hmax Hfresh. destruct (attempting_first Hmax) as (next & Hrun & Hnext).
  unfold untried in Hfresh. unfold call. rewrite Hfresh, Hrun.
  destruct (upsertIn_ok clock options (taskUser task) w) as (stored & Hstored).
  destruct (upsertIn clock (taskUser task) options w) as [r w'].
  simpl in Hstored. subst r. rewrite Hnext. eauto.
Qed.

Lemma untried_open (task : Task) :
  1 <= Retry.maxAttempts retryOptions ->
  untried options task -> forall r, taskRun task <> Retry.resolved r.
Proof.
  intros Hmax Hfresh r. destruct (attempting_first Hmax) as (next & Hrun & _).
  unfold untried in Hfresh. rewrite Hfresh, Hrun. discriminate.
Qed.

Lemma sequential_untried (users : list User) (acc : list User) :
  1 <= Retry.maxAttempts retryOptions ->
  sequential options users acc
  = match users with
    | [] => finished (Ok acc)
    | user :: rest => awaiting (retried options user) rest acc
    end.
Proof.
  intros Hmax. destruct (attempting_first Hmax) as (next & Hrun & _).
  destruct users as [|user rest]; [reflexivity |].
  simpl. unfold retried. rewrite Hrun. reflexivity.
Qed.

Lemma started_oneCallEach (users : list User) (w : World) :
  1 <= Retry.maxAttempts retryOptions ->
  oneCallEach users options (started users options w).
Proof.
  intros Hmax. unfold oneCallEach, started. simpl.
  rewrite (sequential_untried users [] Hmax).
  split; [| split].
  - destruct users as [|user rest]; simpl; [auto |].
    unfold upsertsOf. simpl. repeat split.
  - induction users as [|user rest IH]; simpl; constructor; [| exact IH].
    split; [reflexivity | left; reflexivity].
  - unfold upsertsOf, resolvedUsers. simpl.
    destruct (attempting_first Hmax) as (next & Hrun & _).
    induction users as [|user rest IH]; simpl; [reflexivity |].
    unfold retried at 1. simpl. rewrite Hrun. exact IH.
Qed.

Lemma turn_oneCallEach (users : list User) (t : Turn) (chains : Chains) :
  1 <= Retry.maxAttempts retryOptions ->
  oneCallEach users options chains ->
  oneCallEach users options (turn clock options t chains).
Proof.
  intros Hmax (Hseq & Htasks & Hconc). destruct t as [|index]; simpl.
  - destruct (sequentialChain chains) as [task rest acc|r] eqn:Hchain;
      [| unfold oneCallEach; rewrite Hchain; auto].
    destruct Hseq as (Hfresh & Husers & Hlen).
    destruct (untried_calls task (world chains) Hmax Hfresh) as (stored & ->).
    unfold oneCallEach, upsertsOf. simpl. rewrite !omap_app. simpl.
    rewrite app_nil_r. fold (upsertsOf bySequential chains).
    fold (upsertsOf byConcurrent chains).
    split; [| split; assumption].
    rewrite (sequential_untried rest _ Hmax).
    destruct rest as [|following rest]; simpl.
    + subst users. split; [reflexivity |].
      rewrite !length_app, Hlen. reflexivity.
    + subst users. split; [reflexivity |]. rewrite <- app_assoc.
      split; [reflexivity |]. rewrite !length_app, Hlen. reflexivity.
  - destruct (concurrentTasks chains !! index) as [task|] eqn:Htask;
      [| unfold oneCallEach; auto].
    destruct (Forall2_lookup_r _ _ _ _ _ Htasks Htask)
      as (user & Huser & Hname & Hstate).
    destruct Hstate as [Hfresh | (stored & Hstored)].
    2: { rewrite (call_resolved clock options task _ _ Hstored).
         unfold oneCallEach; auto. }
    destruct (untried_calls task (world chains) Hmax Hfresh) as (stored & ->).
    unfold oneCallEach, upsertsOf. simpl. rewrite !omap_app. simpl.
    rewrite app_nil_r. fold (upsertsOf bySequential chains).
    fold (upsertsOf byConcurrent chains).
    split; [exact Hseq |]. split.
    + rewrite <- (list_insert_id _ _ _ Huser).
      apply Forall2_insert; [exact Htasks |].
      split; [exact Hname | right; eauto].
    + rewrite resolvedUsers_insert
        by (try eassumption; apply untried_open; assumption).
      rewrite Hconc. symmetry. apply Permutation_cons_append.
Qed.

Lemma bulkRun_oneCallEach (users : list User) (schedule : list Turn) (w : World) :
  1 <= Retry.maxAttempts retryOptions ->
  oneCallEach users options (bulkRun clock users options schedule w).
Proof.
  intros Hmax. apply bulkRun_invariant.
  - apply started_oneCallEach, Hmax.
  - intros t chains. apply turn_oneCallEach, Hmax.
Qed.

Lemma run_oneCallEach (users : list User) (schedule : list Turn) :
  1 <= Retry.maxAttempts retryOptions ->
  forall chains,
    oneCallEach users options chains ->
    oneCallEach users options
      (foldl (fun chains t => turn clock options t chains) chains schedule).
Proof.
  intros Hmax. induction schedule as [|t schedule IH]; intros chains Hone;
    [exact Hone |].
  simpl. apply IH, turn_oneCallEach; assumption.
Qed.

(** *** The chains come to an end *)

(** A turn of the sequential chain takes one user off what it has still to
    upsert; a turn of a task takes none. *)
Lemma turn_outstanding (users : list User) (t : Turn) (chains : Chains) :
  1 <= Retry.maxAttempts retryOptions ->
  oneCallEach users options chains ->
  outstanding (sequentialChain (turn clock options t chains))
  = match t with
    | turnSequential => pred (outstanding (sequentialChain chains))
    | turnTask _ => outstanding (sequentialChain chains)
    end.
Proof.
  intros Hmax (Hseq & _ & _). destruct t as [|index]; simpl.
  - destruct (sequentialChain chains) as [task rest acc|r] eqn:Hchain;
      [| rewrite Hchain; reflexivity].
    destruct Hseq as (Hfresh & _ & _).
    destruct (untried_calls task (world chains) Hmax Hfresh) as (stored & ->).
    simpl. rewrite (sequential_untried rest _ Hmax).
    destruct rest; reflexivity.
  - destruct (concurrentTasks chains !! index) as [task|]; [| reflexivity].
    destruct (call clock options task (world chains)) as [[task' w']|];
      reflexivity.
Qed.

Lemma run_outstanding (users : list User) (schedule : list Turn) :
  1 <= Retry.maxAttempts retryOptions ->
  forall chains,
    oneCallEach users options chains ->
    outstanding
      (sequentialChain
         (foldl (fun chains t => turn clock options t chains) chains schedule))
    = (outstanding (sequentialChain chains) - sequentialTurns schedule)%nat.
Proof.
  intros Hmax. unfold sequentialTurns.
  induction schedule as [|t schedule IH]; intros chains Hone; simpl.
  - symmetry. apply Nat.sub_0_r.
  - rewrite (IH _ (turn_oneCallEach users t chains Hmax Hone)).
    rewrite (turn_outstanding users t chains Hmax Hone).
    destruct t; simpl; [| reflexivity].
    destruct (outstanding (sequentialChain chains)); reflexivity.
Qed.

Lemma started_outstanding (users : list User) (w : World) :
  1 <= Retry.maxAttempts retryOptions ->
  outstanding (sequentialChain (started users options w)) = length users.
Proof.
  intros Hmax. unfold started. simpl. rewrite (sequential_untried users [] Hmax).
  destruct users; reflexivity.
Qed.

(** A task that has resolved stays as it is. *)
Lemma turn_keeps_resolved (t : Turn) (chains : Chains) (index : nat)
    (task : Task) (r : Result User AppError) :
  concurrentTasks chains !! index = Some task ->
  taskRun task = Retry.resolved r ->
  concurrentTasks (turn clock options t chains) !! index = Some task.
Proof.
  intros Htask Hdone. destruct t as [|other]; simpl.
  - destruct (sequentialChain chains) as [waiting rest acc|]; [| exact Htask].
    destruct (call clock options waiting (world chains)) as [[task' w']|];
      exact Htask.
  - destruct (concurrentTasks chains !! other) as [called|] eqn:Hcalled;
      [| exact Htask].
    destruct (call clock options called (world chains)) as [[task' w']|] eqn:Hcall;
      [| exact Htask].
    simpl. destruct (decide (other = index)) as [-> | Hother].
    + rewrite Htask in Hcalled. injection Hcalled as <-.
      rewrite (call_resolved clock options task _ _ Hdone) in Hcall.
      discriminate.
    + rewrite list_lookup_insert_ne by exact Hother. exact Htask.
Qed.

Lemma run_keeps_resolved (schedule : list Turn) (index : nat) (task : Task)
    (r : Result User AppError) :
  taskRun task = Retry.resolved r ->
  forall chains,
    concurrentTasks chains !! index = Some task ->
    concurrentTasks
      (foldl (fun chains t => turn clock options t chains) chains schedule)
    !! index = Some task.
Proof.
  intros Hdone. induction schedule as [|t schedule IH]; intros chains Htask;
    [exact Htask |].
  simpl. apply IH. eapply turn_keeps_resolved; eassumption.
Qed.

(** The turn of a task resolves it. *)
Lemma turn_resolves (users : list User) (index : nat) (chains : Chains) :
  1 <= Retry.maxAttempts retryOptions ->
  oneCallEach users options chains ->
  (index < length users)%nat ->
  exists task stored,
    concurrentTasks (turn clock options (turnTask index) chains) !! index
    = Some task
    /\ taskRun task = Retry.resolved (Ok stored).
Proof.
  intros Hmax (_ & Htasks & _) Hindex.
  destruct (lookup_lt_is_Some_2 (concurrentTasks chains) index) as (task & Htask).
  { rewrite <- (Forall2_length _ _ _ Htasks). exact Hindex. }
  destruct (Forall2_lookup_r _ _ _ _ _ Htasks Htask)
    as (user & Huser & Hname & Hstate).
  simpl. rewrite Htask. destruct Hstate as [Hfresh | (stored & Hstored)].
  - destruct (untried_calls task (world chains) Hmax Hfresh) as (stored & ->).
    simpl. rewrite list_lookup_insert_eq
      by (apply lookup_lt_is_Some_1; eauto).
    eauto.
  - rewrite (call_resolved clock options task _ _ Hstored). eauto.
Qed.

Lemma run_resolves (users : list User) (schedule : list Turn) (index : nat) :
  1 <= Retry.maxAttempts retryOptions ->
  turnTask index ∈ schedule ->
  (index < length users)%nat ->
  forall chains,
    oneCallEach users options chains ->
    exists task stored,
      concurrentTasks
        (foldl (fun chains t => turn clock options t chains) chains schedule)
      !! index = Some task
      /\ taskRun task = Retry.resolved (Ok stored).
Proof.
  intros Hmax Hturn Hindex chains Hone.
  apply list_elem_of_split in Hturn as (before & after & ->).
  rewrite foldl_app. simpl.
  destruct (turn_resolves users index _ Hmax
              (run_oneCallEach users before Hmax chains Hone) Hindex)
    as (task & stored & Htask & Hstored).
  exists task, stored. split; [| exact Hstored].
  eapply run_keeps_resolved; eassumption.
Qed.

(** When every task has resolved to a stored user, the concurrent chain
    resolves, to a result without failures. *)
Lemma all_resolved (users : list User) (tasks : list Task) :
  Forall2 (fun user task =>
             taskUser task = user
             /\ exists stored, taskRun task = Retry.resolved (Ok stored))
          users tasks ->
  exists done,
    concurrentResult tasks = Some (Ok {| successes := done; failures := [] |})
    /\ length done = length users
    /\ resolvedUsers tasks = users.
Proof.
  intros Htasks.
  assert (Hitems : exists items done,
             Forall2 (fun task item => settled task = Some item) tasks items
             /\ aggregate items = {| successes := done; failures := [] |}
             /\ length done = length users
             /\ resolvedUsers tasks = users).
  { induction Htasks as [|user task users tasks (Hname & stored & Hstored) _ IH].
    - exists [], []. repeat split. constructor.
    - destruct IH as (items & done & Hitems & Hagg & Hlen & Hres).
      exists ((taskUser task, Ok stored) :: items), (stored :: done).
      split; [| split; [| split]].
      + constructor; [| exact Hitems]. unfold settled. rewrite Hstored.
        reflexivity.
      + rewrite aggregate_cons. simpl. rewrite Hagg. reflexivity.
      + simpl. rewrite Hlen. reflexivity.
      + rewrite resolvedUsers_cons, Hstored, Hres, Hname. reflexivity. }
  destruct Hitems as (items & done & Hitems & Hagg & Hlen & Hres).
  exists done. unfold concurrentResult.
  rewrite (mapM_Some_2 _ _ _ Hitems), Hagg. repeat split; assumption.
Qed.

Lemma served_resolved (users : list User) (schedule : list Turn) (w : World) :
  1 <= Retry.maxAttempts retryOptions ->
  servesTasks (length users) schedule ->
  Forall2 (fun user task =>
             taskUser task = user
             /\ exists stored, taskRun task = Retry.resolved (Ok stored))
          users (concurrentTasks (bulkRun clock users options schedule w)).
Proof.
  intros Hmax Hserved.
  pose proof (bulkRun_oneCallEach users schedule w Hmax) as (_ & Htasks & _).
  apply Forall2_same_length_lookup_2; [eapply Forall2_length; exact Htasks |].
  intros index user task Huser Htask.
  destruct (Forall2_lookup_lr _ _ _ _ _ _ Htasks Huser Htask) as (Hname & _).
  split; [exact Hname |].
  destruct (run_resolves users schedule index Hmax) with
    (chains := started users options w) as (task' & stored & Htask' & Hstored).
  - apply Hserved. apply lookup_lt_is_Some_1. eauto.
  - apply lookup_lt_is_Some_1. eauto.
  - apply started_oneCallEach, Hmax.
  - unfold bulkRun in Htask. rewrite Htask in Htask'. injection Htask' as <-.
    eauto.
Qed.

Lemma served_finished (users : list User) (schedule : list Turn) (w : World) :
  1 <= Retry.maxAttempts retryOptions ->
  (length users <= sequentialTurns schedule)%nat ->
  exists done,
    sequentialChain (bulkRun clock users options schedule w) = finished (Ok done)
    /\ length done = length users
    /\ upsertsOf bySequential (bulkRun clock users options schedule w) = users.
Proof.
  intros Hmax Hturns.
  pose proof (bulkRun_oneCallEach users schedule w Hmax) as (Hseq & _ & _).
  pose proof (run_outstanding users schedule Hmax _
                (started_oneCallEach users w Hmax)) as Hleft.
  rewrite (started_outstanding users w Hmax) in Hleft.
  fold (bulkRun clock users options schedule w) in Hleft.
  destruct (sequentialChain (bulkRun clock users options schedule w))
    as [task rest acc|[done|error]].
  - simpl in Hleft. lia.
  - destruct Hseq as (Hlog & Hlen). eauto.
  - destruct Hseq.
Qed.

(** What both chains have done when the call returns: every user is
    stored, and [upsert] has been called once at least and twice at most
    for each of them. *)
Lemma returned_world (users : list User) (schedule : list Turn) (w : World) :
  1 <= Retry.maxAttempts retryOptions ->
  upsertsOf bySequential (bulkRun clock users options schedule w) = users
  \/ upsertsOf byConcurrent (bulkRun clock users options schedule w) ≡ₚ users ->
  ids (world (bulkRun clock users options schedule w))
  = ids w ∪ list_to_set (map id users)
  /\ (reads w + length users
      <= reads (world (bulkRun clock users options schedule w))
      <= reads w + 2 * length users)%nat.
Proof.
  intros Hmax Hall.
  pose proof (bulkRun_oneCallEach users schedule w Hmax) as (Hseq & Htasks & Hconc).
  destruct (bulkRun_world clock options users schedule w) as (Hreads & Hids).
  pose proof (upsertsOf_lengths (bulkRun clock users options schedule w)) as Hlog.
  set (chains := bulkRun clock users options schedule w) in *.
  clearbody chains.
  assert (HseqIn : upsertsOf bySequential chains ⊆ users).
  { destruct (sequentialChain chains) as [task rest acc|[done|error]].
    - destruct Hseq as (_ & -> & _). intros user Huser.
      apply elem_of_app. left. exact Huser.
    - destruct Hseq as (-> & _). reflexivity.
    - destruct Hseq. }
  assert (HseqLen : (length (upsertsOf bySequential chains) <= length users)%nat).
  { destruct (sequentialChain chains) as [task rest acc|[done|error]].
    - destruct Hseq as (_ & -> & _). rewrite length_app. lia.
    - destruct Hseq as (-> & _). lia.
    - destruct Hseq. }
  assert (Hres : resolvedUsers (concurrentTasks chains) ⊆ users).
  { intros user Huser. unfold resolvedUsers in Huser.
    apply list_elem_of_omap in Huser as (task & Htask & Hsome).
    apply list_elem_of_lookup in Htask as (index & Htask).
    destruct (Forall2_lookup_r _ _ _ _ _ Htasks Htask)
      as (named & Hnamed & Hname & _).
    destruct (taskRun task); [| discriminate..]. injection Hsome as <-.
    rewrite Hname. eapply list_elem_of_lookup_2, Hnamed. }
  assert (HconcLen : (length (upsertsOf byConcurrent chains) <= length users)%nat).
  { rewrite Hconc, (Forall2_length _ _ _ Htasks). apply resolvedUsers_length. }
  split.
  - rewrite Hids, logged_ids.
    destruct Hall as [Hall | Hall].
    + rewrite Hall, (assoc_L (∪)). apply ids_within.
      intros user Huser. apply Hres. rewrite <- Hconc. exact Huser.
    + rewrite (comm_L (∪) (list_to_set (map id (upsertsOf bySequential chains)))).
      assert (Hsame : (list_to_set (map id (upsertsOf byConcurrent chains))
                       : gset string) = list_to_set (map id users)).
      { apply list_to_set_perm_L, Permutation_map, Hall. }
      rewrite Hsame, (assoc_L (∪)). apply ids_within. exact HseqIn.
  - rewrite Hreads, Hlog. destruct Hall as [Hall | Hall]; rewrite Hall in *; lia.
Qed.

(** A task that has settled has resolved to a stored user. *)
Lemma settled_stored (users : list User) (chains : Chains)
    (items : list (User * Result User AppError)) :
  1 <= Retry.maxAttempts retryOptions ->
  oneCallEach users options chains ->
  mapM settled (concurrentTasks chains) = Some items ->
  Forall2 (fun user task =>
             taskUser task = user
             /\ exists stored, taskRun task = Retry.resolved (Ok stored))
          users (concurrentTasks chains).
Proof.
  intros Hmax (_ & Htasks & _) Hitems. apply mapM_Some in Hitems.
  apply Forall2_same_length_lookup_2; [eapply Forall2_length; exact Htasks |].
  intros index user task Huser Htask.
  destruct (Forall2_lookup_lr _ _ _ _ _ _ Htasks Huser Htask)
    as (Hname & [Hfresh | Hstored]); [| split; assumption].
  destruct (Forall2_lookup_l _ _ _ _ _ Hitems Htask) as (item & _ & Hitem).
  unfold settled in Hitem.
  destruct (taskRun task) as [r| |] eqn:Hrun; [| discriminate..].
  destruct (untried_open task Hmax Hfresh r Hrun).
Qed.

(** What a call that has returned has returned. *)
Lemma returned_stored (users : list User) (schedule : list Turn) (w : World)
    (out : Result BulkUpsertResult AppError * World) :
  1 <= Retry.maxAttempts retryOptions ->
  bulkUpsert clock users options schedule w = Some out ->
  exists done,
    out = (Ok {| successes := done; failures := [] |},
           world (bulkRun clock users options schedule w))
    /\ length done = length users
    /\ (upsertsOf bySequential (bulkRun clock users options schedule w) = users
        \/ upsertsOf byConcurrent (bulkRun clock users options schedule w)
           ≡ₚ users).
Proof.
  intros Hmax. unfold bulkUpsert.
  pose proof (bulkRun_oneCallEach users schedule w Hmax) as Hone.
  destruct (failFast options).
  - destruct Hone as (Hseq & _ & _).
    destruct (sequentialChain (bulkRun clock users options schedule w))
      as [task rest acc|[done|error]]; simpl; [discriminate | | destruct Hseq].
    intros [= <-]. destruct Hseq as (Hlog & Hlen). eauto.
  - unfold concurrentResult at 1.
    destruct (mapM settled _) as [items|] eqn:Hitems; [| discriminate].
    pose proof (settled_stored users _ items Hmax Hone Hitems) as Hstored.
    destruct (all_resolved users _ Hstored) as (done & Hresult & Hlen & Hres).
    unfold concurrentResult in Hresult. rewrite Hitems in Hresult.
    injection Hresult as ->. intros [= <-]. exists done.
    split; [reflexivity |]. split; [exact Hlen |]. right.
    destruct Hone as (_ & _ & ->). rewrite Hres. reflexivity.
Qed.

(** The call returns once the chain it takes its result from has had its
    turns. *)
Lemma served_returns (users : list User) (schedule : list Turn) (w : World) :
  1 <= Retry.maxAttempts retryOptions ->
  (if failFast options then (length users <= sequentialTurns schedule)%nat
   else servesTasks (length users) schedule) ->
  exists out, bulkUpsert clock users options schedule w = Some out.
Proof.
  intros Hmax Hserved. unfold bulkUpsert. destruct (failFast options).
  - destruct (served_finished users schedule w Hmax Hserved) as (done & -> & _).
    simpl. eauto.
  - pose proof (served_resolved users schedule w Hmax Hserved) as Hstored.
    destruct (all_resolved users _ Hstored) as (done & -> & _). eauto.
Qed.

End Memory.

Section InMemory.
Context {ops : StringOps}.
Variable clock : nat -> Z.
Variable retryOptions : Retry.RetryOptions.

(** C3. With [failFast] set the concurrent chain runs as well: the
    executor of [createRetryExecutor] with one attempt at least, the
    in-memory repository, and a schedule that lets the sequential chain and
    every task have their turns.  The call returns what the sequential
    chain has stored, the sequential chain has called [upsert] for the
    users in the order of the input, and the tasks have called [upsert] for
    every user once more: the clock has been read twice for each user. *)
Theorem bulkUpsert_failFast_runs_both_chains (key : option string)
    (users : list User) (schedule : list Turn) (w : World) :
  1 <= Retry.maxAttempts retryOptions ->
  (length users <= sequentialTurns schedule)%nat ->
  servesTasks (length users) schedule ->
  let options := {| bulkIdempotencyKey := key;
                    retry := retryExecutor retryOptions;
                    failFast := true |} in
  let chains := bulkRun clock users options schedule w in
  exists done,
    bulkUpsert clock users options schedule w
    = Some (Ok {| successes := done; failures := [] |}, world chains)
    /\ upsertsOf bySequential chains = users
    /\ upsertsOf byConcurrent chains ≡ₚ users
    /\ reads (world chains) = (reads w + 2 * length users)%nat.
Proof.
  intros Hmax Hturns Hserved options chains. subst chains.
  destruct (served_finished clock retryOptions options eq_refl users schedule w
              Hmax Hturns) as (done & Hchain & _ & Hseq).
  pose proof (served_resolved clock retryOptions options eq_refl users schedule w
                Hmax Hserved) as Hstored.
  destruct (all_resolved users _ Hstored) as (_ & _ & _ & Hres).
  pose proof (bulkRun_oneCallEach clock retryOptions options eq_refl users
                schedule w Hmax) as (_ & _ & Hconc).
  exists done. split; [| split; [exact Hseq | split]].
  - unfold bulkUpsert. simpl. rewrite Hchain. reflexivity.
  - rewrite Hconc, Hres. reflexivity.
  - destruct (bulkRun_world clock options users schedule w) as (-> & _).
    rewrite upsertsOf_lengths, Hseq, Hconc, Hres. lia.
Qed.


(** X9. With [maxAttempts] at zero or below no upsert is attempted, by
    either chain and whatever the schedule, and the repository stays as it
    is.  With [failFast] a batch that is not empty fails with "Retry
    exceeded attempts"; without it the call succeeds and reports every user
    as a failure with that error, in the order of the batch. *)
Theorem bulkUpsert_no_attempts (key : option string) (users : list User)
    (schedule : list Turn) (w : World) :
  Retry.maxAttempts retryOptions <= 0 ->
  bulkUpsert clock users
    {| bulkIdempotencyKey := key; retry := retryExecutor retryOptions;
       failFast := true |} schedule w
  = Some (match users with
          | [] => Ok {| successes := []; failures := [] |}
          | _ => Err Retry.exceeded
          end, w)
  /\ bulkUpsert clock users
       {| bulkIdempotencyKey := key; retry := retryExecutor retryOptions;
          failFast := false |} schedule w
     = Some (Ok {| successes := [];
                   failures := map (fun user => {| failedUser := user;
                                                   failedWith := Retry.exceeded |})
                                   users |}, w).
Proof.
  intros Hmax. unfold bulkUpsert. split.
  - match goal with
    | |- context [bulkRun clock users ?options schedule w] =>
        rewrite (bulkRun_never clock retryOptions options eq_refl users
                   schedule w Hmax),
          (started_never retryOptions options eq_refl users w Hmax)
    end.
    destruct users; reflexivity.
  - match goal with
    | |- context [bulkRun clock users ?options schedule w] =>
        rewrite (bulkRun_never clock retryOptions options eq_refl users
                   schedule w Hmax),
          (started_never retryOptions options eq_refl users w Hmax)
    end.
    simpl. unfold concurrentResult. rewrite settled_never, aggregate_all_failed.
    reflexivity.
Qed.

End InMemory.

Section AnyExecutor.
Context {ops : StringOps}.
Variable clock : nat -> Z.

(** X7. Without [failFast], whatever the retry executor does and in
    whatever order the two chains take their turns, a bulk upsert that has
    resolved has not resolved to an error: every user is counted once, as a
    success or as a failure, and the failures list the users that failed in
    the order of the input. *)
Theorem bulkUpsert_bestEffort_partitions (executor : RetryExecutor)
    (key : option string) (users : list User) (schedule : list Turn)
    (w : World) (out : Result BulkUpsertResult AppError * World) :
  bulkUpsert clock users
    {| bulkIdempotencyKey := key; retry := executor; failFast := false |}
    schedule w
  = Some out ->
  exists result,
    fst out = Ok result
    /\ (length (successes result) + length (failures result) = length users)%nat
    /\ map failedUser (failures result) `sublist_of` users.
Proof.
  unfold bulkUpsert, concurrentResult. simpl.
  destruct (mapM settled _) as [items|] eqn:Hitems; [| discriminate].
  intros [= <-]. exists (aggregate items).
  destruct (aggregate_partition items) as (Hn & Hs).
  apply settled_users in Hitems. rewrite bulkRun_tasks in Hitems.
  rewrite Hitems in Hs. split; [reflexivity |]. split; [| exact Hs].
  rewrite Hn, <- Hitems, length_map. reflexivity.
Qed.

(** X28. With [failFast], whatever the retry executor does and in
    whatever order the two chains take their turns, a bulk upsert that has
    resolved has resolved to an error or to a result with a stored user for
    every user and no failure: there is no partial result.  Nothing is
    rolled back: the ids that were stored are still stored, with the ids of
    the users either chain has called [upsert] for, and the clock has been
    read once by every call. *)
Theorem bulkUpsert_failFast_all_or_error (executor : RetryExecutor)
    (key : option string) (users : list User) (schedule : list Turn)
    (w : World) (out : Result BulkUpsertResult AppError * World) :
  bulkUpsert clock users
    {| bulkIdempotencyKey := key; retry := executor; failFast := true |}
    schedule w
  = Some out ->
  match fst out with
  | Ok result =>
      failures result = [] /\ length (successes result) = length users
  | Err _ => True
  end
  /\ exists calls : list (Origin * User),
       ids (snd out)
       = ids w ∪ list_to_set (map (fun entry => id (snd entry)) calls)
       /\ reads (snd out) = (reads w + length calls)%nat
       /\ Forall (fun entry => snd entry ∈ users) calls.
Proof.
  unfold bulkUpsert. simpl.
  match goal with
  | |- context [bulkRun clock users ?options schedule w] =>
      pose proof (bulkRun_accounted clock options users schedule w) as Hacc;
      destruct (bulkRun_world clock options users schedule w) as (Hreads & Hids);
      pose proof (bulkRun_logged clock options users schedule w) as Hlogged;
      set (chains := bulkRun clock users options schedule w) in *
  end.
  clearbody chains.
  destruct (sequentialChain chains) as [task rest acc|[done|error]];
    simpl; [discriminate | |]; intros [= <-]; simpl.
  - split; [split; [reflexivity | exact Hacc] |]. eauto.
  - split; [exact I |]. eauto.
Qed.

End AnyExecutor.

Lemma firstThenTasks_serves :
  servesTasks 3 (firstThenTasks 3) /\ servesTasks 2 (firstThenTasks 2).
Proof.
  split; intros index Hindex; apply list_elem_of_In.
  - destruct index as [|[|[|index]]]; [simpl; tauto.. | lia].
  - destruct index as [|[|index]]; [simpl; tauto.. | lia].
Qed.

(** Three users, the executor of the container and [failFast]: the
    sequential chain calls [upsert] for [ada], the three tasks call it for
    all three, and the sequential chain goes on with the other two.  Six
    calls have read the clock when the call returns. *)
Lemma bulkUpsert_failFast_runs_both_witness :
  1 <= Retry.maxAttempts threeAttempts
  /\ (length [ada; alan; grace] <= sequentialTurns (firstThenTasks 3))%nat
  /\ servesTasks (length [ada; alan; grace]) (firstThenTasks 3)
  /\ exists done,
       bulkUpsert (ops := AsciiStrings) everySecond [ada; alan; grace]
         (batchOptions true) (firstThenTasks 3) startOfDay
       = Some (Ok {| successes := done; failures := [] |},
               world (bulkRun (ops := AsciiStrings) everySecond
                        [ada; alan; grace] (batchOptions true)
                        (firstThenTasks 3) startOfDay))
       /\ upserts (bulkRun (ops := AsciiStrings) everySecond [ada; alan; grace]
                     (batchOptions true) (firstThenTasks 3) startOfDay)
          = [(bySequential, ada); (byConcurrent, ada); (byConcurrent, alan);
             (byConcurrent, grace); (bySequential, alan); (bySequential, grace)]
       /\ reads (world (bulkRun (ops := AsciiStrings) everySecond
                          [ada; alan; grace] (batchOptions true)
                          (firstThenTasks 3) startOfDay)) = 6%nat.
Proof.
  assert (Hmax : 1 <= Retry.maxAttempts threeAttempts) by (vm_compute; discriminate).
  assert (Hturns : (length [ada; alan; grace]
                    <= sequentialTurns (firstThenTasks 3))%nat)
    by (vm_compute; lia).
  pose proof (proj1 firstThenTasks_serves) as Hserved.
  split; [exact Hmax |]. split; [exact Hturns |]. split; [exact Hserved |].
  destruct (bulkUpsert_failFast_runs_both_chains (ops := AsciiStrings)
              everySecond threeAttempts (Some "batch-1"%string)
              [ada; alan; grace] (firstThenTasks 3) startOfDay
              Hmax Hturns Hserved) as (done & Hrun & _ & _ & Hreads).
  exists done. split; [exact Hrun |]. split; [reflexivity | exact Hreads].
Defined.

(** Three users and no attempt allowed: every user is a failure. *)
Lemma bulkUpsert_bestEffort_witness :
  exists out result,
    bulkUpsert (ops := AsciiStrings) everySecond [ada; alan; grace]
      {| bulkIdempotencyKey := Some "batch-1"%string;
         retry := retryExecutor noAttempts; failFast := false |}
      (firstThenTasks 3) startOfDay = Some out
    /\ fst out = Ok result
    /\ map failedUser (failures result) = [ada; alan; grace]
    /\ (length (successes result) + length (failures result) = 3)%nat
    /\ map failedUser (failures result) `sublist_of` [ada; alan; grace].
Proof.
  destruct (bulkUpsert (ops := AsciiStrings) everySecond [ada; alan; grace]
              {| bulkIdempotencyKey := Some "batch-1"%string;
                 retry := retryExecutor noAttempts; failFast := false |}
              (firstThenTasks 3) startOfDay) as [out|] eqn:Hrun;
    [| vm_compute in Hrun; discriminate].
  destruct (bulkUpsert_bestEffort_partitions (ops := AsciiStrings) everySecond
              (retryExecutor noAttempts) (Some "batch-1"%string)
              [ada; alan; grace] (firstThenTasks 3) startOfDay
              out Hrun) as (result & Hres & Hn & Hs).
  exists out, result. split; [reflexivity |]. split; [exact Hres |].
  split; [| split; [exact Hn | exact Hs]].
  vm_compute in Hrun. injection Hrun as <-. simpl in Hres.
  injection Hres as <-. reflexivity.
Defined.

(** Three users, the executor of the container and [failFast]: a stored
    user for each. *)
Lemma bulkUpsert_failFast_all_witness :
  exists out result,
    bulkUpsert (ops := AsciiStrings) everySecond [ada; alan; grace]
      (batchOptions true) (firstThenTasks 3) startOfDay = Some out
    /\ fst out = Ok result
    /\ failures result = []
    /\ length (successes result) = 3%nat.
Proof.
  destruct (bulkUpsert (ops := AsciiStrings) everySecond [ada; alan; grace]
              (batchOptions true) (firstThenTasks 3) startOfDay)
    as [[[result|failure] w']|] eqn:Hrun;
    [| vm_compute in Hrun; discriminate | vm_compute in Hrun; discriminate].
  destruct (bulkUpsert_failFast_all_or_error (ops := AsciiStrings) everySecond
              (retryExecutor threeAttempts) (Some "batch-1"%string)
              [ada; alan; grace] (firstThenTasks 3) startOfDay
              (Ok result, w') Hrun) as ((Hnone & Hall) & _).
  exists (Ok result, w'), result. auto.
Defined.


Lemma bulkUpsert_no_attempts_witness :
  Retry.maxAttempts noAttempts <= 0
  /\ bulkUpsert (ops := AsciiStrings) everySecond [ada; alan]
       {| bulkIdempotencyKey := None; retry := retryExecutor noAttempts;
          failFast := true |} (firstThenTasks 2) startOfDay
     = Some (Err Retry.exceeded, startOfDay).
Proof.
  split; [vm_compute; discriminate |].
  destruct (bulkUpsert_no_attempts (ops := AsciiStrings) everySecond
              noAttempts None [ada; alan] (firstThenTasks 2) startOfDay)
    as (Hfast & _).
  - vm_compute. discriminate.
  - exact Hfast.
Defined.

End BulkMore.

(** ** More on the policies *)

Module PolicyMore.
Import Errors Models Policies Fixtures.

Section Evaluation.
Context {ops : StringOps}.

(** X10. What an evaluation can return.  An accepted user is the incoming
    user, after one or two lookups.  A skip carries a policy error whose code
    tells the lookups made: none for a disposable address, the id for a
    stale update, the id and the email for a duplicate.  An error is the
    one the repository returned from the last lookup; the policies have no
    error of their own. *)
Theorem evaluatePolicies_outcomes (user : User) (deps : PolicyDependencies) :
  match evaluatePolicies user deps with
  | (Ok (accept accepted), lookups) =>
      accepted = user
      /\ (lookups = [LookupById (id user)]
          \/ lookups = [LookupById (id user); LookupByEmail (email user)])
  | (Ok (skip _ error), lookups) =>
      type error = PolicyError
      /\ ((code error = POLICY_DISPOSABLE_EMAIL /\ lookups = [])
          \/ (code error = POLICY_STALE_UPDATE /\ lookups = [LookupById (id user)])
          \/ (code error = POLICY_DUPLICATE
              /\ lookups = [LookupById (id user); LookupByEmail (email user)]))
  | (Err error, lookups) =>
      (findById (repo deps) (id user) = Err error
       /\ lookups = [LookupById (id user)])
      \/ (findByEmail (repo deps) (email user) = Err error
          /\ lookups = [LookupById (id user); LookupByEmail (email user)])
  end.
Proof.
  unfold evaluatePolicies.
  destruct (isDisposable (domainOf user) (isDisposableDomain deps)).
  { simpl. auto. }
  unfold resolveById, resolveByEmail.
  destruct (findById (repo deps) (id user)) as [[matched|]|error]; simpl.
  - destruct (updatedAt matched >=? updatedAt user); simpl; auto 6.
  - destruct (findByEmail (repo deps) (email user)) as [[matched|]|error]; simpl.
    + destruct (String.eqb _ _); simpl; auto 8.
    + auto.
    + auto.
  - auto.
Qed.

(** The policies accept the incoming user as it is. *)
Lemma accept_incoming (user accepted : User) (deps : PolicyDependencies) :
  fst (evaluatePolicies user deps) = Ok (accept accepted) -> accepted = user.
Proof.
  unfold evaluatePolicies.
  destruct (isDisposable (domainOf user) (isDisposableDomain deps));
    [discriminate |].
  unfold resolveById, resolveByEmail, toSkip.
  destruct (findById (repo deps) (id user)) as [[matched|]|error]; simpl.
  - destruct (updatedAt matched >=? updatedAt user); simpl; congruence.
  - destruct (findByEmail (repo deps) (email user)) as [[matched|]|error]; simpl;
      [destruct (String.eqb _ _) | |]; simpl; congruence.
  - discriminate.
Qed.

(** Over the in-memory repository an evaluation never fails. *)
Lemma evaluatePolicies_memory (user : User) (repo : Repo.MemoryUserRepository)
    (custom : option (string -> bool)) :
  exists outcome,
    fst (evaluatePolicies user {| repo := readsOf repo;
                                  isDisposableDomain := custom |}) = Ok outcome.
Proof.
  unfold evaluatePolicies. simpl.
  destruct (isDisposable (domainOf user) custom); simpl; [eauto |].
  unfold resolveById, resolveByEmail, Repo.findById, Repo.findByEmail. simpl.
  destruct (Repo.byId repo !! id user) as [matched|]; simpl.
  - destruct (_ >=? _); eauto.
  - match goal with
    | |- context [Repo.cloneUser <$> ?found] => destruct found as [matched|]
    end; simpl; [destruct (String.eqb _ _) |]; eauto.
Qed.

(** X11. A user that was just written is stale: the evaluation of the same
    user over the repository the upsert left skips it as a stale update,
    because a stored time stamp that equals the incoming one counts as not
    older.  Importing a file a second time persists none of the rows the
    first import wrote. *)
Theorem reimport_is_stale (now : Z) (user : User)
    (options : option Repo.UpsertOptions) (repo : Repo.MemoryUserRepository)
    (custom : option (string -> bool)) :
  Repo.cached now user options repo = None ->
  isDisposable (domainOf user) custom = false ->
  let stored := {| id := id user; name := name user;
                   email := toLowerCase (email user); age := age user;
                   updatedAt := updatedAt user |} in
  evaluatePolicies user
    {| repo := readsOf (snd (Repo.upsert now user options repo));
       isDisposableDomain := custom |}
  = (Ok (skip user (staleError stored user)), [LookupById (id user)]).
Proof.
  intros Hfresh Hkeep stored.
  destruct (RepoMore.upsert_written now user options repo Hfresh)
    as (_ & HbyId & _).
  fold stored in HbyId.
  unfold evaluatePolicies. simpl. rewrite Hkeep.
  unfold resolveById, Repo.findById. simpl. rewrite HbyId, lookup_insert_eq. simpl.
  rewrite Z.geb_leb, Z.leb_refl. reflexivity.
Qed.

(** X12. A user that arrives under a new id with the email and the name of
    a user that was just written, in whatever letter case, is skipped as a
    duplicate; the skip carries the stored user, not the incoming one. *)
Theorem duplicate_after_upsert (now : Z) (user incoming : User)
    (options : option Repo.UpsertOptions) (repo : Repo.MemoryUserRepository)
    (custom : option (string -> bool)) :
  Repo.cached now user options repo = None ->
  isDisposable (domainOf incoming) custom = false ->
  id user <> ""%string ->
  id incoming <> id user ->
  Repo.byId repo !! id incoming = None ->
  toLowerCase (email incoming) = toLowerCase (email user) ->
  toLowerCase (name incoming) = toLowerCase (name user) ->
  let stored := {| id := id user; name := name user;
                   email := toLowerCase (email user); age := age user;
                   updatedAt := updatedAt user |} in
  evaluatePolicies incoming
    {| repo := readsOf (snd (Repo.upsert now user options repo));
       isDisposableDomain := custom |}
  = (Ok (skip stored (duplicateError stored)),
     [LookupById (id incoming); LookupByEmail (email incoming)]).
Proof.
  intros Hfresh Hkeep Hid Hother Hnew Hmail Hname stored.
  destruct (RepoMore.upsert_written now user options repo Hfresh)
    as (_ & HbyId & HbyEmail & _).
  fold stored in HbyId.
  unfold evaluatePolicies. simpl. rewrite Hkeep.
  unfold resolveById, resolveByEmail, Repo.findById, Repo.findByEmail. simpl.
  rewrite HbyId, HbyEmail.
  rewrite lookup_insert_ne by congruence. rewrite Hnew. simpl.
  rewrite Hmail, lookup_insert_eq.
  apply RepoFacts.truthyString_true in Hid. rewrite Hid.
  rewrite lookup_insert_eq. simpl. rewrite Hname, String.eqb_refl. reflexivity.
Qed.

End Evaluation.

Lemma reimport_is_stale_witness :
  fst (evaluatePolicies (ops := AsciiStrings) grace
         {| repo := readsOf (ops := AsciiStrings)
                      (snd (Repo.upsert (ops := AsciiStrings) 1000 grace None
                              (emptyRepo 60000)));
            isDisposableDomain := None |})
  = Ok (skip grace
          (staleError {| id := "user-123"; name := "Grace Hopper";
                         email := "grace@example.com"; age := 50;
                         updatedAt := 1704067200000 |} grace)).
Proof.
  rewrite (reimport_is_stale (ops := AsciiStrings) 1000 grace None
             (emptyRepo 60000) None); reflexivity.
Defined.

Lemma duplicate_after_upsert_witness :
  fst (evaluatePolicies (ops := AsciiStrings) adaTwin
         {| repo := readsOf (ops := AsciiStrings)
                      (snd (Repo.upsert (ops := AsciiStrings) 1000 ada None
                              (emptyRepo 60000)));
            isDisposableDomain := None |})
  = Ok (skip ada (duplicateError ada)).
Proof.
  rewrite (duplicate_after_upsert (ops := AsciiStrings) 1000 ada adaTwin None
             (emptyRepo 60000) None); try reflexivity; discriminate.
Defined.

End PolicyMore.

(** ** More on the domain distribution *)

Module ReportMore.
Import Models Report Fixtures.

Lemma place_perm {A : Type} (compare : A -> A -> Z) (x : A) (l : list A) :
  place compare x l ≡ₚ x :: l.
Proof.
  induction l as [|y rest IH]; simpl; [reflexivity |].
  destruct (compare x y <=? 0); [reflexivity |].
  rewrite IH. apply perm_swap.
Qed.

(** The sort moves the entries and neither drops nor repeats one. *)
Lemma sortStable_perm {A : Type} (compare : A -> A -> Z) (l : list A) :
  sortStable compare l ≡ₚ l.
Proof.
  induction l as [|x rest IH]; simpl; [reflexivity |].
  rewrite place_perm, IH. reflexivity.
Qed.

Lemma sorted_NoDup {A : Type} (R : relation A) (l : list A) :
  Irreflexive R -> StronglySorted R l -> NoDup l.
Proof.
  intros Hirr. induction 1 as [|x rest Hrest IH Hx]; [constructor |].
  apply NoDup_cons_2; [| exact IH].
  intros Hin. rewrite Forall_forall in Hx. exact (Hirr x (Hx x Hin)).
Qed.

Lemma mapGet_present (key : string) (value : Z) (m : list (string * Z)) :
  mapGet key m = Some value -> key ∈ map fst m.
Proof.
  induction m as [|[k v] rest IH]; simpl; [discriminate |].
  destruct (String.eqb_spec k key) as [->|Hne].
  - intros _. apply elem_of_cons. auto.
  - intros Hrest. apply elem_of_cons. auto.
Qed.

Lemma occurrences_present (d : string) (users : list User) :
  occurrences d users <> 0 <-> d ∈ map domainOf users.
Proof.
  unfold occurrences. rewrite list_elem_of_In, (count_occ_In string_dec). lia.
Qed.

(** The keys of the map are the domains of the users. *)
Lemma tallied_keys (users : list User) (m : list (string * Z)) :
  tallied users m ->
  NoDup (map fst m) /\ forall d, d ∈ map fst m <-> d ∈ map domainOf users.
Proof.
  intros (Hsorted & Hget). split.
  - eapply sorted_NoDup; [| exact Hsorted].
    intros d. unfold complement, seenBefore. lia.
  - intros d. rewrite <- occurrences_present. split.
    + intros Hin. apply list_elem_of_In, ReportFacts.mapGet_key in Hin as (v & Hv).
      rewrite Hget in Hv.
      destruct (Z.eqb_spec (occurrences d users) 0); [discriminate | assumption].
    + intros Hocc. specialize (Hget d).
      destruct (Z.eqb_spec (occurrences d users) 0); [contradiction |].
      eapply mapGet_present, Hget.
Qed.

Lemma mapSet_sum (key : string) (value : Z) (m : list (string * Z)) :
  fold_right Z.add 0 (map snd (mapSet key value m))
  = fold_right Z.add 0 (map snd m) + value - default 0 (mapGet key m).
Proof.
  induction m as [|[k v] rest IH]; simpl; [lia |].
  destruct (String.eqb k key); simpl; lia.
Qed.

(** Every user adds one to the sum of the counts. *)
Lemma countDomain_sum (users : list User) :
  forall acc,
    fold_right Z.add 0 (map snd (fold_left countDomain users acc))
    = fold_right Z.add 0 (map snd acc) + Z.of_nat (length users).
Proof.
  induction users as [|user users IH]; intros acc; simpl fold_left.
  - simpl. lia.
  - rewrite IH. unfold countDomain. rewrite mapSet_sum. simpl length. lia.
Qed.

Lemma sum_perm (l k : list Z) :
  l ≡ₚ k -> fold_right Z.add 0 l = fold_right Z.add 0 k.
Proof.
  induction 1; simpl; lia.
Qed.

(** X13. The domain distribution lists no domain twice and only domains of
    the users; it has [limit] entries, or one for every domain when there
    are fewer domains than that.  When no domain is cut off, every domain
    of a user is listed and the counts add up to the number of users. *)
Theorem topDomains_distribution (users : list User) (limit : nat) :
  NoDup (map domain (topDomains users limit))
  /\ (forall d, d ∈ map domain (topDomains users limit) ->
                d ∈ map domainOf users)
  /\ length (topDomains users limit)
     = (limit `min` length (remove_dups (map domainOf users)))%nat
  /\ ((length (remove_dups (map domainOf users)) <= limit)%nat ->
      (forall user, user ∈ users ->
                    domainOf user ∈ map domain (topDomains users limit))
      /\ fold_right Z.add 0 (map count (topDomains users limit))
         = Z.of_nat (length users)).
Proof.
  destruct (tallied_keys users _ (ReportFacts.tallied_users users))
    as (Hnodup & Hkeys).
  unfold topDomains.
  set (sorted := sortStable (fun a b => snd b - snd a)
                   (fold_left countDomain users [])).
  assert (Hperm : sorted ≡ₚ fold_left countDomain users [])
    by apply sortStable_perm.
  assert (Hdomains : forall l : list (string * Z),
             map domain (map (fun entry => {| domain := fst entry;
                                              count := snd entry |}) l)
             = map fst l).
  { intros l. rewrite map_map. reflexivity. }
  assert (Hcounts : forall l : list (string * Z),
             map count (map (fun entry => {| domain := fst entry;
                                             count := snd entry |}) l)
             = map snd l).
  { intros l. rewrite map_map. reflexivity. }
  assert (Hsize : length sorted = length (remove_dups (map domainOf users))).
  { rewrite (Permutation_length Hperm).
    rewrite <- (length_map fst (fold_left countDomain users [])).
    apply Permutation_length, NoDup_Permutation.
    - exact Hnodup.
    - apply NoDup_remove_dups.
    - intros d. rewrite elem_of_remove_dups. apply Hkeys. }
  rewrite Hdomains.
  split; [| split; [| split]].
  - apply (sublist_NoDup _ (map fst sorted)).
    + rewrite (Permutation_map fst Hperm). exact Hnodup.
    + rewrite <- firstn_map. apply sublist_take.
  - intros d Hin. apply Hkeys.
    rewrite <- firstn_map in Hin.
    apply (fun H => elem_of_sublist _ _ _ H (sublist_take _ _)) in Hin.
    revert Hin. apply elem_of_Permutation_proper, Permutation_map.
    symmetry. exact Hperm.
  - rewrite length_map, length_take, Hsize. reflexivity.
  - intros Hall. rewrite Hcounts, take_ge by (rewrite Hsize; exact Hall).
    split.
    + intros user Hin.
      assert (Hd : domainOf user ∈ map fst (fold_left countDomain users [])).
      { apply Hkeys. apply list_elem_of_In, in_map, list_elem_of_In, Hin. }
      revert Hd. apply elem_of_Permutation_proper, Permutation_map. exact Hperm.
    + rewrite (sum_perm _ _ (Permutation_map snd Hperm)).
      rewrite countDomain_sum. simpl. lia.
Qed.

End ReportMore.

(** ** The pipeline *)

Module PipelineFacts.
Import Errors Models Pipeline Fixtures.

Section Run.
Context {ops : StringOps}.
Variable validateRawUser : RawUser -> Result User AppError.
Variable buildReport : ReportInput -> string.
Variable clock : nat -> Z.

(** What the accumulation has added when it completes. *)
Lemma accumulate_shape (records : list (Result RawUser Rejection)) :
  forall (stopEarly : bool) (repo : Repo.MemoryUserRepository)
         (acc out : PipelineAccumulator),
    accumulateRecords validateRawUser records stopEarly repo acc = Ok out ->
    exists valid invalid skippedNow,
      acc_total out = acc_total acc + Z.of_nat (length records)
      /\ validUsers out = validUsers acc ++ valid
      /\ validationErrors out = validationErrors acc ++ invalid
      /\ acc_skipped out = acc_skipped acc ++ skippedNow
      /\ (length valid + length invalid + length skippedNow = length records)%nat
      /\ (stopEarly = true -> invalid = [])
      /\ Forall (fun failure => stage failure = validation) invalid
      /\ Forall (fun user =>
                   fst (Policies.evaluatePolicies user
                          {| Policies.repo := Policies.readsOf repo;
                             Policies.isDisposableDomain := None |})
                   = Ok (Policies.accept user)) valid.
Proof.
  induction records as [|[raw|[error|value]] rest IH];
    intros stopEarly repo acc out; simpl; [| | discriminate | discriminate].
  - intros [= <-]. exists [], [], []. rewrite !app_nil_r.
    repeat split; auto; lia.
  - unfold handleRecord. destruct (validateRawUser raw) as [user|invalidity].
    + destruct (fst (Policies.evaluatePolicies user _))
        as [[accepted|skippedUser reason]|failure] eqn:Hpolicy; [| | discriminate];
        intros Hrest;
        destruct (IH _ _ _ _ Hrest)
          as (valid & invalid & skippedNow & Ht & Hv & Hi & Hs & Hn & Hff & Hst & Hok);
        simpl in Ht, Hv, Hi, Hs.
      * pose proof (PolicyMore.accept_incoming _ _ _ Hpolicy) as ->.
        exists (user :: valid), invalid, skippedNow.
        rewrite Hv, <- app_assoc. simpl length.
        repeat split; auto; lia.
      * exists valid, invalid, ((skippedUser, reason) :: skippedNow).
        rewrite Hs, <- app_assoc. simpl length.
        repeat split; auto; lia.
    + destruct stopEarly; [discriminate |]. intros Hrest.
      destruct (IH _ _ _ _ Hrest)
        as (valid & invalid & skippedNow & Ht & Hv & Hi & Hs & Hn & Hff & Hst & Hok);
        simpl in Ht, Hv, Hi, Hs.
      exists valid,
        (toErrorRecord validation invalidity [("raw"%string, JRecord (rawFields raw))]
         :: invalid), skippedNow.
      rewrite Hi, <- app_assoc. simpl length.
      repeat split; auto; try lia; discriminate.
Qed.

(** X14. When the accumulation of a run completes, every record it read
    went to one of the three lists: the accepted users, the validation
    errors, the policy skips.  The total is the number of records, with
    [failFast] no validation error was gathered, and every accepted user
    was accepted by the policies over the repository as it was before the
    run: a row is never checked against the rows before it. *)
Theorem accumulateRecords_accounts (records : list (Result RawUser Rejection))
    (stopEarly : bool) (repo : Repo.MemoryUserRepository)
    (out : PipelineAccumulator) :
  accumulateRecords validateRawUser records stopEarly repo initial = Ok out ->
  acc_total out = Z.of_nat (length records)
  /\ (length (validUsers out) + length (validationErrors out)
      + length (acc_skipped out) = length records)%nat
  /\ (stopEarly = true -> validationErrors out = [])
  /\ Forall (fun failure => stage failure = validation) (validationErrors out)
  /\ Forall (fun user =>
               fst (Policies.evaluatePolicies user
                      {| Policies.repo := Policies.readsOf repo;
                         Policies.isDisposableDomain := None |})
               = Ok (Policies.accept user)) (validUsers out).
Proof.
  intros Hrun.
  destruct (accumulate_shape _ _ _ _ _ Hrun)
    as (valid & invalid & skippedNow & Ht & Hv & Hi & Hs & Hn & Hff & Hst & Hok).
  simpl in Ht, Hv, Hi, Hs. subst valid invalid skippedNow.
  split; [exact Ht |]. split; [exact Hn |]. split; [exact Hff |].
  split; assumption.
Qed.

(** X15. The statistics of a run that completes add up: every record
    read was persisted, skipped or failed; the validated records are those
    persisted, skipped or failed in persistence; the errors are the
    validation errors followed by the persistence errors. *)
Theorem runPipeline_stats (input : PipelineInput) (deps : PipelineDeps)
    (schedule : list Repo.Turn) (w w' : Repo.World)
    (records : list (Result RawUser Rejection)) (output : PipelineOutput) :
  source input = Ok records ->
  runPipeline validateRawUser buildReport clock input deps schedule w
  = Some (Ok output, w') ->
  total (stats output) = Z.of_nat (length records)
  /\ total (stats output)
     = persisted (stats output) + skippedCount (stats output)
       + failed (stats output)
  /\ persisted (stats output) = Z.of_nat (length (successes output))
  /\ skippedCount (stats output) = Z.of_nat (length (skipped output))
  /\ failed (stats output) = Z.of_nat (length (errors output))
  /\ exists invalid unsaved,
       errors output = invalid ++ unsaved
       /\ Forall (fun failure => stage failure = validation) invalid
       /\ Forall (fun failure => stage failure = persistence) unsaved
       /\ validated (stats output)
          = total (stats output) - Z.of_nat (length invalid).
Proof.
  intros Hsource. unfold runPipeline. rewrite Hsource.
  destruct (accumulateRecords validateRawUser records _ (Repo.store w) initial)
    as [accumulator|failure] eqn:Hacc; [| discriminate].
  destruct (Repo.bulkUpsert clock (validUsers accumulator) _ schedule w)
    as [[[bulk|failure] w1]|] eqn:Hbulk; [| discriminate | discriminate].
  intros [= <- <-]. simpl.
  destruct (accumulate_shape _ _ _ _ _ Hacc)
    as (valid & invalid & skippedNow & Ht & Hv & Hi & Hs & Hn & _ & Hst & _).
  simpl in Ht, Hv, Hi, Hs.
  pose proof (BulkMore.bulkUpsert_counts clock _ _ _ _ _ _ Hbulk) as Hcounts.
  rewrite Hv in Hcounts. rewrite Hi, Hs, Ht, length_app, length_map.
  repeat split; try lia.
  exists invalid, (map mapPersistenceFailure (Repo.failures bulk)).
  repeat split; try assumption; try reflexivity.
  apply List.Forall_map, List.Forall_forall. reflexivity.
Qed.

(** Records that validate are taken in, whatever the policies decide. *)
Lemma accumulate_valid_prefix (stopEarly : bool) (repo : Repo.MemoryUserRepository)
    (more : list (Result RawUser Rejection)) (pre : list RawUser) :
  Forall (fun raw => isOk (validateRawUser raw) = true) pre ->
  forall acc,
    exists acc',
      accumulateRecords validateRawUser (map Ok pre ++ more) stopEarly repo acc
      = accumulateRecords validateRawUser more stopEarly repo acc'.
Proof.
  induction 1 as [|raw pre Hraw Hpre IH]; intros acc; simpl; [eauto |].
  unfold handleRecord.
  destruct (validateRawUser raw) as [user|invalidity]; [| discriminate].
  destruct (PolicyMore.evaluatePolicies_memory user repo None) as (outcome & ->).
  destruct outcome; apply IH.
Qed.

(** X16. With [failFast], the first record that fails validation ends the
    run with its validation error: the records behind it are not read,
    nothing is persisted, and the repository and its clock stay as they
    were. *)
Theorem runPipeline_failFast_validation (input : PipelineInput)
    (deps : PipelineDeps) (schedule : list Repo.Turn) (w : Repo.World)
    (pre : list RawUser) (raw : RawUser)
    (rest : list (Result RawUser Rejection)) (invalidity : AppError) :
  source input = Ok (map Ok pre ++ Ok raw :: rest) ->
  default (configFailFast (config deps)) (failFast input) = true ->
  Forall (fun valid => isOk (validateRawUser valid) = true) pre ->
  validateRawUser raw = Err invalidity ->
  runPipeline validateRawUser buildReport clock input deps schedule w
  = Some (Err invalidity, w).
Proof.
  intros Hsource Hfast Hpre Hraw. unfold runPipeline. rewrite Hsource, Hfast.
  destruct (accumulate_valid_prefix true (Repo.store w) (Ok raw :: rest) pre
              Hpre initial) as (acc' & ->).
  simpl. unfold handleRecord. rewrite Hraw. reflexivity.
Qed.

(** Without [failFast] the accumulation reads every record and gathers
    the validation errors in the order of the records. *)
Lemma accumulate_bestEffort (repo : Repo.MemoryUserRepository)
    (raws : list RawUser) :
  forall acc,
    exists out,
      accumulateRecords validateRawUser (map Ok raws) false repo acc = Ok out
      /\ map error (validationErrors out)
         = map error (validationErrors acc)
           ++ omap (fun raw => match validateRawUser raw with
                               | Ok _ => None
                               | Err invalidity => Some invalidity
                               end) raws.
Proof.
  induction raws as [|raw raws IH]; intros acc; simpl.
  - exists acc. rewrite app_nil_r. auto.
  - unfold handleRecord. destruct (validateRawUser raw) as [user|invalidity].
    + destruct (PolicyMore.evaluatePolicies_memory user repo None)
        as (outcome & ->).
      destruct outcome;
        match goal with
        | |- context [accumulateRecords _ _ _ _ ?next] =>
            destruct (IH next) as (out & Hout & Herrors)
        end; exists out; auto.
    + match goal with
      | |- context [accumulateRecords _ _ _ _ ?next] =>
          destruct (IH next) as (out & Hout & Herrors)
      end.
      exists out. split; [exact Hout |].
      rewrite Herrors. simpl. rewrite map_app, <- app_assoc. reflexivity.
Qed.

Lemma no_invalid_row (raws : list RawUser) :
  (Z.of_nat (length (omap (fun raw => match validateRawUser raw with
                                      | Ok _ => None
                                      | Err invalidity => Some invalidity
                                      end) raws)) >? 0)
  = negb (forallb (fun raw => isOk (validateRawUser raw)) raws).
Proof.
  induction raws as [|raw raws IH]; simpl; [reflexivity |].
  destruct (validateRawUser raw); simpl; [exact IH |].
  rewrite Z.gtb_ltb. apply Z.ltb_lt. lia.
Qed.

(** X17. Without [failFast], over the in-memory repository and with at
    least one attempt, a run over records that the source delivers does not
    fail, whatever the order in which the two chains of [bulkUpsert] take
    their turns.  When it returns, its errors are the validation errors of
    the records, in their order; every record is counted once; every
    accepted user is persisted, and the clock has been read once at least
    and twice at most for each of them; the run counts as a success when
    every record validates and as partial otherwise.  It returns once the
    sequential chain has had a turn for every record and every task its
    turn. *)
Theorem runPipeline_bestEffort_completes (raws : list RawUser)
    (key : option string) (stopEarly : option bool) (settings : Config)
    (retryOptions : Retry.RetryOptions) (schedule : list Repo.Turn)
    (w : Repo.World) :
  1 <= Retry.maxAttempts retryOptions ->
  default (configFailFast settings) stopEarly = false ->
  let run :=
    runPipeline validateRawUser buildReport clock
      {| source := Ok (map Ok raws); idempotencyKey := key;
         failFast := stopEarly |}
      {| config := settings; retry := Repo.retryExecutor retryOptions |}
      schedule w in
  (forall out,
      run = Some out ->
      exists output,
        fst out = Ok output
        /\ map error (errors output)
           = omap (fun raw => match validateRawUser raw with
                              | Ok _ => None
                              | Err invalidity => Some invalidity
                              end) raws
        /\ total (stats output) = Z.of_nat (length raws)
        /\ (Repo.reads w + length (successes output) <= Repo.reads (snd out)
            <= Repo.reads w + 2 * length (successes output))%nat
        /\ total (stats output)
           = Z.of_nat (length (successes output))
             + Z.of_nat (length (skipped output))
             + Z.of_nat (length (errors output))
        /\ Cli.classifyExit (Z.of_nat (length (errors output)))
           = Some (if forallb (fun raw => isOk (validateRawUser raw)) raws
                   then Cli.success else Cli.partial))
  /\ ((length raws <= Repo.sequentialTurns schedule)%nat ->
      Repo.servesTasks (length raws) schedule ->
      exists out, run = Some out).
Proof.
  intros Hmax Hslow run. subst run. unfold runPipeline. simpl. rewrite Hslow.
  destruct (accumulate_bestEffort (Repo.store w) raws initial)
    as (accumulator & Hacc & Herrors).
  rewrite Hacc. simpl in Herrors.
  destruct (accumulate_shape _ _ _ _ _ Hacc)
    as (valid & invalid & skippedNow & Ht & Hv & Hi & Hs & Hn & _).
  simpl in Ht, Hv, Hi, Hs. rewrite length_map in Ht, Hn.
  set (options := {| Repo.bulkIdempotencyKey := key;
                     Repo.retry := Repo.retryExecutor retryOptions;
                     Repo.failFast := bulkFailFast settings |}).
  split.
  - intros out.
    destruct (Repo.bulkUpsert clock (validUsers accumulator) options schedule w)
      as [stored|] eqn:Hbulk; [| discriminate].
    destruct (BulkMore.returned_stored clock retryOptions options eq_refl
                (validUsers accumulator) schedule w stored Hmax Hbulk)
      as (done & -> & Hlen & Hall).
    destruct (BulkMore.returned_world clock retryOptions options eq_refl
                (validUsers accumulator) schedule w Hmax Hall) as (_ & Hreads).
    intros [= <-]. simpl. rewrite app_nil_r.
    eexists. split; [reflexivity |]. simpl.
    split; [exact Herrors |]. split; [exact Ht |].
    split; [rewrite Hlen; exact Hreads |].
    split.
    { rewrite Hlen, Hv, Hi, Hs, Ht. lia. }
    rewrite CliFacts.classifyExit_kind.
    rewrite <- (length_map error), Herrors, no_invalid_row.
    destruct (forallb _ raws); reflexivity.
  - intros Hturns Hserved.
    assert (Hvalid : (length (validUsers accumulator) <= length raws)%nat)
      by (rewrite Hv; lia).
    destruct (BulkMore.served_returns clock retryOptions options eq_refl
                (validUsers accumulator) schedule w Hmax) as ([r w'] & ->).
    + destruct (Repo.failFast options); [lia |].
      intros index Hindex. apply Hserved. lia.
    + destruct r; eauto.
Qed.

End Run.

Lemma accumulateRecords_witness :
  exists out,
    accumulateRecords (ops := AsciiStrings) validateRows
      [Ok disposableRow; Ok brokenRow] false (emptyRepo 60000) initial = Ok out
    /\ acc_total out = 2
    /\ (length (validUsers out) + length (validationErrors out)
        + length (acc_skipped out) = 2)%nat.
Proof.
  destruct (accumulateRecords (ops := AsciiStrings) validateRows
              [Ok disposableRow; Ok brokenRow] false (emptyRepo 60000) initial)
    as [out|failure] eqn:Hrun; [| vm_compute in Hrun; discriminate].
  destruct (accumulateRecords_accounts (ops := AsciiStrings) validateRows
              _ _ _ _ Hrun) as (Ht & Hn & _).
  exists out. split; [reflexivity |]. split; [exact Ht | exact Hn].
Defined.

Lemma runPipeline_stats_witness :
  exists output w',
    runRows [disposableRow; brokenRow] None = Some (Ok output, w')
    /\ total (stats output) = 2
    /\ total (stats output)
       = persisted (stats output) + skippedCount (stats output)
         + failed (stats output).
Proof.
  destruct (runRows [disposableRow; brokenRow] None)
    as [[[output|failure] w']|] eqn:Hrun;
    [| vm_compute in Hrun; discriminate | vm_compute in Hrun; discriminate].
  destruct (runPipeline_stats (ops := AsciiStrings) validateRows plainReport
              everySecond (rows [disposableRow; brokenRow] None) bestEffort
              (firstThenTasks 2) startOfDay w' [Ok disposableRow; Ok brokenRow]
              output eq_refl Hrun)
    as (Ht & Hsum & _).
  exists output, w'. split; [reflexivity |]. split; assumption.
Defined.

Lemma runPipeline_failFast_witness :
  runRows [disposableRow; brokenRow; disposableRow] (Some true)
  = Some (Err validationFailed, startOfDay).
Proof.
  apply (runPipeline_failFast_validation (ops := AsciiStrings) validateRows
           plainReport everySecond
           (rows [disposableRow; brokenRow; disposableRow] (Some true))
           bestEffort (firstThenTasks 3) startOfDay [disposableRow] brokenRow
           [Ok disposableRow] validationFailed).
  - reflexivity.
  - reflexivity.
  - repeat constructor.
  - reflexivity.
Defined.

Lemma runPipeline_bestEffort_witness :
  exists out output,
    runRows [adaRow; brokenRow] None = Some out
    /\ fst out = Ok output
    /\ map error (errors output) = [validationFailed]
    /\ (1 <= Repo.reads (snd out) <= 2)%nat
    /\ Cli.classifyExit (Z.of_nat (length (errors output))) = Some Cli.partial.
Proof.
  destruct (runPipeline_bestEffort_completes (ops := AsciiStrings) validateRows
              plainReport everySecond [adaRow; brokenRow]
              (Some "batch-1"%string) None
              {| configFailFast := false; bulkFailFast := true |}
              threeAttempts (firstThenTasks 2) startOfDay)
    as (Hreturned & Hreturns).
  - vm_compute. discriminate.
  - reflexivity.
  - destruct Hreturns as (out & Hout).
    + vm_compute. lia.
    + exact (proj2 BulkMore.firstThenTasks_serves).
    + destruct (Hreturned out Hout)
        as (output & Hok & Herrors & _ & Hreads & _ & Hexit).
      exists out, output. split; [exact Hout |]. split; [exact Hok |].
      split; [exact Herrors |]. split; [| exact Hexit].
      assert (Hone : length (successes output) = 1%nat).
      { vm_compute in Hout. injection Hout as <-. simpl in Hok.
        injection Hok as <-. reflexivity. }
      rewrite Hone in Hreads. exact Hreads.
Defined.

End PipelineFacts.

(** ** The fields of a CSV line *)

Module CsvFacts.
Import Csv.

Lemma append_empty (s : string) : (s ++ "")%string = s.
Proof.
  induction s as [|char s IH]; [reflexivity |].
  change (String char (s ++ "") = String char s). rewrite IH. reflexivity.
Qed.

Lemma append_assoc (a b c : string) : ((a ++ b) ++ c)%string = (a ++ (b ++ c))%string.
Proof.
  induction a as [|char a IH]; [reflexivity |].
  change (String char ((a ++ b) ++ c) = String char (a ++ (b ++ c))).
  rewrite IH. reflexivity.
Qed.

Lemma chars_append (a b : string) :
  list_ascii_of_string (a ++ b) = list_ascii_of_string a ++ list_ascii_of_string b.
Proof.
  induction a as [|char a IH]; [reflexivity |].
  change (char :: list_ascii_of_string (a ++ b)
          = char :: (list_ascii_of_string a ++ list_ascii_of_string b)).
  rewrite IH. reflexivity.
Qed.

Lemma split_pieces (sep : ascii) (s : string) :
  exists piece pieces, split sep s = piece :: pieces.
Proof.
  induction s as [|char s (piece & pieces & IH)]; simpl; [eauto |].
  rewrite IH. destruct (Ascii.eqb char sep); eauto.
Qed.

Section Parser.
Context {trimming : Trimming}.

(** Outside quotes, a character that is no quote ends the field when it is
    a comma and joins it otherwise. *)
Lemma step_plain (state : ParserState) (char : ascii) (next : option ascii) :
  Ascii.eqb char quote = false ->
  inQuotes state = false -> skipNext state = false ->
  step state char next
  = if Ascii.eqb char "," then appendValue state
    else {| values := values state;
            current := current state ++ String char EmptyString;
            inQuotes := false; skipNext := false |}.
Proof.
  intros Hchar Hout Hskip. unfold step. rewrite Hskip, Hchar, Hout. simpl.
  rewrite andb_true_r. reflexivity.
Qed.

(** A line without a quote: the reducer cuts at every comma. *)
Lemma reduce_unquoted (line : string) :
  forall state,
    quote ∉ list_ascii_of_string line ->
    inQuotes state = false -> skipNext state = false ->
    values (appendValue (reduce (list_ascii_of_string line) state))
    = values state
      ++ map trim match split "," line with
                  | piece :: pieces => (current state ++ piece)%string :: pieces
                  | [] => [current state]
                  end.
Proof.
  induction line as [|char line IH]; intros state Hplain Hout Hskip.
  - simpl. rewrite append_empty. reflexivity.
  - assert (Hchar : Ascii.eqb char quote = false).
    { apply Ascii.eqb_neq. intros ->. apply Hplain. simpl. apply elem_of_cons. auto. }
    assert (Hrest : quote ∉ list_ascii_of_string line).
    { intros Hin. apply Hplain. simpl. apply elem_of_cons. auto. }
    cbn [list_ascii_of_string reduce split].
    rewrite (step_plain state char _ Hchar Hout Hskip).
    destruct (split_pieces "," line) as (piece & pieces & Hpieces).
    destruct (Ascii.eqb char ","); rewrite IH by (try assumption; reflexivity);
      rewrite Hpieces; simpl.
    + rewrite append_empty, <- app_assoc. reflexivity.
    + rewrite append_assoc. reflexivity.
Qed.

(** X21. [parseCsvLine] never returns an empty list, and on a line without
    a quote it returns the pieces between the commas, each trimmed. *)
Theorem parseCsvLine_unquoted (line : string) :
  parseCsvLine line <> []
  /\ (quote ∉ list_ascii_of_string line ->
      parseCsvLine line = map trim (split "," line)).
Proof.
  split.
  - unfold parseCsvLine, appendValue. simpl. intros Hnil.
    apply app_eq_nil in Hnil as (_ & Hnil). discriminate.
  - intros Hplain. unfold parseCsvLine.
    rewrite (reduce_unquoted line initial Hplain eq_refl eq_refl).
    destruct (split_pieces "," line) as (piece & pieces & ->). reflexivity.
Qed.

(** The reducer at a quote and inside quotes. *)
Lemma step_toggle (state : ParserState) (next : option ascii) :
  skipNext state = false ->
  inQuotes state = false \/ next <> Some quote ->
  step state quote next
  = {| values := values state; current := current state;
       inQuotes := negb (inQuotes state); skipNext := false |}.
Proof.
  intros Hskip Hcase. unfold step. rewrite Hskip. simpl.
  destruct Hcase as [-> | Hnext]; [reflexivity |].
  destruct next as [following|]; [| rewrite andb_false_r; reflexivity].
  destruct (Ascii.eqb_spec following quote) as [-> | _]; [contradiction |].
  rewrite andb_false_r. reflexivity.
Qed.

Lemma step_doubled (state : ParserState) :
  inQuotes state = true -> skipNext state = false ->
  step state quote (Some quote)
  = {| values := values state;
       current := current state ++ String quote EmptyString;
       inQuotes := true; skipNext := true |}.
Proof. intros Hin Hskip. unfold step. rewrite Hskip, Hin. reflexivity. Qed.

Lemma step_inside (state : ParserState) (char : ascii) (next : option ascii) :
  inQuotes state = true -> skipNext state = false ->
  Ascii.eqb char quote = false ->
  step state char next
  = {| values := values state;
       current := current state ++ String char EmptyString;
       inQuotes := true; skipNext := false |}.
Proof.
  intros Hin Hskip Hchar. unfold step. rewrite Hskip, Hchar, Hin.
  rewrite andb_false_r. reflexivity.
Qed.

(** Inside quotes the reducer takes every character of the field: a
    doubled quote as one quote, a comma as a comma. *)
Lemma reduce_escaped (field : string) :
  forall rest state,
    inQuotes state = true -> skipNext state = false ->
    head rest <> Some quote ->
    reduce (list_ascii_of_string (escape field) ++ quote :: rest) state
    = reduce rest {| values := values state;
                     current := current state ++ field;
                     inQuotes := false; skipNext := false |}.
Proof.
  induction field as [|char field IH]; intros rest state Hin Hskip Hnext.
  - cbn [escape list_ascii_of_string app reduce].
    rewrite step_toggle by auto. rewrite Hin, append_empty. reflexivity.
  - cbn [escape]. destruct (Ascii.eqb_spec char quote) as [->|Hchar].
    + cbn [list_ascii_of_string app reduce head].
      rewrite step_doubled by assumption.
      unfold step at 1. cbn [skipNext values current inQuotes].
      rewrite IH by (try assumption; reflexivity).
      cbn [values current]. rewrite append_assoc. reflexivity.
    + cbn [list_ascii_of_string app reduce].
      apply Ascii.eqb_neq in Hchar. rewrite step_inside by assumption.
      rewrite IH by (try assumption; reflexivity).
      cbn [values current]. rewrite append_assoc. reflexivity.
Qed.

Lemma reduce_quoted_fields (fields : list string) :
  forall field state,
    inQuotes state = false -> skipNext state = false -> current state = ""%string ->
    values (appendValue
              (reduce (list_ascii_of_string
                         (String.concat "," (map quoted (field :: fields))))
                      state))
    = values state ++ map trim (field :: fields).
Proof.
  induction fields as [|following fields IH]; intros field state Hout Hskip Hempty.
  - change (String.concat "," (map quoted [field])) with (quoted field).
    unfold quoted. cbn [list_ascii_of_string].
    rewrite chars_append. cbn [list_ascii_of_string reduce].
    rewrite step_toggle by auto. rewrite Hout.
    rewrite reduce_escaped by (try reflexivity; discriminate).
    cbn [reduce values current]. rewrite Hempty. reflexivity.
  - change (String.concat "," (map quoted (field :: following :: fields)))
      with (quoted field
            ++ ("," ++ String.concat "," (map quoted (following :: fields))))%string.
    rewrite chars_append. unfold quoted at 1. cbn [list_ascii_of_string].
    rewrite chars_append. cbn [list_ascii_of_string app].
    rewrite <- app_assoc. cbn [app reduce].
    rewrite step_toggle by auto. rewrite Hout.
    change (list_ascii_of_string
              ("," ++ String.concat "," (map quoted (following :: fields))))
      with (","%char :: list_ascii_of_string
                            (String.concat "," (map quoted (following :: fields)))).
    rewrite reduce_escaped by (try reflexivity; discriminate).
    cbn [reduce values current].
    rewrite step_plain by reflexivity. rewrite Ascii.eqb_refl.
    rewrite IH by reflexivity.
    unfold appendValue. cbn [values current map].
    rewrite Hempty, <- app_assoc. reflexivity.
Qed.

(** X22. A line of quoted fields parses back to the fields, whatever
    commas and quotes they hold; each field comes back trimmed, quoted or
    not. *)
Theorem parseCsvLine_quoted (fields : list string) :
  fields <> [] ->
  parseCsvLine (String.concat "," (map quoted fields)) = map trim fields.
Proof.
  destruct fields as [|field fields]; [contradiction |]. intros _.
  unfold parseCsvLine.
  apply (reduce_quoted_fields fields field initial); reflexivity.
Qed.

End Parser.

Lemma parseCsvLine_unquoted_witness :
  parseCsvLine (trimming := AsciiTrimming) "1, Ada Lovelace ,ada@example.com,"
  = ["1"%string; "Ada Lovelace"%string; "ada@example.com"%string; ""%string].
Proof.
  rewrite (proj2 (parseCsvLine_unquoted (trimming := AsciiTrimming)
                    "1, Ada Lovelace ,ada@example.com,")).
  - reflexivity.
  - intros Hin. repeat (apply elem_of_cons in Hin as [Hin | Hin]; [discriminate |]).
    apply elem_of_nil in Hin. contradiction.
Defined.

Lemma parseCsvLine_quoted_witness :
  parseCsvLine (trimming := AsciiTrimming)
    (String.concat "," (map quoted ["Lovelace, Ada"%string; " x "%string]))
  = ["Lovelace, Ada"%string; "x"%string].
Proof.
  rewrite (parseCsvLine_quoted (trimming := AsciiTrimming)
             ["Lovelace, Ada"%string; " x "%string]).
  - reflexivity.
  - discriminate.
Defined.

End CsvFacts.

(** ** The records of a CSV file *)

Module IteratorFacts.
Import Errors Csv.

Section Iterator.
Context {trimming : Trimming}.
Variable stripBom : string -> string.

(** A call never gives lines back. *)
Lemma nextRecord_rest (lines : list string) :
  forall headers,
    (length (snd (fst (nextRecord stripBom lines headers))) <= length lines)%nat
    /\ (fst (fst (nextRecord stripBom lines headers)) <> finished ->
        (length (snd (fst (nextRecord stripBom lines headers))) < length lines)%nat).
Proof.
  induction lines as [|value rest IH]; intros headers; simpl.
  - split; [lia | congruence].
  - destruct (String.length (trim value) =? 0)%nat.
    { destruct (IH headers) as (Hle & Hlt). split; [lia | intros H; apply Hlt in H; lia]. }
    destruct headers as [names|].
    + destruct (negb _); simpl; split; lia.
    + destruct (IH (Some (parseCsvLine (stripBom (trim value))))) as (Hle & Hlt).
      split; [lia | intros H; apply Hlt in H; lia].
Qed.

(** Fuel beyond the number of lines changes nothing. *)
Lemma readAll_fuel (fuel1 : nat) :
  forall fuel2 lines headers,
    (length lines <= fuel1)%nat -> (length lines <= fuel2)%nat ->
    readAll stripBom fuel1 lines headers = readAll stripBom fuel2 lines headers.
Proof.
  induction fuel1 as [|fuel1 IH]; intros fuel2 lines headers H1 H2.
  - destruct lines; [| simpl in H1; lia]. destruct fuel2; reflexivity.
  - destruct fuel2 as [|fuel2].
    { destruct lines; [| simpl in H2; lia]. reflexivity. }
    simpl. destruct (nextRecord_rest lines headers) as (_ & Hlt).
    destruct (nextRecord stripBom lines headers) as [[[|value|error] rest] names];
      simpl in Hlt; [reflexivity | |];
      f_equal; apply IH; assert ((length rest < length lines)%nat)
        by (apply Hlt; discriminate); lia.
Qed.

(** The results of a file, line by line: a blank line gives nothing, the
    first line that is not blank sets the headers, and every other line
    gives a record or a rejection. *)
Lemma readAll_cons (value : string) (rest : list string)
    (headers : option (list string)) :
  readAll stripBom (length (value :: rest)) (value :: rest) headers
  = if (String.length (trim value) =? 0)%nat
    then readAll stripBom (length rest) rest headers
    else match headers with
         | None =>
             readAll stripBom (length rest) rest
               (Some (parseCsvLine (stripBom (trim value))))
         | Some names =>
             (if negb (length (parseCsvLine (trim value)) =? length names)%nat
              then Err (rowError names (parseCsvLine (trim value)) (trim value))
              else Ok (toRecord names (parseCsvLine (trim value))))
             :: readAll stripBom (length rest) rest headers
         end.
Proof.
  assert (Hskip : forall names,
             readAll stripBom (S (length rest)) rest names
             = readAll stripBom (length rest) rest names).
  { intros names. apply readAll_fuel; lia. }
  change (length (value :: rest)) with (S (length rest)).
  destruct (String.length (trim value) =? 0)%nat eqn:Hblank.
  - rewrite <- Hskip. simpl. rewrite Hblank. reflexivity.
  - destruct headers as [names|].
    + simpl. rewrite Hblank. destruct (negb _); reflexivity.
    + rewrite <- Hskip. simpl. rewrite Hblank. reflexivity.
Qed.

(** X23. A blank line, wherever it stands, changes nothing of what the
    file delivers: neither the headers nor a record nor a rejection. *)
Theorem records_skip_blank (before after : list string) (blankLine : string) :
  String.length (trim blankLine) = 0%nat ->
  records stripBom (before ++ blankLine :: after)
  = records stripBom (before ++ after).
Proof.
  intros Hblank. unfold records. generalize (@None (list string)).
  induction before as [|value before IH]; intros headers.
  - change ([] ++ blankLine :: after) with (blankLine :: after).
    rewrite readAll_cons, Hblank. reflexivity.
  - change ((value :: before) ++ ?l) with (value :: (before ++ l)).
    rewrite !readAll_cons.
    destruct (String.length (trim value) =? 0)%nat; [apply IH |].
    destruct headers as [names|]; [| apply IH].
    f_equal. apply IH.
Qed.

(** The keys of a record are header names, and never empty. *)
Lemma toRecord_keys (headers values : list string) (key : string) :
  is_Some (toRecord headers values !! key) ->
  String.length key <> 0%nat /\ key ∈ map trim headers.
Proof.
  unfold toRecord.
  assert (Hfold : forall (items : list (nat * string)) (acc : gmap string string),
             is_Some (fold_left
                        (fun acc item =>
                           let key := trim (snd item) in
                           if (String.length key =? 0)%nat then acc
                           else match values !! fst item with
                                | Some value => <[key := value]> acc
                                | None => acc
                                end) items acc !! key) ->
             is_Some (acc !! key)
             \/ (String.length key <> 0%nat /\ key ∈ map trim (map snd items))).
  { induction items as [|item items IH]; intros acc; simpl; [auto |].
    intros Hkey. destruct (IH _ Hkey) as [Hacc | (Hlen & Hin)].
    - destruct (Nat.eqb_spec (String.length (trim (snd item))) 0) as [|Hlen];
        [auto |].
      destruct (values !! fst item) as [value|]; [| auto].
      destruct (decide (trim (snd item) = key)) as [<-|Hne].
      + right. split; [exact Hlen | apply elem_of_cons; auto].
      + rewrite lookup_insert_ne in Hacc by exact Hne. auto.
    - right. split; [exact Hlen | apply elem_of_cons; auto]. }
  intros Hkey. destruct (Hfold _ _ Hkey) as [Hempty | (Hlen & Hin)].
  - rewrite lookup_empty in Hempty. destruct Hempty; discriminate.
  - split; [exact Hlen |].
    replace (map snd (imap (fun index header => (index, header)) headers))
      with headers in Hin; [exact Hin |].
    clear.
    assert (Hgen : forall (f : nat -> nat) (l : list string),
               l = map snd (imap (fun index header => (f index, header)) l)).
    { intros f l. revert f. induction l as [|x l IH]; intros f; simpl;
        [reflexivity |].
      f_equal. apply (IH (fun index => f (S index))). }
    apply (Hgen (fun index => index)).
Qed.

Lemma readAll_shape (lines : list string) :
  forall headers,
    length (readAll stripBom (length lines) lines headers)
    = (length (List.filter (fun line => negb (String.length (trim line) =? 0)%nat) lines)
       - match headers with Some _ => 0 | None => 1 end)%nat
    /\ Forall (fun result =>
                 match result with
                 | Ok value =>
                     forall key, is_Some (value !! key) ->
                                 String.length key <> 0%nat
                 | Err error =>
                     type error = ParseError /\ code error = CSV_PARSE_ERROR
                 end)
              (readAll stripBom (length lines) lines headers).
Proof.
  induction lines as [|value rest IH]; intros headers.
  - simpl. split; [destruct headers; reflexivity | constructor].
  - rewrite readAll_cons. cbn [List.filter].
    destruct (String.length (trim value) =? 0)%nat; cbn [negb]; [apply IH |].
    destruct headers as [names|].
    + destruct (IH (Some names)) as (Hlen & Hall). cbn [length]. split.
      * rewrite Hlen. lia.
      * constructor; [| exact Hall].
        destruct (negb _); [split; reflexivity |].
        intros key Hkey. apply (toRecord_keys _ _ _ Hkey).
    + destruct (IH (Some (parseCsvLine (stripBom (trim value))))) as (Hlen & Hall).
      cbn [length]. split; [rewrite Hlen; lia | exact Hall].
Qed.

(** X24. The first line that is not blank is the header line and gives
    no record; every other line that is not blank gives one result, a
    record or a rejection.  A rejection is a parse error with the code
    CSV_PARSE_ERROR, and no record has an empty key. *)
Theorem records_shape (lines : list string) :
  length (records stripBom lines)
  = pred (length (List.filter (fun line => negb (String.length (trim line) =? 0)%nat)
                         lines))
  /\ Forall (fun result =>
               match result with
               | Ok value =>
                   forall key, is_Some (value !! key) -> String.length key <> 0%nat
               | Err error =>
                   type error = ParseError /\ code error = CSV_PARSE_ERROR
               end)
            (records stripBom lines).
Proof.
  unfold records. destruct (readAll_shape lines None) as (Hlen & Hall).
  split; [rewrite Hlen; lia | exact Hall].
Qed.

End Iterator.

Lemma records_skip_blank_witness :
  records (trimming := AsciiTrimming) (fun line => line)
    ["id,name"%string; "  "%string; "1,Ada"%string; "2"%string]
  = [Ok {[ "id"%string := "1"%string; "name"%string := "Ada"%string ]};
     Err (rowError ["id"%string; "name"%string] ["2"%string] "2")].
Proof.
  refine (eq_trans
            (records_skip_blank (trimming := AsciiTrimming) (fun line => line)
               ["id,name"%string] ["1,Ada"%string; "2"%string] "  " eq_refl) _).
  vm_compute. reflexivity.
Defined.

End IteratorFacts.

(** ** [partitionResults] *)

Module ResultFacts.
Import ResultUtils.

(** X25. [partitionResults] keeps the order on both sides: the successes
    are the values of the [Ok] results and the failures the errors of the
    [Err] results, as they come; every result is on one side; and the
    partition of two lists in a row is the partition of the first followed,
    on each side, by the partition of the second. *)
Theorem partitionResults_partition {T E : Type} (results more : list (Result T E)) :
  successes (partitionResults results)
  = omap (fun r => match r with Ok value => Some value | Err _ => None end) results
  /\ failures (partitionResults results)
     = omap (fun r => match r with Ok _ => None | Err error => Some error end)
            results
  /\ (length (successes (partitionResults results))
      + length (failures (partitionResults results)) = length results)%nat
  /\ partitionResults (results ++ more)
     = {| successes := successes (partitionResults results)
                       ++ successes (partitionResults more);
          failures := failures (partitionResults results)
                      ++ failures (partitionResults more) |}.
Proof.
  unfold partitionResults.
  match goal with |- context [fold_left ?f results _] => set (step := f) end.
  assert (Hfrom : forall l acc,
             fold_left step l acc
             = {| successes := successes acc
                               ++ omap (fun r => match r with
                                                 | Ok value => Some value
                                                 | Err _ => None
                                                 end) l;
                  failures := failures acc
                              ++ omap (fun r => match r with
                                                | Ok _ => None
                                                | Err error => Some error
                                                end) l |}).
  { induction l as [|[value|error] l IH]; intros acc; simpl.
    - rewrite !app_nil_r. destruct acc; reflexivity.
    - rewrite IH. simpl. rewrite <- app_assoc. reflexivity.
    - rewrite IH. simpl. rewrite <- app_assoc. reflexivity. }
  rewrite !Hfrom. simpl.
  split; [reflexivity |]. split; [reflexivity |]. split.
  - clear. induction results as [|[value|error] results IH]; simpl.
    + reflexivity.
    + exact (f_equal S IH).
    + rewrite Nat.add_succ_r. exact (f_equal S IH).
  - rewrite !omap_app. reflexivity.
Qed.

End ResultFacts.

